(** * The extended yard sale model: a shallow embedding of
      [extended_yard_sale/helper.py]

    The classes [Wealth] and [ExtendedYardSale] are embedded as Rocq
    functions.  Balances are numpy [float64] scalars (the code calls
    [.round(2)] on them, a numpy method), modelled by Rocq's primitive
    binary64 floats; the wealth dictionary is an insertion-ordered
    association list; [self.wealth] is a reference into a store of
    dictionary objects; the module-global generator of Python's [random]
    is a parameter of the engine. *)

From Stdlib Require Import String.
From Stdlib Require Import ZArith List Bool Lia Floats Permutation Sorted.
From Stdlib Require Uint63.
Import ListNotations.
Set Warnings "-inexact-float".
Local Open Scope float_scope.

(** ** binary64 arithmetic as numpy and CPython perform it *)

Module Np.

(** An integer as a float: exact below [2^53], correctly rounded below
    [2^63] (Python's [int] to [float] conversion). *)
Definition of_Z (z : Z) : float :=
  if (z <? 0)%Z then - (of_uint63 (Uint63.of_Z (- z)))
  else of_uint63 (Uint63.of_Z z).

Definition of_nat (k : nat) : float := of_Z (Z.of_nat k).

Definition signed (s : bool) (x : float) : float := if s then - x else x.

Definition is_nan (x : float) : bool := negb (x =? x).

(** C's [rint] in the default rounding mode: the nearest integer, ties to
    the even one; the sign of the argument is kept. *)
Definition rint (x : float) : float :=
  match Prim2SF x with
  | S754_finite s m e =>
      if (0 <=? e)%Z then x
      else
        let d := Z.pow 2 (- e) in
        let q := Z.div (Zpos m) d in
        let r := Z.modulo (Zpos m) d in
        let q' := match Z.compare (2 * r) d with
                  | Lt => q
                  | Eq => if Z.even q then q else (q + 1)%Z
                  | Gt => (q + 1)%Z
                  end in
        signed s (of_Z q')
  | _ => x
  end.

(** C's [floor]. *)
Definition floor (x : float) : float :=
  match Prim2SF x with
  | S754_finite s m e =>
      if (0 <=? e)%Z then x
      else of_Z (Z.div (if s then Zneg m else Zpos m) (Z.pow 2 (- e)))
  | _ => x
  end.

(** C's [fmod]: exact, with the sign of the dividend. *)
Definition fmod (a b : float) : float :=
  match Prim2SF a, Prim2SF b with
  | S754_nan, _ | _, S754_nan => nan
  | S754_infinity _, _ => nan
  | _, S754_zero _ => nan
  | S754_zero _, _ => a
  | S754_finite _ _ _, S754_infinity _ => a
  | S754_finite sa ma ea, S754_finite _ mb eb =>
      let e := Z.min ea eb in
      let A := (Zpos ma * Z.pow 2 (ea - e))%Z in
      let B := (Zpos mb * Z.pow 2 (eb - e))%Z in
      signed sa (Z.ldexp (of_Z (Z.modulo A B)) e)
  end.

Definition copysign (x y : float) : float :=
  match Prim2SF y with
  | S754_zero s | S754_infinity s | S754_finite s _ _ => signed s (abs x)
  | S754_nan => abs x
  end.

(** C truth value of a double: anything but a zero (a NaN is true). *)
Definition truthy (x : float) : bool := negb (x =? 0).

(** [a // b] on float64: numpy's [npy_divmod] (the algorithm of CPython's
    [float_divmod]), quotient part. *)
Definition floor_divide (a b : float) : float :=
  if negb (truthy b) then a / b
  else
    let mod_ := fmod a b in
    let div := (a - mod_) / b in
    let div :=
      if truthy mod_ then
        if negb (Bool.eqb (b <? 0) (mod_ <? 0)) then div - 1 else div
      else div in
    if truthy div then
      let floordiv := floor div in
      if 0.5 <? div - floordiv then floordiv + 1 else floordiv
    else copysign 0 (a / b).

(** [x.round(decimals)] on float64: scale, [rint], unscale. *)
Definition round (x : float) (decimals : Z) : float :=
  let f := of_Z (Z.pow 10 decimals) in
  rint (x * f) / f.

(** Straight accumulation, left to right. *)
Definition seq_sum (acc : float) (a : list float) : float :=
  fold_left PrimFloat.add a acc.

(** One pass of the eight running sums of the unrolled loop. *)
Fixpoint add_lanes (r a : list float) : list float :=
  match r, a with
  | x :: r', y :: a' => (x + y) :: add_lanes r' a'
  | _, _ => r
  end.

Fixpoint lanes_loop (blocks : nat) (r a : list float) : list float * list float :=
  match blocks with
  | O => (r, a)
  | S k => lanes_loop k (add_lanes r (firstn 8 a)) (skipn 8 a)
  end.

(** The middle case of numpy's pairwise summation ([8 <= n <= 128]). *)
Definition unrolled_sum (a : list float) : float :=
  let n := length a in
  let (r, rest) := lanes_loop (n / 8 - 1) (firstn 8 a) (skipn 8 a) in
  let r := fun i => nth i r 0 in
  let res := ((r 0%nat + r 1%nat) + (r 2%nat + r 3%nat))
             + ((r 4%nat + r 5%nat) + (r 6%nat + r 7%nat)) in
  seq_sum res rest.

(** numpy's [pairwise_sum]; the recursion halves the list, so a fuel of
    [length a] is never exhausted. *)
Fixpoint pairwise_sum (fuel : nat) (a : list float) : float :=
  let n := length a in
  if (n <? 8)%nat then seq_sum 0 a
  else if (n <=? 128)%nat then unrolled_sum a
  else
    match fuel with
    | O => nan
    | S fuel' =>
        let n2 := (n / 2)%nat in
        let n2 := (n2 - n2 mod 8)%nat in
        pairwise_sum fuel' (firstn n2 a) + pairwise_sum fuel' (skipn n2 a)
    end.

(** [np.sum] of a list of floats: [add.reduce] from the identity [0]. *)
Definition sum (a : list float) : float := 0 + pairwise_sum (length a) a.

(** [np.mean]. *)
Definition mean (a : list float) : float := sum a / of_nat (length a).

(** [np.cumsum]. *)
Fixpoint cumsum_from (acc : float) (a : list float) : list float :=
  match a with
  | [] => []
  | x :: a' => (acc + x) :: cumsum_from (acc + x) a'
  end.

Definition cumsum (a : list float) : list float :=
  match a with
  | [] => []
  | x :: a' => x :: cumsum_from x a'
  end.

(** The order numpy sorts floats by: NaNs last. *)
Definition lt (a b : float) : bool := (a <? b) || (is_nan b && negb (is_nan a)).

Fixpoint insert (x : float) (l : list float) : list float :=
  match l with
  | [] => [x]
  | y :: l' => if lt x y then x :: l else y :: insert x l'
  end.

(** [np.sort]: the ascending arrangement (an insertion sort; numpy's
    result differs from it at most in the order of equal elements). *)
Definition sort (a : list float) : list float := fold_left (fun l x => insert x l) a [].

End Np.

(** Python's built-in [min] of two values: the first unless the second is
    strictly smaller. *)
Definition min2 (v0 v1 : float) : float := if v1 <? v0 then v1 else v0.

(** Python's built-in [sum] of numpy floats, from the integer [0]. *)
Definition py_sum (a : list float) : float := fold_left PrimFloat.add a 0.

(** ** Python values: dictionaries, exceptions *)

(** A [dict] in insertion order.  [set] is item assignment [d[k] = v]:
    an existing key keeps its place, a new key goes last. *)
Section Dict.
Context {K V : Type}.
Variable eqb : K -> K -> bool.

Fixpoint get (d : list (K * V)) (k : K) : option V :=
  match d with
  | [] => None
  | (k', v) :: d' => if eqb k k' then Some v else get d' k
  end.

Fixpoint set (d : list (K * V)) (k : K) (v : V) : list (K * V) :=
  match d with
  | [] => [(k, v)]
  | (k', v') :: d' => if eqb k k' then (k', v) :: d' else (k', v') :: set d' k v
  end.

(** The dictionary a comprehension builds from the items it yields. *)
Definition of_items (items : list (K * V)) : list (K * V) :=
  fold_left (fun d kv => set d (fst kv) (snd kv)) items [].

(** [{**d1, **d2}]. *)
Definition merge (d1 d2 : list (K * V)) : list (K * V) :=
  fold_left (fun d kv => set d (fst kv) (snd kv)) d2 (of_items d1).

End Dict.

Definition person := string.
Definition dict := list (person * float).
Definition keys (d : dict) : list person := map fst d.
Definition values (d : dict) : list float := map snd d.
Definition dget := @get person float String.eqb.
Definition dset := @set person float String.eqb.

Inductive exn :=
| Exception (msg : string)
| ValueError
| KeyError
| IndexError
| AttributeError
| ZeroDivisionError.

Inductive result (A : Type) :=
| Ok (a : A)
| Raise (e : exn).
Arguments Ok {A} a.
Arguments Raise {A} e.

(** ** [plot_wealth]

    The data frame [plot_wealth] hands to the plotting library: the
    columns [person] and [wealth] of round [n] of a history
    ([yard_sale[n]] raises [KeyError] for a round that has no snapshot). *)
Definition plot_wealth (yard_sale : list (Z * dict)) (n : Z)
  : result (list person * list float) :=
  match get Z.eqb yard_sale n with
  | Some d => Ok (keys d, values d)
  | None => Raise KeyError
  end.

(** ** class Wealth *)

Module Wealth.

(** [_validate_wealth]; that the argument is a dictionary is its type. *)
Definition _validate_wealth (wealth : dict) : result unit :=
  if negb (length (keys wealth) mod 2 =? 0)%nat || (length (keys wealth) =? 0)%nat
  then Raise (Exception "start_wealth needs an even number of people")
  else Ok tt.

Definition sort_wealth (wealth : dict) : list float := Np.sort (values wealth).

Definition enumerate {A} (l : list A) : list (nat * A) := combine (seq 0 (length l)) l.

(** [calc_gini]; [2. / n] divides a Python float by the integer [n] and
    raises [ZeroDivisionError] when there is no key; the later division by
    [np.sum] is numpy's and raises nothing. *)
Definition calc_gini (wealth : dict) : result float :=
  let sorted_wealth := sort_wealth wealth in
  let n := length (keys wealth) in
  if (n =? 0)%nat then Raise ZeroDivisionError
  else
    let n := Np.of_nat n in
    let coef := 2 / n in
    let const := (n + 1) / n in
    let weighted_sum :=
      py_sum (map (fun iy => Np.of_nat (fst iy + 1) * snd iy) (enumerate sorted_wealth)) in
    Ok (coef * weighted_sum / Np.sum sorted_wealth - const).

(** The data frame [plot_lorenz_curve] hands to the plotting library:
    the columns [x] and [y]. *)
Definition plot_lorenz_curve (wealth : dict) : list float * list float :=
  let sorted_wealth := sort_wealth wealth in
  let total := Np.sum sorted_wealth in
  let wealth_values_lorenz := map (fun c => c / total) (Np.cumsum sorted_wealth) in
  let wealth_values_lorenz := 0 :: wealth_values_lorenz in
  let size := length wealth_values_lorenz in
  (map (fun i => Np.of_nat i / Np.of_nat (size - 1)) (seq 0 size),
   wealth_values_lorenz).

End Wealth.

(** ** class ExtendedYardSale *)

Module ExtendedYardSale.

(** The attributes of an instance.  [wealth] is a reference: the address
    of a dictionary object in the store. *)
Record obj := {
  wealth : nat;
  win_percentage : float;
  chi : float;
  zeta : float;
  kappa : float;
  n : Z;
  _n_people : nat;
  _avg_wealth : option float
}.

Section Engine.

(** Python's [random] module: the state of its global generator, what
    [random.seed] sets it to, and the draws of [random.sample] and
    [random.choices] (the first element of the list it returns; [None]
    when it raises [ValueError]). *)
Variable gen : Type.
Variable random_seed : Z -> gen.
Variable sample : gen -> list person -> nat -> list person * gen.
Variable choices : gen -> list Z -> list float -> option Z * gen.

(** The program state: the store of dictionary objects, the global
    generator, the instance. *)
Record state := {
  heap : list dict;
  random : gen;
  self : obj
}.

(** Computations that read and write the state and may raise; what was
    written before an exception stays written. *)
Definition M (A : Type) : Type := state -> result A * state.

Definition ret {A} (a : A) : M A := fun st => (Ok a, st).
Definition raise {A} (e : exn) : M A := fun st => (Raise e, st).
Definition bind {A B} (c : M A) (k : A -> M B) : M B :=
  fun st => match c st with
            | (Ok a, st') => k a st'
            | (Raise e, st') => (Raise e, st')
            end.

Notation "x <- c ;; k" := (bind c (fun x => k))
  (at level 61, c at next level, right associativity).
Notation "c ;; k" := (bind c (fun _ => k))
  (at level 61, right associativity).

Definition deref (h : list dict) (r : nat) : dict := nth r h [].

(** Reading [self.wealth]. *)
Definition get_wealth : M dict := fun st => (Ok (deref (heap st) (wealth (self st))), st).

(** [self.wealth = d] for a newly built dictionary [d]. *)
Definition set_wealth (d : dict) : M unit := fun st =>
  (Ok tt,
   {| heap := heap st ++ [d];
      random := random st;
      self := {| wealth := length (heap st);
                 win_percentage := win_percentage (self st);
                 chi := chi (self st);
                 zeta := zeta (self st);
                 kappa := kappa (self st);
                 n := n (self st);
                 _n_people := _n_people (self st);
                 _avg_wealth := _avg_wealth (self st) |} |}).

Definition attr {A} (f : obj -> A) : M A := fun st => (Ok (f (self st)), st).

Definition get_avg_wealth : M float := fun st =>
  match _avg_wealth (self st) with
  | Some a => (Ok a, st)
  | None => (Raise AttributeError, st)
  end.

Definition set_avg_wealth (a : float) : M unit := fun st =>
  (Ok tt,
   {| heap := heap st;
      random := random st;
      self := {| wealth := wealth (self st);
                 win_percentage := win_percentage (self st);
                 chi := chi (self st);
                 zeta := zeta (self st);
                 kappa := kappa (self st);
                 n := n (self st);
                 _n_people := _n_people (self st);
                 _avg_wealth := Some a |} |}).

Definition lift {A} (r : result A) : M A := fun st => (r, st).

(** [__init__]: validate, store the arguments, seed the global generator.
    [g] is the state the global generator was in before. *)
Definition __init__ (g : gen) (start_wealth : dict)
    (win_percentage chi zeta kappa : float) (n : Z) (seed : Z) : result state :=
  match Wealth._validate_wealth start_wealth with
  | Raise e => Raise e
  | Ok _ =>
      Ok {| heap := [start_wealth];
            random := random_seed seed;
            self := {| wealth := 0;
                       win_percentage := win_percentage;
                       chi := chi;
                       zeta := zeta;
                       kappa := kappa;
                       n := n;
                       _n_people := length (keys start_wealth);
                       _avg_wealth := None |} |}
  end.

Definition _update_average_wealth : M unit :=
  w <- get_wealth ;;
  set_avg_wealth (Np.mean (values w)).

(** The dictionary [_pay_tax] builds, on balances that are numpy
    [float64] scalars, as every balance is once a phase has rebuilt the
    mapping.  (A start mapping that holds plain Python numbers is not
    modelled: for an agent above the average [w - w * self.chi] is then,
    with a Python [chi], a Python number, which has no [round] method.) *)
Definition pay_tax (chi avg : float) (w : dict) : dict :=
  let rich := of_items String.eqb (filter (fun pw => avg <? snd pw) w) in
  let poor := of_items String.eqb (filter (fun pw => snd pw <=? avg) w) in
  let tax := chi * Np.sum (values rich) in
  let tax := Np.floor_divide tax 0.01 / 100 in
  let poor :=
    if (0 <? length (keys poor))%nat then
      let per_person_subsidy := tax / Np.of_nat (length (keys poor)) in
      of_items String.eqb
        (map (fun pw => (fst pw, Np.round (snd pw + per_person_subsidy) 2)) poor)
    else poor in
  let rich :=
    if (0 <? length (keys rich))%nat then
      of_items String.eqb
        (map (fun pw => (fst pw, Np.round (snd pw - snd pw * chi) 2)) rich)
    else rich in
  merge String.eqb rich poor.

Definition _pay_tax : M unit :=
  w <- get_wealth ;;
  avg <- get_avg_wealth ;;
  chi <- attr chi ;;
  set_wealth (pay_tax chi avg w).

Definition loan_S (kappa avg : float) (w : dict) : dict :=
  of_items String.eqb (map (fun pw => (fst pw, Np.round (snd pw + kappa * avg) 2)) w).

Definition _loan_S : M unit :=
  w <- get_wealth ;;
  kappa <- attr kappa ;;
  avg <- get_avg_wealth ;;
  set_wealth (loan_S kappa avg w).

Definition collect_S (kappa avg : float) (w : dict) : dict :=
  of_items String.eqb (map (fun pw => (fst pw, Np.round (snd pw - kappa * avg) 2)) w).

Definition _collect_S : M unit :=
  w <- get_wealth ;;
  kappa <- attr kappa ;;
  avg <- get_avg_wealth ;;
  set_wealth (collect_S kappa avg w).

(** [random.sample(population, k)] on the global generator. *)
Definition random_sample (population : list person) (k : nat) : M (list person) :=
  fun st =>
    if (length population <? k)%nat then (Raise ValueError, st)
    else
      let (l, g) := sample (random st) population k in
      (Ok l, {| heap := heap st; random := g; self := self st |}).

(** [random.choices(population, weights)[0]] on the global generator. *)
Definition random_choices (population : list Z) (weights : list float) : M Z :=
  fun st =>
    let (r, g) := choices (random st) population weights in
    let st' := {| heap := heap st; random := g; self := self st |} in
    match r with
    | Some x => (Ok x, st')
    | None => (Raise ValueError, st')
    end.

(** [np.array(l).reshape(-1, 2)]: the rows. *)
Fixpoint reshape2 {A} (fuel : nat) (l : list A) : result (list (list A)) :=
  match l with
  | [] => Ok []
  | [_] => Raise ValueError
  | a :: b :: l' =>
      match fuel with
      | O => Raise ValueError
      | S f =>
          match reshape2 f l' with
          | Ok rows => Ok ([a; b] :: rows)
          | Raise e => Raise e
          end
      end
  end.

(** [{k: wealth[k] for k in p}]. *)
Fixpoint pair_wealth (w : dict) (p : list person) (acc : dict) : result dict :=
  match p with
  | [] => Ok acc
  | k :: p' =>
      match dget w k with
      | Some v => pair_wealth w p' (dset acc k v)
      | None => Raise KeyError
      end
  end.

Fixpoint pair_wealths (w : dict) (pair_ids : list (list person)) : result (list dict) :=
  match pair_ids with
  | [] => Ok []
  | p :: rest =>
      match pair_wealth w p [] with
      | Raise e => Raise e
      | Ok pw =>
          match pair_wealths w rest with
          | Raise e => Raise e
          | Ok pws => Ok (pw :: pws)
          end
      end
  end.

Definition _pair_people : M (list dict) :=
  w <- get_wealth ;;
  let people := keys w in
  n_people <- attr _n_people ;;
  drawn <- random_sample people n_people ;;
  pair_ids <- lift (reshape2 (length drawn) drawn) ;;
  lift (pair_wealths w pair_ids).

(** The weights of one pair's roll. *)
Definition weights (zeta : float) (p : dict) : result (list float) :=
  match values p with
  | v0 :: v1 :: _ =>
      let wealth_difference := abs (v0 - v1) in
      let bias := zeta * wealth_difference in
      Ok [(0.5 + bias) / (1 + bias); 0.5 / (1 + bias)]
  | _ => Raise IndexError
  end.

Fixpoint _roll_dice (pair_wealths : list dict) : M (list Z) :=
  match pair_wealths with
  | [] => ret []
  | p :: rest =>
      zeta <- attr zeta ;;
      ws <- lift (weights zeta p) ;;
      roll <- random_choices [0%Z; 1%Z] ws ;;
      dice_rolls <- _roll_dice rest ;;
      ret (roll :: dice_rolls)
  end.

(** Python's [min(pair, key=pair.get)] and [max(pair, key=pair.get)]: the
    first key whose value no later value strictly beats. *)
Fixpoint argmin (best : person * float) (d : dict) : person :=
  match d with
  | [] => fst best
  | kv :: d' => argmin (if snd kv <? snd best then kv else best) d'
  end.

Fixpoint argmax (best : person * float) (d : dict) : person :=
  match d with
  | [] => fst best
  | kv :: d' => argmax (if snd best <? snd kv then kv else best) d'
  end.

Fixpoint min_list (best : float) (l : list float) : float :=
  match l with
  | [] => best
  | v :: l' => min_list (if v <? best then v else best) l'
  end.

(** One iteration of the loop of [_exchange_wealth]. *)
Definition exchange_pair (win_percentage : float) (wealth : dict) (pair_ : dict) (roll : Z)
  : result dict :=
  match pair_ with
  | [] => Raise ValueError
  | [_] => Raise IndexError
  | (k0, v0) :: ((k1, v1) :: _) as rest =>
      let exchange_amount := min_list v0 (values rest) * win_percentage in
      let (poor, rich) :=
        if v0 =? v1 then (k0, k1)
        else (argmin (k0, v0) rest, argmax (k0, v0) rest) in
      match dget pair_ poor, dget pair_ rich with
      | Some pair_poor, Some pair_rich =>
          let wealth :=
            dset wealth poor
              (Np.round (pair_poor + Np.of_Z (2 * roll - 1) * exchange_amount) 2) in
          Ok (dset wealth rich
                (Np.round (pair_rich + Np.of_Z (1 - 2 * roll) * exchange_amount) 2))
      | _, _ => Raise KeyError
      end
  end.

Fixpoint exchange_wealth (win_percentage : float) (wealth : dict)
    (wealth_permutation : list dict) (dice_rolls : list Z) : result dict :=
  match wealth_permutation, dice_rolls with
  | pair_ :: pairs, roll :: rolls =>
      match exchange_pair win_percentage wealth pair_ roll with
      | Ok wealth' => exchange_wealth win_percentage wealth' pairs rolls
      | Raise e => Raise e
      end
  | _, _ => Ok wealth
  end.

Definition _exchange_wealth (wealth_permutation : list dict) (dice_rolls : list Z) : M unit :=
  win_percentage <- attr win_percentage ;;
  wealth <- lift (exchange_wealth win_percentage [] wealth_permutation dice_rolls) ;;
  set_wealth wealth.

Definition perform_sale : M unit :=
  _update_average_wealth ;;
  _pay_tax ;;
  _loan_S ;;
  wealth_permutation <- _pair_people ;;
  dice_rolls <- _roll_dice wealth_permutation ;;
  _exchange_wealth wealth_permutation dice_rolls ;;
  _collect_S.

(** The body of the loop of [run_yard_sale] for the rounds [i], [i+1],
    ... ([rounds] of them); [yard_sale] maps a round to the dictionary
    object stored for it. *)
Fixpoint run_loop (rounds : nat) (i : Z) (plot_n : Z) (plot : bool)
    (yard_sale : list (Z * nat)) : M (list (Z * nat)) :=
  match rounds with
  | O => ret yard_sale
  | S rounds' =>
      perform_sale ;;
      (if (plot_n =? 0)%Z then raise ZeroDivisionError else ret tt) ;;
      r <- attr wealth ;;
      let yard_sale :=
        if plot && (i mod plot_n =? 0)%Z then set Z.eqb yard_sale i r else yard_sale in
      run_loop rounds' (i + 1)%Z plot_n plot yard_sale
  end.

(** [run_yard_sale]; the result [None] is Python's [None]. *)
Definition run_yard_sale (plot_n : Z) (plot : bool) : M (option (list (Z * nat))) :=
  n <- attr n ;;
  (if plot && (n <? plot_n)%Z
   then raise (Exception "plot_n needs to be lower than n") else ret tt) ;;
  yard_sale <- run_loop (Z.to_nat n) 1%Z plot_n plot [] ;;
  if plot then ret (Some yard_sale) else ret None.

(** The state after [k] calls of [perform_sale] (the first exception
    stops the calls). *)
Fixpoint rounds (k : nat) (st : state) : result unit * state :=
  match k with
  | O => (Ok tt, st)
  | S k' =>
      match perform_sale st with
      | (Ok _, st') => rounds k' st'
      | r => r
      end
  end.

Definition current_wealth (st : state) : dict := deref (heap st) (wealth (self st)).

(** *** Several engines in one program

    The store and the generator of [random] belong to the program, not
    to an engine.  [construct st ...] is [ExtendedYardSale(...)]
    evaluated in the program state [st], in which other engines may
    exist: the start dictionary is one more object of the store, and
    [random.seed] resets the one generator every engine draws from.
    [call m o] runs the method [m] on the instance [o]; the state it
    returns holds the instance as the method left it. *)
Definition construct (st : state) (start_wealth : dict)
    (win_percentage chi zeta kappa : float) (n : Z) (seed : Z) : result state :=
  match Wealth._validate_wealth start_wealth with
  | Raise e => Raise e
  | Ok _ =>
      Ok {| heap := heap st ++ [start_wealth];
            random := random_seed seed;
            self := {| wealth := length (heap st);
                       win_percentage := win_percentage;
                       chi := chi;
                       zeta := zeta;
                       kappa := kappa;
                       n := n;
                       _n_people := length (keys start_wealth);
                       _avg_wealth := None |} |}
  end.

Definition call {A} (m : M A) (o : obj) : M A :=
  fun st => m {| heap := heap st; random := random st; self := o |}.

End Engine.

Arguments heap {gen} s.
Arguments random {gen} s.
Arguments self {gen} s.
Arguments Build_state {gen} heap random self.
Arguments ret {gen A} a _.
Arguments raise {gen A} e _.
Arguments bind {gen A B} c k _.
Arguments lift {gen A} r _.
Arguments attr {gen A} f _.
Arguments get_wealth {gen} _.
Arguments set_wealth {gen} d _.
Arguments get_avg_wealth {gen} _.
Arguments set_avg_wealth {gen} a _.
Arguments _update_average_wealth {gen} _.
Arguments _pay_tax {gen} _.
Arguments _loan_S {gen} _.
Arguments _collect_S {gen} _.
Arguments _exchange_wealth {gen} wealth_permutation dice_rolls _.
Arguments current_wealth {gen} st.
Arguments call {gen A} m o _.

End ExtendedYardSale.

(** ** A concrete generator

    A linear congruential generator standing for Python's [random]: it
    draws a rotation of the population for [sample] and one element of
    the population for [choices], which (like CPython's) refuses weights
    whose total is not a positive finite number. *)

Module Lcg.

Definition gen := Z.

Definition next (g : gen) : gen := ((g * 1103515245 + 12345) mod 2147483648)%Z.

Definition random_seed (seed : Z) : gen := next (Z.abs seed).

Definition sample (g : gen) (population : list person) (k : nat) : list person * gen :=
  let r := Z.to_nat (g mod Z.of_nat (length population)) in
  (firstn k (skipn r population ++ firstn r population), next g).

Definition choices (g : gen) (population : list Z) (weights : list float) : option Z * gen :=
  let total := fold_left PrimFloat.add weights 0 in
  if forallb (fun w => negb (Np.is_nan w)) weights && (0 <? total) && (total <? infinity)
  then (nth_error population (Z.to_nat ((g / 65536) mod Z.of_nat (length population))), next g)
  else (None, g).

End Lcg.

(** * Properties *)

(** ** Facts of binary64 arithmetic *)

Module FloatFacts.

Lemma SFcompare_antisym x y :
  SFcompare y x = match SFcompare x y with Some c => Some (CompOpp c) | None => None end.
Proof.
  destruct x as [sx|sx| |sx mx ex], y as [sy|sy| |sy my ey]; simpl; try reflexivity;
    try (destruct sx; reflexivity); try (destruct sy; reflexivity);
    try (destruct sx, sy; reflexivity).
  change (Pos.compare_cont Eq my mx) with (Pos.compare my mx).
  change (Pos.compare_cont Eq mx my) with (Pos.compare mx my).
  rewrite (Z.compare_antisym ex ey), (Pos.compare_antisym mx my).
  destruct sx, sy; simpl; try reflexivity;
    destruct (ex ?= ey)%Z; simpl; try reflexivity;
    destruct (mx ?= my)%positive; reflexivity.
Qed.

Lemma SFcompare_refl x : x <> S754_nan -> SFcompare x x = Some Eq.
Proof.
  destruct x as [s|s| |s m e]; simpl; intros H; try congruence;
    try (destruct s; reflexivity).
  rewrite Z.compare_refl.
  change (Pos.compare_cont Eq m m) with (Pos.compare m m).
  rewrite Pos.compare_refl. destruct s; reflexivity.
Qed.

Lemma SFcompare_nan_l y : SFcompare S754_nan y = None.
Proof. reflexivity. Qed.

Lemma SFcompare_nan_r x : SFcompare x S754_nan = None.
Proof. destruct x; reflexivity. Qed.

Lemma SFcompare_some x y :
  x <> S754_nan -> y <> S754_nan -> exists c, SFcompare x y = Some c.
Proof.
  destruct x, y; simpl; intros; try congruence; eauto.
Qed.

Lemma is_nan_spec x : Np.is_nan x = true <-> Prim2SF x = S754_nan.
Proof.
  unfold Np.is_nan. rewrite eqb_spec. unfold SFeqb. split.
  - intros H. destruct (Prim2SF x) eqn:E; try reflexivity;
      rewrite SFcompare_refl in H by congruence; discriminate.
  - intros ->. reflexivity.
Qed.

Lemma is_nan_false x : Np.is_nan x = false <-> Prim2SF x <> S754_nan.
Proof.
  rewrite <- is_nan_spec. destruct (Np.is_nan x); split; congruence.
Qed.

Lemma ltb_asym x y : (x <? y) = true -> (y <? x) = false.
Proof.
  rewrite !ltb_spec. unfold SFltb. rewrite (SFcompare_antisym (Prim2SF x) (Prim2SF y)).
  destruct (SFcompare (Prim2SF x) (Prim2SF y)) as [[]|]; simpl; congruence.
Qed.

Lemma ltb_not_eqb x y : (x <? y) = true -> (x =? y) = false.
Proof.
  rewrite ltb_spec, eqb_spec. unfold SFltb, SFeqb.
  destruct (SFcompare (Prim2SF x) (Prim2SF y)) as [[]|]; simpl; congruence.
Qed.

Lemma eqb_sym x y : (x =? y) = (y =? x).
Proof.
  rewrite !eqb_spec. unfold SFeqb. rewrite (SFcompare_antisym (Prim2SF x) (Prim2SF y)).
  destruct (SFcompare (Prim2SF x) (Prim2SF y)) as [[]|]; reflexivity.
Qed.

Lemma ltb_not_leb x y : (x <? y) = true -> (y <=? x) = false.
Proof.
  rewrite ltb_spec, leb_spec. unfold SFltb, SFleb.
  rewrite (SFcompare_antisym (Prim2SF x) (Prim2SF y)).
  destruct (SFcompare (Prim2SF x) (Prim2SF y)) as [[]|]; simpl; congruence.
Qed.

Lemma leb_not_ltb x y : (x <=? y) = true -> (y <? x) = false.
Proof.
  rewrite ltb_spec, leb_spec. unfold SFltb, SFleb.
  rewrite (SFcompare_antisym (Prim2SF x) (Prim2SF y)).
  destruct (SFcompare (Prim2SF x) (Prim2SF y)) as [[]|]; simpl; congruence.
Qed.

(** Two numbers are ordered or equal. *)
Lemma trichotomy x y :
  Np.is_nan x = false -> Np.is_nan y = false ->
  (x <? y) = true \/ (x =? y) = true \/ (y <? x) = true.
Proof.
  rewrite !is_nan_false. intros Hx Hy.
  rewrite !ltb_spec, eqb_spec. unfold SFltb, SFeqb.
  rewrite (SFcompare_antisym (Prim2SF x) (Prim2SF y)).
  destruct (SFcompare_some _ _ Hx Hy) as [c ->]. destruct c; simpl; auto.
Qed.

(** A number is above or not above another number. *)
Lemma ltb_or_leb x y :
  Np.is_nan x = false -> Np.is_nan y = false ->
  (x <? y) = true \/ (y <=? x) = true.
Proof.
  rewrite !is_nan_false. intros Hx Hy.
  rewrite !ltb_spec, leb_spec. unfold SFltb, SFleb.
  rewrite (SFcompare_antisym (Prim2SF x) (Prim2SF y)).
  destruct (SFcompare_some _ _ Hx Hy) as [c ->]. destruct c; simpl; auto.
Qed.

Lemma ltb_nan_l x y : Np.is_nan x = true -> (x <? y) = false.
Proof. rewrite is_nan_spec, ltb_spec. intros ->. reflexivity. Qed.

Lemma ltb_nan_r x y : Np.is_nan y = true -> (x <? y) = false.
Proof.
  rewrite is_nan_spec, ltb_spec. intros ->. unfold SFltb.
  now rewrite SFcompare_nan_r.
Qed.

Lemma leb_nan_l x y : Np.is_nan x = true -> (x <=? y) = false.
Proof. rewrite is_nan_spec, leb_spec. intros ->. reflexivity. Qed.

Lemma leb_nan_r x y : Np.is_nan y = true -> (x <=? y) = false.
Proof.
  rewrite is_nan_spec, leb_spec. intros ->. unfold SFleb.
  now rewrite SFcompare_nan_r.
Qed.

(** NaN is contagious. *)
Lemma sub_nan x y : Np.is_nan x = true \/ Np.is_nan y = true -> Np.is_nan (x - y) = true.
Proof.
  rewrite !is_nan_spec, sub_spec. intros [-> | ->]; [reflexivity|].
  destruct (Prim2SF x); reflexivity.
Qed.

Lemma add_nan x y : Np.is_nan x = true \/ Np.is_nan y = true -> Np.is_nan (x + y) = true.
Proof.
  rewrite !is_nan_spec, add_spec. intros [-> | ->]; [reflexivity|].
  destruct (Prim2SF x); reflexivity.
Qed.

Lemma mul_nan x y : Np.is_nan x = true \/ Np.is_nan y = true -> Np.is_nan (x * y) = true.
Proof.
  rewrite !is_nan_spec, mul_spec. intros [-> | ->]; [reflexivity|].
  destruct (Prim2SF x); reflexivity.
Qed.

Lemma div_nan x y : Np.is_nan x = true \/ Np.is_nan y = true -> Np.is_nan (x / y) = true.
Proof.
  rewrite !is_nan_spec, div_spec. intros [-> | ->]; [reflexivity|].
  destruct (Prim2SF x); reflexivity.
Qed.

Lemma abs_nan x : Np.is_nan x = true -> Np.is_nan (abs x) = true.
Proof. rewrite !is_nan_spec, abs_spec. intros ->. reflexivity. Qed.

(** Adding the opposite is subtracting. *)
Lemma SFadd_opp x y : SF64add x (SFopp y) = SF64sub x y.
Proof.
  destruct x as [sx|sx| |sx mx ex], y as [sy|sy| |sy my ey]; simpl; try reflexivity;
    try (destruct sx, sy; reflexivity).
Qed.

Lemma binary_round_aux_opp s m e l :
  binary_round_aux prec emax (negb s) m e l = SFopp (binary_round_aux prec emax s m e l).
Proof.
  unfold binary_round_aux.
  destruct (shr_fexp prec emax m e l) as [mrs' e'].
  destruct (shr_fexp prec emax _ e' loc_Exact) as [mrs'' e''].
  destruct (shr_m mrs''); try reflexivity.
  destruct (e'' <=? emax - prec)%Z; reflexivity.
Qed.

Lemma SFmul_opp x y : SF64mul (SFopp x) y = SFopp (SF64mul x y).
Proof.
  destruct x as [sx|sx| |sx mx ex], y as [sy|sy| |sy my ey]; simpl; try reflexivity;
    try (destruct sx, sy; reflexivity).
  unfold SF64mul, SFmul.
  replace (xorb (negb sx) sy) with (negb (xorb sx sy)) by (destruct sx, sy; reflexivity).
  apply binary_round_aux_opp.
Qed.

Lemma add_opp_mul x c a : x + (- c) * a = x - c * a.
Proof.
  apply Prim2SF_inj.
  rewrite add_spec, sub_spec, !mul_spec, opp_spec, SFmul_opp. apply SFadd_opp.
Qed.

End FloatFacts.

(** ** Facts of dictionaries *)

Section DictFacts.
Context {K V : Type}.
Variable eqb : K -> K -> bool.
Hypothesis eqb_eq : forall a b, eqb a b = true <-> a = b.

Lemma eqb_refl a : eqb a a = true.
Proof. now apply eqb_eq. Qed.

Lemma eqb_neq a b : a <> b -> eqb a b = false.
Proof.
  intros H. destruct (eqb a b) eqn:E; [|reflexivity].
  apply eqb_eq in E. contradiction.
Qed.

Lemma set_fresh (d : list (K * V)) k v :
  ~ In k (map fst d) -> set eqb d k v = d ++ [(k, v)].
Proof.
  induction d as [|[k' v'] d IH]; simpl; intros H; [reflexivity|].
  rewrite eqb_neq by (intros ->; apply H; now left).
  rewrite IH; [reflexivity|]. intros Hin. apply H. now right.
Qed.

Lemma fold_set_fresh (items acc : list (K * V)) :
  NoDup (map fst (acc ++ items)) ->
  fold_left (fun d kv => set eqb d (fst kv) (snd kv)) items acc = acc ++ items.
Proof.
  revert acc. induction items as [|[k v] items IH]; intros acc H; simpl.
  - now rewrite app_nil_r.
  - rewrite set_fresh.
    + rewrite IH; rewrite <- app_assoc; [reflexivity|exact H].
    + rewrite map_app in H. apply NoDup_remove_2 in H.
      intros Hin. apply H. apply in_or_app. now left.
Qed.

Lemma of_items_nodup (items : list (K * V)) :
  NoDup (map fst items) -> of_items eqb items = items.
Proof. intros H. unfold of_items. now rewrite fold_set_fresh. Qed.

Lemma merge_disjoint (d1 d2 : list (K * V)) :
  NoDup (map fst (d1 ++ d2)) -> merge eqb d1 d2 = d1 ++ d2.
Proof.
  intros H. unfold merge. rewrite of_items_nodup.
  - now apply fold_set_fresh.
  - rewrite map_app in H. now apply NoDup_app_remove_r in H.
Qed.

Lemma get_app_fresh (d1 d2 : list (K * V)) k :
  ~ In k (map fst d1) -> get eqb (d1 ++ d2) k = get eqb d2 k.
Proof.
  induction d1 as [|[k' v'] d1 IH]; simpl; intros H; [reflexivity|].
  rewrite eqb_neq by (intros ->; apply H; now left).
  apply IH. intros Hin. apply H. now right.
Qed.

Lemma get_set_same (d : list (K * V)) k v : get eqb (set eqb d k v) k = Some v.
Proof.
  induction d as [|[k' v'] d IH]; simpl.
  - now rewrite eqb_refl.
  - destruct (eqb k k') eqn:E; simpl; rewrite E; [reflexivity|exact IH].
Qed.

Lemma get_set_other (d : list (K * V)) k k' v :
  k <> k' -> get eqb (set eqb d k v) k' = get eqb d k'.
Proof.
  intros Hne. induction d as [|[k0 v0] d IH]; simpl.
  - rewrite eqb_neq by congruence. reflexivity.
  - destruct (eqb k k0) eqn:E; simpl.
    + apply eqb_eq in E. subst k0. rewrite eqb_neq by congruence. reflexivity.
    + destruct (eqb k' k0); [reflexivity|exact IH].
Qed.

Lemma get_in (d : list (K * V)) k v :
  NoDup (map fst d) -> In (k, v) d -> get eqb d k = Some v.
Proof.
  induction d as [|[k' v'] d IH]; simpl; intros Hnd Hin; [contradiction|].
  inversion Hnd as [|? ? Hnotin Hnd']; subst.
  destruct Hin as [Heq|Hin].
  - inversion Heq; subst. now rewrite eqb_refl.
  - rewrite eqb_neq; [now apply IH|].
    intros ->. apply Hnotin. now apply (in_map fst) in Hin.
Qed.

Lemma keys_set (d : list (K * V)) k v :
  map fst (set eqb d k v) = if existsb (eqb k) (map fst d) then map fst d else map fst d ++ [k].
Proof.
  induction d as [|[k' v'] d IH]; simpl; [reflexivity|].
  destruct (eqb k k') eqn:E; simpl; [reflexivity|].
  rewrite IH. destruct (existsb (eqb k) (map fst d)); reflexivity.
Qed.

End DictFacts.

(** ** Rounding to nearest even, as [SpecFloat] computes it

    [binary_round_aux] rounds a located mantissa by shifting it right with a
    round and a sticky bit.  This part gives it a closed form on fractions
    [num / den * 2 ^ e] and proves from it that the rounding is monotone. *)
Module Rounding.

Local Open Scope Z_scope.

Local Abbreviation fexp := (SpecFloat.fexp prec emax).
Local Abbreviation emin := (-1074).

Lemma fexp_eq e : fexp e = Z.max (e - 53) emin.
Proof. reflexivity. Qed.

Lemma fexp_mono a b : a <= b -> fexp a <= fexp b.
Proof. rewrite !fexp_eq. lia. Qed.

Lemma digits2_pos_size p : digits2_pos p = Pos.size p.
Proof. induction p; simpl; congruence. Qed.

Lemma Zdigits2_bounds x :
  0 < x -> 2 ^ (Zdigits2 x - 1) <= x < 2 ^ Zdigits2 x.
Proof.
  destruct x as [|p|p]; try lia. intros _. simpl Zdigits2.
  rewrite digits2_pos_size.
  pose proof (Pos.size_gt p) as Hgt. pose proof (Pos.size_le p) as Hle.
  assert (Hp : forall q, Z.pos (2 ^ q) = 2 ^ Z.pos q).
  { intros q. rewrite Pos2Z.inj_pow. reflexivity. }
  split.
  - assert (2 ^ Z.pos (Pos.size p) <= 2 * Z.pos p) by (rewrite <- Hp; lia).
    replace (Z.pos (Pos.size p)) with (Z.succ (Z.pos (Pos.size p) - 1)) in H by lia.
    rewrite Z.pow_succ_r in H by lia. lia.
  - rewrite <- Hp. lia.
Qed.

Lemma Zdigits2_nonneg x : 0 <= Zdigits2 x.
Proof. destruct x; simpl; lia. Qed.

Lemma Zdigits2_pos x : 0 < x -> 0 < Zdigits2 x.
Proof. destruct x; simpl; lia. Qed.

Lemma pow2_lt_inv a b : 0 <= b -> 2 ^ a < 2 ^ b -> a < b.
Proof.
  intros Hb H. destruct (Z_lt_le_dec a b) as [|Hle]; [assumption|].
  apply (Z.pow_le_mono_r 2) in Hle; lia.
Qed.

Lemma Zdigits2_unique x d :
  0 < x -> 2 ^ (d - 1) <= x < 2 ^ d -> Zdigits2 x = d.
Proof.
  intros Hx [Hlo Hhi]. pose proof (Zdigits2_bounds x Hx) as [Blo Bhi].
  pose proof (Zdigits2_pos x Hx) as Hd.
  assert (0 < d).
  { destruct (Z_lt_le_dec 0 d); [assumption|].
    rewrite Z.pow_neg_r in Hlo by lia.
    destruct (Z.eq_dec d 0) as [->|]; [simpl in Hhi; lia|].
    rewrite Z.pow_neg_r in Hhi by lia. lia. }
  assert (Zdigits2 x - 1 < d) by (apply pow2_lt_inv; lia).
  assert (d - 1 < Zdigits2 x) by (apply pow2_lt_inv; lia).
  lia.
Qed.

Lemma Zdigits2_mono x y : 0 <= x <= y -> Zdigits2 x <= Zdigits2 y.
Proof.
  intros [Hx Hxy]. destruct (Z.eq_dec x 0) as [->|Hn].
  - apply Zdigits2_nonneg.
  - pose proof (Zdigits2_bounds x ltac:(lia)) as [Blo _].
    pose proof (Zdigits2_bounds y ltac:(lia)) as [_ Bhi].
    assert (Zdigits2 x - 1 < Zdigits2 y); [|lia].
    apply pow2_lt_inv; [apply Zdigits2_nonneg | lia].
Qed.

Lemma Zdigits2_lt_pow x d : 0 <= d -> 0 <= x < 2 ^ d -> Zdigits2 x <= d.
Proof.
  intros Hd [Hx Hlt]. destruct (Z.eq_dec x 0) as [->|Hn]; [simpl; lia|].
  pose proof (Zdigits2_bounds x ltac:(lia)) as [Blo _].
  assert (Zdigits2 x - 1 < d); [|lia].
  apply pow2_lt_inv; lia.
Qed.

Lemma Zdigits2_ge_pow x d : 0 <= d -> 2 ^ d <= x -> d < Zdigits2 x.
Proof.
  intros Hd Hle. assert (0 < x) by (pose proof (Z.pow_pos_nonneg 2 d); lia).
  pose proof (Zdigits2_bounds x H) as [_ Bhi].
  apply pow2_lt_inv; [apply Zdigits2_nonneg | lia].
Qed.

(** *** Locations of a fraction *)

(** Where [num / den] lies between its floor and the next integer. *)
Definition loc_of (num den : Z) : location :=
  if num mod den =? 0 then loc_Exact
  else loc_Inexact (2 * (num mod den) ?= den).

(** The integer nearest to [num / den], ties to even. *)
Definition rne (num den : Z) : Z :=
  round_nearest_even (num / den) (loc_of num den).

Lemma shr_1_nonneg m r s :
  0 <= m ->
  shr_1 {| shr_m := m; shr_r := r; shr_s := s |} =
  {| shr_m := Z.div2 m; shr_r := Z.odd m; shr_s := r || s |}.
Proof. destruct m as [|[p|p|]|p]; try lia; reflexivity. Qed.

Lemma loc_record m l :
  loc_of_shr_record (shr_record_of_loc m l) = l.
Proof. destruct l as [|[]]; reflexivity. Qed.

Lemma shr_m_record m l : shr_m (shr_record_of_loc m l) = m.
Proof. destruct l as [|[]]; reflexivity. Qed.

Lemma record_bits m l :
  shr_record_of_loc m l =
  {| shr_m := m;
     shr_r := match l with loc_Inexact (Eq | Gt) => true | _ => false end;
     shr_s := match l with loc_Inexact (Lt | Gt) => true | _ => false end |}.
Proof. destruct l as [|[]]; reflexivity. Qed.

Lemma div_mod_double num den :
  0 <= num -> 0 < den ->
  num / (2 * den) = Z.div2 (num / den) /\
  num mod (2 * den) = (if Z.odd (num / den) then den else 0) + num mod den.
Proof.
  intros Hn Hd.
  pose proof (Z.div_mod num den ltac:(lia)) as E.
  pose proof (Z.mod_pos_bound num den Hd) as B.
  set (m := num / den) in *. set (r := num mod den) in *.
  pose proof (Zdiv2_odd_eqn m) as Em.
  assert (Hq : num = (2 * den) * Z.div2 m + ((if Z.odd m then den else 0) + r)).
  { destruct (Z.odd m); nia. }
  assert (Hr : 0 <= (if Z.odd m then den else 0) + r < 2 * den).
  { destruct (Z.odd m); lia. }
  split.
  - symmetry. exact (Z.div_unique_pos _ _ _ _ Hr Hq).
  - symmetry. exact (Z.mod_unique_pos _ _ _ _ Hr Hq).
Qed.

(** One right shift of the record of [num / den] is the record of
    [num / (2 * den)]. *)
Lemma shr_1_loc num den :
  0 <= num -> 0 < den ->
  shr_1 (shr_record_of_loc (num / den) (loc_of num den)) =
  shr_record_of_loc (num / (2 * den)) (loc_of num (2 * den)).
Proof.
  intros Hn Hd.
  destruct (div_mod_double num den Hn Hd) as [Edv Er].
  pose proof (Z.mod_pos_bound num den Hd) as B.
  assert (0 <= num / den) by (apply Z.div_pos; lia).
  rewrite (record_bits (num / den)), shr_1_nonneg by assumption.
  rewrite (record_bits (num / (2 * den))), Edv.
  unfold loc_of. rewrite Er.
  set (r := num mod den) in *.
  destruct (Z.odd (num / den)).
  - destruct (Z.eqb_spec (den + r) 0) as [|_]; [lia|].
    destruct (Z.eqb_spec r 0) as [E0|N0].
    + rewrite E0.
      replace (2 * (den + 0) ?= 2 * den) with Eq
        by (symmetry; apply Z.compare_eq_iff; lia).
      reflexivity.
    + replace (2 * (den + r) ?= 2 * den) with Gt
        by (symmetry; apply Z.compare_gt_iff; lia).
      destruct (2 * r ?= den); reflexivity.
  - simpl (0 + r).
    destruct (Z.eqb_spec r 0) as [E0|N0]; [reflexivity|].
    replace (2 * r ?= 2 * den) with Lt
      by (symmetry; apply Z.compare_lt_iff; lia).
    destruct (2 * r ?= den); reflexivity.
Qed.

Lemma shr_iter_loc p : forall num den,
  0 <= num -> 0 < den ->
  iter_pos shr_1 p (shr_record_of_loc (num / den) (loc_of num den)) =
  shr_record_of_loc (num / (den * 2 ^ Z.pos p)) (loc_of num (den * 2 ^ Z.pos p)).
Proof.
  induction p as [p IH|p IH|]; intros num den Hn Hd; cbn [iter_pos].
  - rewrite shr_1_loc by assumption.
    assert (0 < 2 ^ Z.pos p) by (apply Z.pow_pos_nonneg; lia).
    rewrite IH by lia. rewrite IH by nia.
    replace (2 * den * 2 ^ Z.pos p * 2 ^ Z.pos p) with (den * 2 ^ Z.pos p~1);
      [reflexivity|].
    rewrite (Pos2Z.inj_xI p), Z.pow_add_r, Z.pow_twice_r, Z.pow_1_r by lia. ring.
  - assert (0 < 2 ^ Z.pos p) by (apply Z.pow_pos_nonneg; lia).
    rewrite IH by lia. rewrite IH by nia.
    replace (den * 2 ^ Z.pos p * 2 ^ Z.pos p) with (den * 2 ^ Z.pos p~0);
      [reflexivity|].
    rewrite (Pos2Z.inj_xO p), Z.pow_twice_r by lia. ring.
  - rewrite shr_1_loc by assumption.
    replace (den * 2 ^ 1) with (2 * den) by (rewrite Z.pow_1_r; ring).
    reflexivity.
Qed.

Lemma shr_loc num den e n :
  0 <= num -> 0 < den -> 0 <= n ->
  shr (shr_record_of_loc (num / den) (loc_of num den)) e n =
  (shr_record_of_loc (num / (den * 2 ^ n)) (loc_of num (den * 2 ^ n)), e + n).
Proof.
  intros Hn Hd Hk. destruct n as [|p|p]; try lia.
  - simpl. rewrite Z.mul_1_r, Z.add_0_r. reflexivity.
  - unfold shr. rewrite shr_iter_loc by assumption. reflexivity.
Qed.

(** *** The closed form *)

Definition target (num den e : Z) : Z := fexp (Zdigits2 (num / den) + e).

(** The mantissa is not shorter than its format allows: [SFadd], [SFdiv]
    and the conversions call [binary_round_aux] so. *)
Definition good (num den e : Z) : Prop := e <= target num den e.

Definition norm (s : bool) (q t : Z) : spec_float :=
  if q =? 0 then S754_zero s
  else if 2 ^ 53 <=? q then
    if t + 1 <=? 971 then S754_finite s (Z.to_pos (2 ^ 52)) (t + 1)
    else S754_infinity s
  else if t <=? 971 then S754_finite s (Z.to_pos q) t else S754_infinity s.

Definition closed (s : bool) (num den e : Z) : spec_float :=
  let t := target num den e in norm s (rne num (den * 2 ^ (t - e))) t.

Definition rnd (s : bool) (num den e : Z) : spec_float :=
  binary_round_aux prec emax s (num / den) e (loc_of num den).

Lemma rne_bounds num den :
  0 < den -> num / den <= rne num den <= num / den + 1.
Proof.
  intros Hd. unfold rne, loc_of, round_nearest_even.
  destruct (num mod den =? 0); [lia|].
  destruct (2 * (num mod den) ?= den); try lia.
  destruct (Z.even (num / den)); lia.
Qed.

Lemma Zdigits2_lt x : 0 <= x -> x < 2 ^ Zdigits2 x.
Proof.
  intros Hx. destruct (Z.eq_dec x 0) as [->|]; [reflexivity|].
  apply Zdigits2_bounds. lia.
Qed.

Lemma stage2 s q t :
  0 <= q <= 2 ^ 53 -> emin <= t -> t = emin \/ 2 ^ 52 <= q ->
  (let '(mrs, e) := shr_fexp prec emax q t loc_Exact in
   match shr_m mrs with
   | Z0 => S754_zero s
   | Zpos m => if e <=? emax - prec then S754_finite s m e else S754_infinity s
   | Zneg _ => S754_nan
   end) = norm s q t.
Proof.
  intros [Hq0 Hq] Ht Hc. unfold norm, shr_fexp.
  destruct (Z.leb_spec (2 ^ 53) q) as [Hbig|Hsmall].
  - assert (q = 2 ^ 53) as -> by lia.
    replace (fexp (Zdigits2 (2 ^ 53) + t) - t) with 1
      by (rewrite fexp_eq; change (Zdigits2 (2 ^ 53)) with 54; lia).
    reflexivity.
  - replace (fexp (Zdigits2 q + t) - t) with 0.
    + cbn [shr shr_record_of_loc shr_m].
      destruct q as [|p|p]; [reflexivity| |lia].
      rewrite Pos2Z.id. reflexivity.
    + rewrite fexp_eq. destruct Hc as [->|Hc].
      * assert (Zdigits2 q <= 53) by (apply Zdigits2_lt_pow; lia). lia.
      * assert (Zdigits2 q = 53) by (apply Zdigits2_unique; [|change (53 - 1) with 52]; lia).
        lia.
Qed.

Lemma closed_facts num den e :
  0 <= num -> 0 < den -> good num den e ->
  let t := target num den e in
  let q := rne num (den * 2 ^ (t - e)) in
  0 <= q <= 2 ^ 53 /\ emin <= t /\ (t = emin \/ 2 ^ 52 <= q).
Proof.
  intros Hn Hd Hg. unfold good in Hg. cbv zeta.
  set (t := target num den e) in *.
  assert (Hm : 0 <= num / den) by (apply Z.div_pos; lia).
  pose proof (Zdigits2_lt _ Hm) as Hlt.
  pose proof (Zdigits2_nonneg (num / den)) as Hd0.
  assert (Ht : t = Z.max (Zdigits2 (num / den) + e - 53) emin) by reflexivity.
  set (d := Zdigits2 (num / den)) in *.
  assert (Hp : 0 < 2 ^ (t - e)) by (apply Z.pow_pos_nonneg; lia).
  pose proof (rne_bounds num (den * 2 ^ (t - e)) ltac:(nia)) as Hb.
  assert (Eq2 : num / (den * 2 ^ (t - e)) = num / den / 2 ^ (t - e)).
  { rewrite Z.div_div; lia. }
  rewrite Eq2 in Hb.
  assert (Hq0 : 0 <= num / den / 2 ^ (t - e)) by (apply Z.div_pos; lia).
  split; [|split].
  - split; [lia|].
    assert (num / den / 2 ^ (t - e) < 2 ^ 53); [|lia].
    apply Z.div_lt_upper_bound; [lia|].
    rewrite <- Z.pow_add_r by lia.
    apply Z.lt_le_trans with (1 := Hlt).
    apply Z.pow_le_mono_r; lia.
  - lia.
  - destruct (Z_le_gt_dec emin (d + e - 53)) as [Hnorm|Hsub]; [right|left; lia].
    assert (t - e = d - 53) as Et by lia. rewrite Et in *.
    assert (0 < num / den).
    { destruct (Z.eq_dec (num / den) 0) as [E0|]; [|lia].
      unfold d in Et. rewrite E0 in Et. simpl in Et. lia. }
    pose proof (Zdigits2_bounds _ H) as [Blo _]. fold d in Blo.
    assert (2 ^ 52 <= num / den / 2 ^ (d - 53)); [|lia].
    apply Z.div_le_lower_bound; [lia|].
    rewrite <- Z.pow_add_r by lia.
    replace (d - 53 + 52) with (d - 1) by lia. assumption.
Qed.

(** [binary_round_aux] on the located floor of [num / den] is the closed
    form. *)
Theorem rnd_closed s num den e :
  0 <= num -> 0 < den -> good num den e ->
  rnd s num den e = closed s num den e.
Proof.
  intros Hn Hd Hg. pose proof (closed_facts num den e Hn Hd Hg) as F.
  unfold rnd, closed, binary_round_aux, good in *. cbv zeta in F.
  set (t := target num den e) in *.
  unfold shr_fexp at 1.
  change (fexp (Zdigits2 (num / den) + e)) with t.
  rewrite shr_loc by lia.
  replace (e + (t - e)) with t by lia.
  rewrite shr_m_record, loc_record.
  change (round_nearest_even _ _) with (rne num (den * 2 ^ (t - e))).
  apply stage2; apply F.
Qed.

(** *** Monotonicity *)

Lemma rne_mono a b den :
  0 < den -> a <= b -> rne a den <= rne b den.
Proof.
  intros Hd Hab.
  pose proof (Z.div_le_mono a b den Hd Hab) as Hq.
  destruct (Z.eq_dec (a / den) (b / den)) as [E|N].
  - pose proof (Z.div_mod a den ltac:(lia)) as Ea.
    pose proof (Z.div_mod b den ltac:(lia)) as Eb.
    pose proof (Z.mod_pos_bound a den Hd) as Ba.
    pose proof (Z.mod_pos_bound b den Hd) as Bb.
    assert (Hr : a mod den <= b mod den) by (rewrite E in Ea; nia).
    unfold rne, loc_of, round_nearest_even. rewrite E.
    destruct (Z.eqb_spec (a mod den) 0), (Z.eqb_spec (b mod den) 0);
      destruct (Z.compare_spec (2 * (a mod den)) den);
      destruct (Z.compare_spec (2 * (b mod den)) den);
      destruct (Z.even (b / den)); lia.
  - pose proof (rne_bounds a den Hd). pose proof (rne_bounds b den Hd). lia.
Qed.

Lemma rne_scale k num den :
  0 < k -> 0 < den -> rne (k * num) (k * den) = rne num den.
Proof.
  intros Hk Hd. unfold rne, loc_of.
  rewrite Z.div_mul_cancel_l, Z.mul_mod_distr_l by lia.
  replace (k * (num mod den) =? 0) with (num mod den =? 0).
  2:{ destruct (Z.eqb_spec (num mod den) 0), (Z.eqb_spec (k * (num mod den)) 0);
        try reflexivity; nia. }
  replace (2 * (k * (num mod den)) ?= k * den) with (2 * (num mod den) ?= den).
  2:{ destruct (Z.compare_spec (2 * (num mod den)) den);
        symmetry; [apply Z.compare_eq_iff|apply Z.compare_lt_iff|apply Z.compare_gt_iff];
        nia. }
  reflexivity.
Qed.

Lemma closed_scale s k num den e :
  0 < k -> 0 < den -> good num den e ->
  closed s (k * num) (k * den) e = closed s num den e /\
  good (k * num) (k * den) e.
Proof.
  intros Hk Hd Hg. unfold closed, good, target in *.
  rewrite Z.div_mul_cancel_l by lia. split; [|assumption].
  rewrite <- Z.mul_assoc, rne_scale; [reflexivity|assumption|].
  apply Z.mul_pos_pos; [assumption|]. apply Z.pow_pos_nonneg; lia.
Qed.

Lemma target_refine num den e j :
  0 <= num -> 0 < den -> 0 <= j -> good num den e ->
  target (num * 2 ^ j) den (e - j) = target num den e.
Proof.
  intros Hn Hd Hj Hg. unfold good, target in *.
  assert (Hp : 0 < 2 ^ j) by (apply Z.pow_pos_nonneg; lia).
  assert (Hm : 0 <= num / den) by (apply Z.div_pos; lia).
  pose proof (Z.div_mod num den ltac:(lia)) as Ea.
  pose proof (Z.mod_pos_bound num den Hd) as Ba.
  destruct (Z.eq_dec (num / den) 0) as [E0|N0].
  - rewrite E0 in *. simpl Zdigits2 in *. rewrite !fexp_eq in *.
    assert (0 <= num * 2 ^ j / den < 2 ^ j).
    { split; [apply Z.div_pos; nia|]. apply Z.div_lt_upper_bound; nia. }
    pose proof (Zdigits2_lt_pow _ j Hj H).
    pose proof (Zdigits2_nonneg (num * 2 ^ j / den)). lia.
  - pose proof (Zdigits2_bounds (num / den) ltac:(lia)) as [Blo Bhi].
    pose proof (Zdigits2_pos (num / den) ltac:(lia)) as Hdp.
    set (d := Zdigits2 (num / den)) in *.
    assert (Zdigits2 (num * 2 ^ j / den) = d + j) as ->.
    { assert (2 ^ (d + j - 1) <= num * 2 ^ j / den < 2 ^ (d + j)).
      { replace (d + j - 1) with (d - 1 + j) by lia.
        rewrite !Z.pow_add_r by lia.
        assert (den * 2 ^ (d - 1) <= num) by nia.
        assert (num < den * 2 ^ d) by nia.
        split.
        - apply Z.div_le_lower_bound; [lia|]. nia.
        - apply Z.div_lt_upper_bound; [lia|]. nia. }
      apply Zdigits2_unique; [|assumption].
      assert (0 < 2 ^ (d + j - 1)) by (apply Z.pow_pos_nonneg; lia). lia. }
    f_equal. lia.
Qed.

Lemma closed_refine s num den e j :
  0 <= num -> 0 < den -> 0 <= j -> good num den e ->
  closed s (num * 2 ^ j) den (e - j) = closed s num den e /\
  good (num * 2 ^ j) den (e - j).
Proof.
  intros Hn Hd Hj Hg.
  pose proof (target_refine num den e j Hn Hd Hj Hg) as Et.
  unfold closed, good in *. rewrite Et. split; [|lia].
  set (t := target num den e) in *.
  replace (t - (e - j)) with (j + (t - e)) by lia.
  rewrite Z.pow_add_r by lia.
  replace (num * 2 ^ j) with (2 ^ j * num) by ring.
  replace (den * (2 ^ j * 2 ^ (t - e))) with (2 ^ j * (den * 2 ^ (t - e))) by ring.
  rewrite rne_scale; [reflexivity| |].
  - apply Z.pow_pos_nonneg; lia.
  - apply Z.mul_pos_pos; [assumption|]. apply Z.pow_pos_nonneg; lia.
Qed.

Lemma SFleb_finite m1 e1 m2 e2 :
  SFleb (S754_finite false m1 e1) (S754_finite false m2 e2) =
  (e1 <? e2) || ((e1 =? e2) && (Z.pos m1 <=? Z.pos m2)).
Proof.
  unfold SFleb, SFcompare.
  change (Pos.compare_cont Eq m1 m2) with (Z.pos m1 ?= Z.pos m2).
  destruct (Z.compare_spec e1 e2); destruct (Z.ltb_spec e1 e2);
    destruct (Z.eqb_spec e1 e2); try lia; reflexivity.
Qed.

Lemma norm_le q1 t1 q2 t2 :
  0 <= q1 <= 2 ^ 53 -> 0 <= q2 <= 2 ^ 53 ->
  t2 = emin \/ 2 ^ 52 <= q2 -> emin <= t1 ->
  (t1 = t2 /\ q1 <= q2) \/ t1 < t2 ->
  SFleb (norm false q1 t1) (norm false q2 t2) = true.
Proof.
  intros H1 H2 C2 Ht1 Hc. unfold norm.
  destruct (Z.eqb_spec q1 0), (Z.eqb_spec q2 0),
    (Z.leb_spec (2 ^ 53) q1), (Z.leb_spec (2 ^ 53) q2),
    (Z.leb_spec (t1 + 1) 971), (Z.leb_spec (t2 + 1) 971),
    (Z.leb_spec t1 971), (Z.leb_spec t2 971);
    try lia; try reflexivity;
    rewrite SFleb_finite, ?Z2Pos.id by lia;
    repeat match goal with
    | |- context [Z.ltb ?a ?b] => destruct (Z.ltb_spec a b)
    | |- context [Z.eqb ?a ?b] => destruct (Z.eqb_spec a b)
    | |- context [Z.leb ?a ?b] => destruct (Z.leb_spec a b)
    end; try reflexivity; lia.
Qed.

(** Rounding is monotone: same denominator and exponent first. *)
Lemma closed_mono_num num1 num2 den e :
  0 <= num1 <= num2 -> 0 < den -> good num1 den e ->
  SFleb (closed false num1 den e) (closed false num2 den e) = true /\
  good num2 den e.
Proof.
  intros [Hn Hle] Hd Hg.
  assert (Ht : target num1 den e <= target num2 den e).
  { unfold target. apply fexp_mono.
    assert (Zdigits2 (num1 / den) <= Zdigits2 (num2 / den)); [|lia].
    apply Zdigits2_mono. split; [apply Z.div_pos; lia|].
    apply Z.div_le_mono; lia. }
  assert (Hg2 : good num2 den e) by (unfold good in *; lia).
  split; [|assumption].
  pose proof (closed_facts num1 den e Hn Hd Hg) as (Q1 & T1 & C1).
  pose proof (closed_facts num2 den e ltac:(lia) Hd Hg2) as (Q2 & T2 & C2).
  cbv zeta in *. unfold closed.
  apply norm_le; try assumption.
  destruct (Z.eq_dec (target num1 den e) (target num2 den e)) as [E|N];
    [left|right; lia].
  split; [assumption|]. rewrite E. apply rne_mono; [|assumption].
  apply Z.mul_pos_pos; [assumption|].
  apply Z.pow_pos_nonneg; unfold good in Hg2; lia.
Qed.

(** ... then any two fractions, compared by cross multiplication at a common
    exponent [e]. *)
Theorem closed_le num1 den1 e1 num2 den2 e2 e :
  0 <= num1 -> 0 < den1 -> good num1 den1 e1 ->
  0 <= num2 -> 0 < den2 -> good num2 den2 e2 ->
  e <= e1 -> e <= e2 ->
  num1 * 2 ^ (e1 - e) * den2 <= num2 * 2 ^ (e2 - e) * den1 ->
  SFleb (closed false num1 den1 e1) (closed false num2 den2 e2) = true.
Proof.
  intros Hn1 Hd1 Hg1 Hn2 Hd2 Hg2 He1 He2 Hle.
  pose proof (closed_refine false num1 den1 e1 (e1 - e) Hn1 Hd1 ltac:(lia) Hg1)
    as [E1 G1].
  pose proof (closed_refine false num2 den2 e2 (e2 - e) Hn2 Hd2 ltac:(lia) Hg2)
    as [E2 G2].
  replace (e1 - (e1 - e)) with e in * by lia.
  replace (e2 - (e2 - e)) with e in * by lia.
  destruct (closed_scale false den2 _ _ _ Hd2 Hd1 G1) as [S1 G1'].
  destruct (closed_scale false den1 _ _ _ Hd1 Hd2 G2) as [S2 G2'].
  rewrite <- E1, <- E2, <- S1, <- S2.
  rewrite (Z.mul_comm den1 den2).
  assert (0 < 2 ^ (e1 - e)) by (apply Z.pow_pos_nonneg; lia).
  apply closed_mono_num; [nia|nia|assumption].
Qed.

(** *** The operations of [SpecFloat] as roundings *)

Lemma bounded_facts m e :
  bounded prec emax m e = true ->
  fexp (Zdigits2 (Z.pos m) + e) = e /\ emin <= e <= 971 /\
  Z.pos m < 2 ^ 53 /\ (e = emin \/ 2 ^ 52 <= Z.pos m).
Proof.
  unfold bounded, canonical_mantissa. intros H.
  apply andb_true_iff in H as [Hc He].
  apply Z.eqb_eq in Hc. apply Z.leb_le in He.
  change (emax - prec) with 971 in He.
  change (Z.pos (digits2_pos m)) with (Zdigits2 (Z.pos m)) in Hc.
  pose proof (Zdigits2_bounds (Z.pos m) ltac:(lia)) as [Blo Bhi].
  pose proof (Zdigits2_pos (Z.pos m) ltac:(lia)) as Hd.
  set (d := Zdigits2 (Z.pos m)) in *.
  split; [assumption|]. rewrite fexp_eq in Hc.
  split; [lia|]. split.
  - apply Z.lt_le_trans with (1 := Bhi). apply Z.pow_le_mono_r; lia.
  - destruct (Z.eq_dec e emin) as [|Hn]; [left; assumption|right].
    assert (d = 53) as E53 by lia. rewrite E53 in Blo. exact Blo.
Qed.

Lemma rne_exact m : rne m 1 = m.
Proof.
  unfold rne, loc_of. rewrite Z.mod_1_r, Z.div_1_r. reflexivity.
Qed.

Lemma rnd_exact s m e :
  rnd s m 1 e = binary_round_aux prec emax s m e loc_Exact.
Proof. unfold rnd, loc_of. rewrite Z.mod_1_r, Z.div_1_r. reflexivity. Qed.

(** A valid finite float is the rounding of its own value. *)
Lemma finite_closed s m e :
  bounded prec emax m e = true ->
  S754_finite s m e = closed s (Z.pos m) 1 e /\ good (Z.pos m) 1 e.
Proof.
  intros H. destruct (bounded_facts m e H) as (Hc & He & Hm & _).
  unfold closed, good, target. rewrite Z.div_1_r, Hc.
  split; [|lia].
  rewrite Z.sub_diag, Z.pow_0_r, Z.mul_1_r, rne_exact. unfold norm.
  destruct (Z.eqb_spec (Z.pos m) 0); [lia|].
  destruct (Z.leb_spec (2 ^ 53) (Z.pos m)); [lia|].
  destruct (Z.leb_spec e 971); [|lia].
  reflexivity.
Qed.

(** The order of valid finite floats is the order of their values. *)
Lemma finite_le_value m1 e1 m2 e2 e :
  bounded prec emax m1 e1 = true -> bounded prec emax m2 e2 = true ->
  e <= e1 -> e <= e2 ->
  SFleb (S754_finite false m1 e1) (S754_finite false m2 e2) = true ->
  Z.pos m1 * 2 ^ (e1 - e) <= Z.pos m2 * 2 ^ (e2 - e).
Proof.
  intros B1 B2 H1 H2 Hle.
  destruct (bounded_facts m1 e1 B1) as (_ & He1 & Hm1 & _).
  destruct (bounded_facts m2 e2 B2) as (_ & He2 & _ & Hn2).
  rewrite SFleb_finite in Hle.
  apply orb_true_iff in Hle as [Hlt|Heq].
  - apply Z.ltb_lt in Hlt. destruct Hn2 as [|Hn2]; [lia|].
    assert (0 < 2 ^ (e1 - e)) by (apply Z.pow_pos_nonneg; lia).
    assert (2 ^ (e2 - e) = 2 ^ (e2 - e1 - 1) * 2 * 2 ^ (e1 - e)) as ->.
    { rewrite <- (Z.pow_1_r 2) at 3. rewrite <- !Z.pow_add_r by lia.
      f_equal. lia. }
    assert (0 < 2 ^ (e2 - e1 - 1)) by (apply Z.pow_pos_nonneg; lia).
    change (2 ^ 53) with (2 ^ 52 * 2) in Hm1.
    set (c := 2 ^ 52) in *. set (P := 2 ^ (e1 - e)) in *.
    set (Q := 2 ^ (e2 - e1 - 1)) in *.
    assert (Z.pos m1 * P <= 2 * (c * P)) by nia.
    assert (c * P <= Z.pos m2 * P) by nia.
    assert (Z.pos m2 * P <= Z.pos m2 * P * Q) by nia.
    lia.
  - apply andb_true_iff in Heq as [Heq Hm]. apply Z.eqb_eq in Heq.
    apply Z.leb_le in Hm. subst e2.
    assert (0 < 2 ^ (e1 - e)) by (apply Z.pow_pos_nonneg; lia). nia.
Qed.

Lemma new_location_loc nb k :
  0 < nb -> 0 <= k < nb ->
  new_location nb k =
  if k =? 0 then loc_Exact else loc_Inexact (2 * k ?= nb).
Proof.
  intros Hnb Hk. unfold new_location.
  destruct (Z.even nb) eqn:Hev; [reflexivity|].
  unfold new_location_odd. destruct (k =? 0); [reflexivity|].
  rewrite <- Z.negb_odd in Hev. apply negb_false_iff in Hev.
  apply Z.odd_spec in Hev as [x Hx].
  destruct (Z.compare_spec (2 * k + 1) nb), (Z.compare_spec (2 * k) nb);
    try reflexivity; lia.
Qed.

Lemma div_eucl_div_mod a b : Z.div_eucl a b = (a / b, a mod b).
Proof. unfold Z.div, Z.modulo. destruct (Z.div_eucl a b). reflexivity. Qed.

(** Division of finite floats: the quotient of the mantissas, the dividend
    shifted left by [sh], rounded. *)
Lemma div_closed s1 m1 e1 s2 m2 e2 :
  exists sh e,
    0 <= sh /\ sh + e = e1 - e2 /\
    good (Z.pos m1 * 2 ^ sh) (Z.pos m2) e /\
    SFdiv prec emax (S754_finite s1 m1 e1) (S754_finite s2 m2 e2) =
    closed (xorb s1 s2) (Z.pos m1 * 2 ^ sh) (Z.pos m2) e.
Proof.
  unfold SFdiv, SFdiv_core_binary.
  set (d1 := Zdigits2 (Z.pos m1)). set (d2 := Zdigits2 (Z.pos m2)).
  set (e := Z.min (fexp (d1 + e1 - (d2 + e2))) (e1 - e2)).
  set (sh := e1 - e2 - e).
  assert (Hsh : 0 <= sh) by (unfold sh, e; lia).
  exists sh, e.
  assert (Hm' : match sh with
                | 0 => Z.pos m1
                | Z.pos _ => Z.shiftl (Z.pos m1) sh
                | Z.neg _ => 0
                end = Z.pos m1 * 2 ^ sh).
  { destruct sh as [|p|p] eqn:E; [rewrite Z.pow_0_r; lia| |lia].
    rewrite Z.shiftl_mul_pow2 by lia. reflexivity. }
  rewrite Hm'. set (num := Z.pos m1 * 2 ^ sh) in *.
  assert (Hp : 0 < 2 ^ sh) by (apply Z.pow_pos_nonneg; lia).
  assert (Hnum : 0 < num) by (unfold num; nia).
  assert (Hg : good num (Z.pos m2) e).
  { unfold good, target.
    apply Z.le_trans with (fexp (d1 + e1 - (d2 + e2))); [unfold e; lia|].
    apply fexp_mono.
    assert (d1 + sh - d2 <= Zdigits2 (num / Z.pos m2)); [|unfold sh; lia].
    pose proof (Zdigits2_nonneg (num / Z.pos m2)).
    destruct (Z_le_gt_dec (d1 + sh - d2) 0) as [|Hpos]; [lia|].
    pose proof (Zdigits2_bounds (Z.pos m1) ltac:(lia)) as [Blo _].
    pose proof (Zdigits2_bounds (Z.pos m2) ltac:(lia)) as [_ Bhi].
    fold d1 in Blo. fold d2 in Bhi.
    pose proof (Zdigits2_pos (Z.pos m1) ltac:(lia)). fold d1 in H0.
    pose proof (Zdigits2_pos (Z.pos m2) ltac:(lia)). fold d2 in H1.
    assert (2 ^ (d1 + sh - d2 - 1) <= num / Z.pos m2).
    { apply Z.div_le_lower_bound; [lia|].
      assert (0 < 2 ^ (d1 + sh - d2 - 1)) by (apply Z.pow_pos_nonneg; lia).
      apply Z.le_trans with (2 ^ d2 * 2 ^ (d1 + sh - d2 - 1)); [nia|].
      rewrite <- Z.pow_add_r by lia.
      replace (d2 + (d1 + sh - d2 - 1)) with (d1 - 1 + sh) by lia.
      rewrite Z.pow_add_r by lia. unfold num. nia. }
    pose proof (Zdigits2_ge_pow (num / Z.pos m2) (d1 + sh - d2 - 1) ltac:(lia) H2).
    lia. }
  split; [assumption|]. split; [unfold sh; lia|]. split; [assumption|].
  rewrite div_eucl_div_mod.
  pose proof (Z.mod_pos_bound num (Z.pos m2) ltac:(lia)) as Hr.
  rewrite new_location_loc by lia.
  apply (rnd_closed (xorb s1 s2) num (Z.pos m2) e); [lia|lia|assumption].
Qed.

Lemma pos_iter_xO m d : Z.pos (Pos.iter xO m d) = Z.pos m * 2 ^ Z.pos d.
Proof.
  induction d as [|d IH] using Pos.peano_ind.
  - simpl. lia.
  - rewrite Pos.iter_succ, Pos2Z.inj_xO, IH, Pos2Z.inj_succ, Z.pow_succ_r by lia.
    ring.
Qed.

Lemma shl_align_spec m e e' :
  snd (shl_align m e e') = Z.min e e' /\
  Z.pos (fst (shl_align m e e')) = Z.pos m * 2 ^ (e - Z.min e e').
Proof.
  unfold shl_align. destruct (e' - e) as [|p|p] eqn:E; cbn [fst snd].
  - replace (Z.min e e') with e by lia. rewrite Z.sub_diag. lia.
  - replace (Z.min e e') with e by lia. rewrite Z.sub_diag. lia.
  - replace (Z.min e e') with e' by lia. split; [reflexivity|].
    rewrite pos_iter_xO. f_equal. f_equal. lia.
Qed.

Lemma Zdigits2_shift x k :
  0 < x -> 0 <= k -> Zdigits2 (x * 2 ^ k) = Zdigits2 x + k.
Proof.
  intros Hx Hk. pose proof (Zdigits2_bounds x Hx) as [Blo Bhi].
  pose proof (Zdigits2_pos x Hx).
  assert (0 < 2 ^ k) by (apply Z.pow_pos_nonneg; lia).
  apply Zdigits2_unique; [nia|].
  replace (Zdigits2 x + k - 1) with (Zdigits2 x - 1 + k) by lia.
  rewrite !Z.pow_add_r by lia. nia.
Qed.

(** [binary_round] of a positive integer mantissa. *)
Lemma binary_round_closed s m e :
  exists e', e' <= e /\ good (Z.pos m * 2 ^ (e - e')) 1 e' /\
    binary_round prec emax s m e = closed s (Z.pos m * 2 ^ (e - e')) 1 e'.
Proof.
  unfold binary_round.
  pose proof (shl_align_spec m e (fexp (Z.pos (digits2_pos m) + e))) as [E2 E1].
  destruct (shl_align m e (fexp (Z.pos (digits2_pos m) + e))) as [mz ez].
  cbn [fst snd] in *. exists ez. rewrite <- E2 in E1. rewrite <- E1.
  assert (Hg : good (Z.pos mz) 1 ez).
  { unfold good, target. rewrite Z.div_1_r, E1.
    rewrite Zdigits2_shift by lia.
    change (Zdigits2 (Z.pos m)) with (Z.pos (digits2_pos m)).
    replace (Z.pos (digits2_pos m) + (e - ez) + ez)
      with (Z.pos (digits2_pos m) + e) by lia.
    lia. }
  split; [lia|]. split; [assumption|].
  rewrite <- rnd_exact. apply rnd_closed; [lia|lia|assumption].
Qed.

(** Addition of two positive finite floats: the exact sum, rounded. *)
Lemma add_closed m1 e1 m2 e2 :
  exists e, e <= e1 /\ e <= e2 /\
    good (Z.pos m1 * 2 ^ (e1 - e) + Z.pos m2 * 2 ^ (e2 - e)) 1 e /\
    SFadd prec emax (S754_finite false m1 e1) (S754_finite false m2 e2) =
    closed false (Z.pos m1 * 2 ^ (e1 - e) + Z.pos m2 * 2 ^ (e2 - e)) 1 e.
Proof.
  unfold SFadd. set (ez := Z.min e1 e2).
  pose proof (shl_align_spec m1 e1 ez) as [_ A1].
  pose proof (shl_align_spec m2 e2 ez) as [_ A2].
  replace (Z.min e1 ez) with ez in A1 by lia.
  replace (Z.min e2 ez) with ez in A2 by lia.
  cbn [cond_Zopp].
  set (a := fst (shl_align m1 e1 ez)) in *.
  set (b := fst (shl_align m2 e2 ez)) in *.
  change (Z.pos a + Z.pos b) with (Z.pos (a + b)). cbn [binary_normalize].
  destruct (binary_round_closed false (a + b) ez) as (e & He & Hg & Hr).
  exists e.
  assert (Z.pos (a + b) * 2 ^ (ez - e) =
          Z.pos m1 * 2 ^ (e1 - e) + Z.pos m2 * 2 ^ (e2 - e)) as Ev.
  { rewrite Pos2Z.inj_add, A1, A2.
    replace (e1 - e) with (e1 - ez + (ez - e)) by lia.
    replace (e2 - e) with (e2 - ez + (ez - e)) by lia.
    rewrite !Z.pow_add_r by lia. ring. }
  rewrite Ev in *. repeat split; try assumption; lia.
Qed.

(** *** Order facts on positive finite floats *)

Local Abbreviation pfin m e := (S754_finite false m e).

Lemma sf_add_le m1 e1 m2 e2 :
  bounded prec emax m1 e1 = true ->
  SFleb (pfin m1 e1) (SFadd prec emax (pfin m1 e1) (pfin m2 e2)) = true.
Proof.
  intros B1.
  destruct (add_closed m1 e1 m2 e2) as (e & He1 & He2 & Hg & ->).
  destruct (finite_closed false m1 e1 B1) as [-> G1].
  apply (closed_le _ _ _ _ _ _ e); try assumption; try lia.
  rewrite Z.sub_diag, Z.pow_0_r.
  assert (0 < 2 ^ (e2 - e)) by (apply Z.pow_pos_nonneg; lia). nia.
Qed.

Lemma sf_add_mono a ea a' ea' b eb b' eb' :
  bounded prec emax a ea = true -> bounded prec emax a' ea' = true ->
  bounded prec emax b eb = true -> bounded prec emax b' eb' = true ->
  SFleb (pfin a ea) (pfin a' ea') = true ->
  SFleb (pfin b eb) (pfin b' eb') = true ->
  SFleb (SFadd prec emax (pfin a ea) (pfin b eb))
        (SFadd prec emax (pfin a' ea') (pfin b' eb')) = true.
Proof.
  intros Ba Ba' Bb Bb' Ha Hb.
  destruct (add_closed a ea b eb) as (e & He1 & He2 & Hg & ->).
  destruct (add_closed a' ea' b' eb') as (e' & He1' & He2' & Hg' & ->).
  set (E := Z.min e e').
  pose proof (finite_le_value a ea a' ea' E Ba Ba' ltac:(lia) ltac:(lia) Ha) as Va.
  pose proof (finite_le_value b eb b' eb' E Bb Bb' ltac:(lia) ltac:(lia) Hb) as Vb.
  assert (P : forall x y, 0 < x -> 0 <= y -> 0 < x * 2 ^ y).
  { intros x y Hx Hy. apply Z.mul_pos_pos; [assumption|].
    apply Z.pow_pos_nonneg; lia. }
  pose proof (P (Z.pos a) (ea - e) ltac:(lia) ltac:(lia)).
  pose proof (P (Z.pos b) (eb - e) ltac:(lia) ltac:(lia)).
  pose proof (P (Z.pos a') (ea' - e') ltac:(lia) ltac:(lia)).
  pose proof (P (Z.pos b') (eb' - e') ltac:(lia) ltac:(lia)).
  apply (closed_le _ _ _ _ _ _ E); try assumption; try lia.
  rewrite !Z.mul_1_r, !Z.mul_add_distr_r, <- !Z.mul_assoc, <- !Z.pow_add_r by lia.
  replace (ea - e + (e - E)) with (ea - E) by lia.
  replace (eb - e + (e - E)) with (eb - E) by lia.
  replace (ea' - e' + (e' - E)) with (ea' - E) by lia.
  replace (eb' - e' + (e' - E)) with (eb' - E) by lia.
  lia.
Qed.

Lemma sf_div_mono a ea b eb t et u eu :
  bounded prec emax a ea = true -> bounded prec emax b eb = true ->
  bounded prec emax t et = true -> bounded prec emax u eu = true ->
  SFleb (pfin a ea) (pfin b eb) = true ->
  SFleb (pfin u eu) (pfin t et) = true ->
  SFleb (SFdiv prec emax (pfin a ea) (pfin t et))
        (SFdiv prec emax (pfin b eb) (pfin u eu)) = true.
Proof.
  intros Ba Bb Bt Bu Hab Hut.
  destruct (div_closed false a ea false t et) as (s1 & e1 & Hs1 & E1 & G1 & ->).
  destruct (div_closed false b eb false u eu) as (s2 & e2 & Hs2 & E2 & G2 & ->).
  cbn [xorb].
  set (F := Z.min ea eb - s1 - s2). set (G := Z.min eu et).
  set (E := F + G - et - eu).
  pose proof (finite_le_value a ea b eb F Ba Bb ltac:(lia) ltac:(lia) Hab) as Va.
  pose proof (finite_le_value u eu t et G Bu Bt ltac:(lia) ltac:(lia) Hut) as Vu.
  assert (P : forall x y, 0 < x -> 0 <= y -> 0 < x * 2 ^ y).
  { intros x y Hx Hy. apply Z.mul_pos_pos; [assumption|].
    apply Z.pow_pos_nonneg; lia. }
  pose proof (P (Z.pos a) s1 ltac:(lia) Hs1).
  pose proof (P (Z.pos b) s2 ltac:(lia) Hs2).
  apply (closed_le _ _ _ _ _ _ E); try assumption; try lia.
  rewrite <- !Z.mul_assoc, !(Z.mul_assoc (2 ^ _)), <- !Z.pow_add_r by lia.
  replace (s1 + (e1 - E)) with ((ea - F) + (eu - G)) by lia.
  replace (s2 + (e2 - E)) with ((eb - F) + (et - G)) by lia.
  rewrite !Z.pow_add_r by lia.
  pose proof (P (Z.pos a) (ea - F) ltac:(lia) ltac:(lia)).
  pose proof (P (Z.pos u) (eu - G) ltac:(lia) ltac:(lia)).
  transitivity ((Z.pos a * 2 ^ (ea - F)) * (Z.pos u * 2 ^ (eu - G))); [lia|].
  transitivity ((Z.pos b * 2 ^ (eb - F)) * (Z.pos t * 2 ^ (et - G))); [|lia].
  apply Z.mul_le_mono_nonneg; lia.
Qed.

Lemma sf_div_self s m e :
  SFdiv prec emax (S754_finite s m e) (S754_finite s m e) =
  S754_finite false (Z.to_pos (2 ^ 52)) (-52).
Proof.
  destruct (div_closed s m e s m e) as (sh & e' & Hs & E & G & ->).
  rewrite xorb_nilpotent.
  assert (e' = - sh) as -> by lia.
  assert (Hp : 0 < 2 ^ sh) by (apply Z.pow_pos_nonneg; lia).
  assert (Hq : Z.pos m * 2 ^ sh / Z.pos m = 2 ^ sh).
  { rewrite Z.mul_comm. apply Z.div_mul. lia. }
  assert (Ht : target (Z.pos m * 2 ^ sh) (Z.pos m) (- sh) = -52).
  { unfold target. rewrite Hq.
    rewrite <- (Z.mul_1_l (2 ^ sh)), Zdigits2_shift by lia.
    simpl Zdigits2. replace (1 + sh + - sh) with 1 by lia. reflexivity. }
  unfold good in G. rewrite Ht in G.
  unfold closed. rewrite Ht.
  replace (Z.pos m * 2 ^ sh)
    with (Z.pos m * 2 ^ (-52 - - sh) * 2 ^ 52).
  2:{ rewrite <- Z.mul_assoc, <- Z.pow_add_r by lia. do 2 f_equal. lia. }
  rewrite <- (Z.mul_1_r (Z.pos m * 2 ^ (-52 - - sh))) at 2.
  assert (0 < 2 ^ (-52 - - sh)) by (apply Z.pow_pos_nonneg; lia).
  rewrite rne_scale, rne_exact by lia.
  reflexivity.
Qed.

(** Whatever it is given, [binary_round_aux] returns a zero, a finite
    number or an infinity of the sign asked for. *)
Definition signed_as (s : bool) (x : spec_float) : Prop :=
  match x with
  | S754_zero s' | S754_infinity s' | S754_finite s' _ _ => s' = s
  | S754_nan => False
  end.

Lemma iter_pos_inv {A} (P : A -> Prop) (f : A -> A) :
  (forall x, P x -> P (f x)) -> forall n x, P x -> P (iter_pos f n x).
Proof.
  intros Hf. induction n as [n IH|n IH|]; intros x Hx; cbn [iter_pos]; auto.
Qed.

Lemma shr_nonneg mrs e n :
  0 <= shr_m mrs -> 0 <= shr_m (fst (shr mrs e n)).
Proof.
  intros H. destruct n as [|p|p]; cbn [shr fst]; try assumption.
  apply (iter_pos_inv (fun r => 0 <= shr_m r)); [|assumption].
  intros [m r s]. cbn [shr_m]. intros Hm.
  rewrite shr_1_nonneg by assumption. cbn [shr_m].
  rewrite Z.div2_div. apply Z.div_pos; lia.
Qed.

Lemma binary_round_aux_sign s m e l :
  0 <= m -> signed_as s (binary_round_aux prec emax s m e l).
Proof.
  intros Hm. unfold binary_round_aux, shr_fexp.
  pose proof (shr_nonneg (shr_record_of_loc m l) e
                (fexp (Zdigits2 m + e) - e)) as H1.
  rewrite shr_m_record in H1. specialize (H1 Hm).
  destruct (shr (shr_record_of_loc m l) e (fexp (Zdigits2 m + e) - e))
    as [mrs' e']. cbn [fst] in H1.
  set (q := round_nearest_even (shr_m mrs') (loc_of_shr_record mrs')).
  assert (Hq : 0 <= q).
  { unfold q, round_nearest_even.
    destruct (loc_of_shr_record mrs') as [|[]]; try lia.
    destruct (Z.even (shr_m mrs')); lia. }
  pose proof (shr_nonneg (shr_record_of_loc q loc_Exact) e'
                (fexp (Zdigits2 q + e') - e')) as H2.
  cbn [shr_record_of_loc shr_m] in H2. specialize (H2 Hq).
  cbn [shr_record_of_loc].
  destruct (shr {| shr_m := q; shr_r := false; shr_s := false |} e'
              (fexp (Zdigits2 q + e') - e')) as [mrs'' e''].
  cbn [fst] in H2.
  destruct (shr_m mrs'') as [|p|p]; [reflexivity| |lia].
  destruct (e'' <=? emax - prec); reflexivity.
Qed.

Lemma closed_sign s num den e :
  0 <= num -> 0 < den -> good num den e -> signed_as s (closed s num den e).
Proof.
  intros Hn Hd Hg. rewrite <- rnd_closed by assumption.
  apply binary_round_aux_sign. apply Z.div_pos; lia.
Qed.

End Rounding.

(** ** Order and sign of the results of float operations *)
Module FloatOrder.

Import Rounding.
Local Open Scope float_scope.

Definition nonneg (x : float) : Prop := (0 <=? x) = true.

(** Strictly positive and finite. *)
Definition pos_fin (x : float) : Prop :=
  (0 <? x) = true /\ (x <? infinity) = true.

Definition max_float : float := 0x1.fffffffffffffp+1023.

Lemma valid_finite x s m e :
  Prim2SF x = S754_finite s m e -> bounded prec emax m e = true.
Proof. intros H. pose proof (Prim2SF_valid x) as V. rewrite H in V. exact V. Qed.

Lemma nonneg_cases x :
  nonneg x ->
  (exists s, Prim2SF x = S754_zero s) \/
  (exists m e, Prim2SF x = S754_finite false m e /\ bounded prec emax m e = true) \/
  Prim2SF x = S754_infinity false.
Proof.
  unfold nonneg. rewrite leb_spec. change (Prim2SF 0) with (S754_zero false).
  destruct (Prim2SF x) as [s|s| |s m e] eqn:E; cbn; intros H.
  - left. eauto.
  - right. right. destruct s; [discriminate|reflexivity].
  - discriminate.
  - right. left. destruct s; [discriminate|].
    exists m, e. split; [reflexivity|]. exact (valid_finite x _ _ _ E).
Qed.

Lemma pos_fin_cases x :
  pos_fin x ->
  exists m e, Prim2SF x = S754_finite false m e /\ bounded prec emax m e = true.
Proof.
  unfold pos_fin. rewrite !ltb_spec.
  change (Prim2SF 0) with (S754_zero false).
  change (Prim2SF infinity) with (S754_infinity false).
  destruct (Prim2SF x) as [s|s| |s m e] eqn:E; cbn; intros [H1 H2];
    try discriminate; try (destruct s; discriminate).
  destruct s; [discriminate|].
  exists m, e. split; [reflexivity|]. exact (valid_finite x _ _ _ E).
Qed.

Lemma pos_fin_intro x m e : Prim2SF x = S754_finite false m e -> pos_fin x.
Proof.
  intros E. unfold pos_fin. rewrite !ltb_spec, E. split; reflexivity.
Qed.

Lemma nonneg_fin_cases x :
  nonneg x -> (x <? infinity) = true ->
  (exists s, Prim2SF x = S754_zero s) \/ pos_fin x.
Proof.
  intros Hn Hf. destruct (nonneg_cases x Hn) as [Z|[(m & e & E & _)|I]].
  - left. assumption.
  - right. exact (pos_fin_intro x m e E).
  - rewrite ltb_spec, I in Hf. discriminate.
Qed.

Lemma pos_fin_nonneg x : pos_fin x -> nonneg x.
Proof.
  intros H. destruct (pos_fin_cases x H) as (m & e & E & _).
  unfold nonneg. rewrite leb_spec, E. reflexivity.
Qed.

Definition sf_nonneg (x : spec_float) : Prop :=
  match x with
  | S754_zero _ => True
  | S754_infinity s | S754_finite s _ _ => s = false
  | S754_nan => False
  end.

Lemma signed_sf_nonneg x : signed_as false x -> sf_nonneg x.
Proof. destruct x; cbn; auto. Qed.

Lemma nonneg_iff x : nonneg x <-> sf_nonneg (Prim2SF x).
Proof.
  unfold nonneg. rewrite leb_spec. change (Prim2SF 0) with (S754_zero false).
  destruct (Prim2SF x) as [s|s| |s m e]; cbn; try destruct s;
    split; intros H; try reflexivity; try discriminate; try exact I; destruct H.
Qed.

Lemma SFleb_refl_finite m e :
  SFleb (S754_finite false m e) (S754_finite false m e) = true.
Proof.
  rewrite SFleb_finite, Z.eqb_refl, Z.leb_refl. apply orb_true_r.
Qed.

Lemma SFleb_zero_nonneg s x : sf_nonneg x -> SFleb (S754_zero s) x = true.
Proof.
  destruct x as [s'|s'| |s' m e]; cbn; intros H; try subst s';
    try reflexivity. destruct H.
Qed.

Lemma SFleb_nonneg_inf x : sf_nonneg x -> SFleb x (S754_infinity false) = true.
Proof.
  destruct x as [s'|s'| |s' m e]; cbn; intros H; try subst s';
    try reflexivity. destruct H.
Qed.

Lemma pos_fin_leb_refl x : pos_fin x -> (x <=? x) = true.
Proof.
  intros H. destruct (pos_fin_cases x H) as (m & e & E & _).
  rewrite leb_spec, E. apply SFleb_refl_finite.
Qed.

Tactic Notation "float_cases" constr(Hx) constr(x)
    ident(s) ident(m) ident(e) ident(E) ident(B) :=
  destruct (nonneg_cases x Hx) as [[s E]|[(m & e & E & B)|E]].

(** Adding a non-negative number does not decrease a non-negative one. *)
Lemma add_le x y : nonneg x -> nonneg y -> (x <=? x + y) = true.
Proof.
  intros Hx Hy. rewrite leb_spec, add_spec. unfold SF64add.
  float_cases Hx x sx mx xe Ex Bx; float_cases Hy y sy my ye Ey By;
    rewrite Ex, Ey; try reflexivity.
  - destruct sx, sy; reflexivity.
  - cbn [SFadd]. apply SFleb_refl_finite.
  - apply sf_add_le. assumption.
Qed.

Lemma add_nonneg x y : nonneg x -> nonneg y -> nonneg (x + y).
Proof.
  intros Hx Hy. apply nonneg_iff. rewrite add_spec. unfold SF64add.
  float_cases Hx x sx mx xe Ex Bx; float_cases Hy y sy my ye Ey By;
    rewrite Ex, Ey; try exact I; try reflexivity.
  - destruct sx, sy; exact I.
  - destruct (add_closed mx xe my ye) as (e & He1 & He2 & Hg & ->).
    apply signed_sf_nonneg, closed_sign; [|lia|assumption].
    assert (0 < 2 ^ (xe - e))%Z by (apply Z.pow_pos_nonneg; lia).
    assert (0 < 2 ^ (ye - e))%Z by (apply Z.pow_pos_nonneg; lia). nia.
Qed.

Lemma div_sf_nonneg m1 e1 m2 e2 :
  sf_nonneg (SFdiv prec emax (S754_finite false m1 e1) (S754_finite false m2 e2)).
Proof.
  destruct (div_closed false m1 e1 false m2 e2) as (sh & e & Hs & E & G & ->).
  apply signed_sf_nonneg, closed_sign; [|lia|assumption].
  assert (0 < 2 ^ sh)%Z by (apply Z.pow_pos_nonneg; lia). nia.
Qed.

Lemma div_nonneg a t : nonneg a -> pos_fin t -> nonneg (a / t).
Proof.
  intros Ha Ht. apply nonneg_iff. rewrite div_spec. unfold SF64div.
  destruct (pos_fin_cases t Ht) as (mt & et & Et & Bt). rewrite Et.
  float_cases Ha a sa ma ae Ea Ba; rewrite Ea;
    [exact I|apply div_sf_nonneg|reflexivity].
Qed.

(** Division by a positive finite number is monotone on non-negative
    numbers. *)
Lemma div_mono_num a b t :
  nonneg a -> nonneg b -> pos_fin t -> (a <=? b) = true ->
  (a / t <=? b / t) = true.
Proof.
  intros Ha Hb Ht. rewrite !leb_spec, !div_spec. unfold SF64div.
  destruct (pos_fin_cases t Ht) as (mt & et & Et & Bt). rewrite Et.
  float_cases Ha a sa ma ae Ea Ba; float_cases Hb b sb mb be Eb Bb;
    rewrite Ea, Eb; intros Hab; try reflexivity; try discriminate.
  - cbn [SFdiv]. apply SFleb_zero_nonneg, div_sf_nonneg.
  - apply sf_div_mono; try assumption. apply SFleb_refl_finite.
  - cbn [SFdiv xorb]. apply SFleb_nonneg_inf, div_sf_nonneg.
Qed.

Lemma add_mono_pos a a' b b' :
  pos_fin a -> pos_fin a' -> pos_fin b -> pos_fin b' ->
  (a <=? a') = true -> (b <=? b') = true -> (a + b <=? a' + b') = true.
Proof.
  intros Ha Ha' Hb Hb'. rewrite !leb_spec, !add_spec. unfold SF64add.
  destruct (pos_fin_cases a Ha) as (? & ? & -> & ?).
  destruct (pos_fin_cases a' Ha') as (? & ? & -> & ?).
  destruct (pos_fin_cases b Hb) as (? & ? & -> & ?).
  destruct (pos_fin_cases b' Hb') as (? & ? & -> & ?).
  apply sf_add_mono; assumption.
Qed.

Lemma div_mono_pos a b t u :
  pos_fin a -> pos_fin b -> pos_fin t -> pos_fin u ->
  (a <=? b) = true -> (u <=? t) = true -> (a / t <=? b / u) = true.
Proof.
  intros Ha Hb Ht Hu. rewrite !leb_spec, !div_spec. unfold SF64div.
  destruct (pos_fin_cases a Ha) as (? & ? & -> & ?).
  destruct (pos_fin_cases b Hb) as (? & ? & -> & ?).
  destruct (pos_fin_cases t Ht) as (? & ? & -> & ?).
  destruct (pos_fin_cases u Hu) as (? & ? & -> & ?).
  apply sf_div_mono; assumption.
Qed.

(** A finite number other than zero divided by itself is 1. *)
Lemma div_self x s m e : Prim2SF x = S754_finite s m e -> x / x = 1.
Proof.
  intros E. apply Prim2SF_inj. rewrite div_spec, E. unfold SF64div.
  rewrite sf_div_self. reflexivity.
Qed.

Lemma pos_le a b : (0 <? a) = true -> (a <=? b) = true -> (0 <? b) = true.
Proof.
  rewrite !ltb_spec, leb_spec. change (Prim2SF 0) with (S754_zero false).
  destruct (Prim2SF a) as [sa|sa| |sa ma ae], (Prim2SF b) as [sb|sb| |sb mb be];
    cbn; try discriminate; try (destruct sa; discriminate);
    destruct sa, sb; try discriminate; reflexivity.
Qed.

Lemma le_fin a b :
  (a <=? b) = true -> (b <? infinity) = true -> (a <? infinity) = true.
Proof.
  rewrite !ltb_spec, leb_spec. change (Prim2SF infinity) with (S754_infinity false).
  destruct (Prim2SF a) as [sa|sa| |sa ma ae], (Prim2SF b) as [sb|sb| |sb mb be];
    cbn; try discriminate; try reflexivity;
    destruct sa; try reflexivity; destruct sb; discriminate.
Qed.

Lemma pos_fin_bounds c d x :
  (0 <? c) = true -> (c <=? x) = true -> (x <=? d) = true ->
  (d <? infinity) = true -> pos_fin x.
Proof.
  intros Hc Hcx Hxd Hd. split; [exact (pos_le c x Hc Hcx)|exact (le_fin x d Hxd Hd)].
Qed.

Lemma le_max_float x : pos_fin x -> (x <=? max_float) = true.
Proof.
  intros H. destruct (pos_fin_cases x H) as (m & e & E & B).
  rewrite leb_spec, E.
  change (Prim2SF max_float) with (S754_finite false (Z.to_pos (2 ^ 53 - 1)) 971).
  rewrite SFleb_finite.
  destruct (bounded_facts m e B) as (_ & He & Hm & _).
  destruct (Z.ltb_spec e 971); [reflexivity|].
  destruct (Z.eqb_spec e 971); [|lia].
  destruct (Z.leb_spec (Z.pos m) (Z.pos (Z.to_pos (2 ^ 53 - 1)))); [reflexivity|].
  change (Z.pos (Z.to_pos (2 ^ 53 - 1))) with (2 ^ 53 - 1)%Z in *. lia.
Qed.

Lemma zero_add x : pos_fin x -> 0 + x = x.
Proof.
  intros H. destruct (pos_fin_cases x H) as (m & e & E & B).
  apply Prim2SF_inj. rewrite add_spec, E. reflexivity.
Qed.

Lemma zero_cases x s : Prim2SF x = S754_zero s -> x = 0 \/ x = -0.
Proof.
  intros E. rewrite <- (SF2Prim_Prim2SF x), E.
  destruct s; [right|left]; reflexivity.
Qed.

(** The bias of a roll: a non-negative factor times an absolute value
    is non-negative, unless it is a NaN. *)
Lemma mul_abs_nonneg z d :
  nonneg z -> (z * abs d <? infinity) = true -> nonneg (z * abs d).
Proof.
  intros Hz. rewrite ltb_spec. intros Hf. apply nonneg_iff.
  revert Hf. rewrite mul_spec, abs_spec. unfold SF64mul.
  float_cases Hz z sz mz ze Ez Bz; rewrite Ez;
    destruct (Prim2SF d) as [sd|sd| |sd md ed]; cbn [SFabs SFmul xorb];
    try discriminate; intros _; try exact I; try reflexivity.
  apply signed_sf_nonneg, binary_round_aux_sign. lia.
Qed.

End FloatOrder.

(** ** The analytics of class [Wealth] and the weights of a roll *)
Module WealthFacts.

Import Rounding FloatOrder.
Local Open Scope float_scope.

Definition le (a b : float) : Prop := (a <=? b) = true.

(** Neither NaN nor infinite. *)
Definition finite (x : float) : Prop := (abs x <? infinity) = true.

(** *** [np.sort] *)

Lemma insert_perm x l : Permutation (Np.insert x l) (x :: l).
Proof.
  induction l as [|y l IH]; simpl; [reflexivity|].
  destruct (Np.lt x y); [reflexivity|].
  rewrite IH. apply perm_swap.
Qed.

Lemma sort_from_perm a : forall acc,
  Permutation (fold_left (fun l x => Np.insert x l) a acc) (a ++ acc).
Proof.
  induction a as [|x a IH]; intros acc; simpl; [reflexivity|].
  rewrite IH, insert_perm. symmetry. apply Permutation_middle.
Qed.

Lemma sort_perm a : Permutation (Np.sort a) a.
Proof.
  unfold Np.sort. rewrite sort_from_perm, app_nil_r. reflexivity.
Qed.

Lemma ltb_leb x y : (x <? y) = true -> (x <=? y) = true.
Proof.
  rewrite ltb_spec, leb_spec. unfold SFltb, SFleb.
  destruct (SFcompare (Prim2SF x) (Prim2SF y)) as [[]|]; congruence.
Qed.

Lemma lt_le x y : Np.is_nan y = false -> Np.lt x y = true -> le x y.
Proof.
  unfold Np.lt. intros ->. rewrite orb_false_r. apply ltb_leb.
Qed.

Lemma not_lt_le x y :
  Np.is_nan x = false -> Np.is_nan y = false -> Np.lt x y = false -> le y x.
Proof.
  unfold Np.lt. intros Hx Hy H. apply orb_false_iff in H as [H _].
  destruct (FloatFacts.ltb_or_leb x y Hx Hy) as [L|L]; [congruence|exact L].
Qed.

Lemma insert_sorted x l :
  Np.is_nan x = false -> Forall (fun v => Np.is_nan v = false) l ->
  Sorted le l -> Sorted le (Np.insert x l).
Proof.
  intros Hx Hl Hs. induction Hs as [|y l Hs IH Hd]; simpl.
  - repeat constructor.
  - inversion Hl as [|? ? Hy Hl']; subst.
    destruct (Np.lt x y) eqn:E.
    + constructor; [constructor; assumption|].
      constructor. exact (lt_le x y Hy E).
    + constructor; [apply IH; assumption|].
      destruct l as [|z l]; simpl.
      * constructor. exact (not_lt_le x y Hx Hy E).
      * destruct (Np.lt x z); constructor.
        -- exact (not_lt_le x y Hx Hy E).
        -- inversion Hd; assumption.
Qed.

Lemma sort_from_sorted a : forall acc,
  Forall (fun v => Np.is_nan v = false) a ->
  Forall (fun v => Np.is_nan v = false) acc ->
  Sorted le acc ->
  Sorted le (fold_left (fun l x => Np.insert x l) a acc).
Proof.
  induction a as [|x a IH]; intros acc Ha Hacc Hs; simpl; [assumption|].
  inversion Ha as [|? ? Hx Ha']; subst.
  apply IH; [assumption| |apply insert_sorted; assumption].
  apply (Permutation_Forall (Permutation_sym (insert_perm x acc))).
  constructor; assumption.
Qed.

(** [np.sort] returns the balances in ascending order. *)
Lemma sort_sorted a :
  Forall (fun v => Np.is_nan v = false) a -> Sorted le (Np.sort a).
Proof.
  intros Ha. apply sort_from_sorted; [assumption|constructor|constructor].
Qed.

(** *** Integers as floats *)

Lemma of_nat_finite k :
  (0 < k)%nat -> (Z.of_nat k < 2 ^ 63)%Z ->
  exists m e, Prim2SF (Np.of_nat k) = S754_finite false m e.
Proof.
  intros Hk Hlt. unfold Np.of_nat, Np.of_Z.
  destruct (Z.ltb_spec (Z.of_nat k) 0) as [|_]; [lia|].
  rewrite of_uint63_spec.
  change (Uint63Axioms.to_Z (Uint63.of_Z (Z.of_nat k)))
    with (Uint63.to_Z (Uint63.of_Z (Z.of_nat k))).
  rewrite Uint63.of_Z_spec.
  change Uint63.wB with (2 ^ 63)%Z. rewrite Z.mod_small by lia.
  destruct (Z.of_nat k) as [|p|p] eqn:E; try lia.
  cbn [binary_normalize].
  destruct (binary_round_closed false p 0) as (e & He & Hg & ->).
  set (num := (Z.pos p * 2 ^ (0 - e))%Z) in *.
  assert (Hp : (0 < 2 ^ (0 - e))%Z) by (apply Z.pow_pos_nonneg; lia).
  assert (Hn : (0 <= num)%Z) by (unfold num; nia).
  pose proof (closed_sign false num 1 e Hn ltac:(lia) Hg) as Hs.
  assert (B1 : bounded prec emax (Z.to_pos (2 ^ 52)) (-52) = true) by reflexivity.
  assert (B2 : bounded prec emax (Z.to_pos (2 ^ 52)) 11 = true) by reflexivity.
  destruct (finite_closed false _ _ B1) as [C1 G1].
  destruct (finite_closed false _ _ B2) as [C2 G2].
  assert (L1 : SFleb (S754_finite false (Z.to_pos (2 ^ 52)) (-52))
                 (closed false num 1 e) = true).
  { rewrite C1. apply (closed_le _ _ _ _ _ _ (Z.min (-52) e)); try assumption; try lia.
    change (Z.pos (Z.to_pos (2 ^ 52))) with (2 ^ 52)%Z.
    unfold num. rewrite !Z.mul_1_r, <- Z.mul_assoc, <- !Z.pow_add_r by lia.
    replace (0 - e + (e - Z.min (-52) e))%Z with (52 + (-52 - Z.min (-52) e))%Z by lia.
    assert (0 < 2 ^ (52 + (-52 - Z.min (-52) e)))%Z by (apply Z.pow_pos_nonneg; lia).
    nia. }
  assert (L2 : SFleb (closed false num 1 e)
                 (S754_finite false (Z.to_pos (2 ^ 52)) 11) = true).
  { rewrite C2. apply (closed_le _ _ _ _ _ _ e); try assumption; try lia.
    change (Z.pos (Z.to_pos (2 ^ 52))) with (2 ^ 52)%Z.
    unfold num. rewrite !Z.mul_1_r, Z.sub_diag, Z.pow_0_r, Z.mul_1_r.
    replace (11 - e)%Z with (11 + (0 - e))%Z by lia.
    rewrite <- Z.pow_add_r, (Z.add_assoc 52 11) by lia.
    rewrite (Z.pow_add_r 2 (52 + 11)) by lia.
    apply Z.mul_le_mono_nonneg_r; [lia|]. change (52 + 11)%Z with 63%Z. lia. }
  destruct (closed false num 1 e) as [s|s| |s m e']; cbn [signed_as] in Hs.
  - discriminate L1.
  - subst s. discriminate L2.
  - destruct Hs.
  - subst s. eauto.
Qed.

Lemma zero_div x m e : Prim2SF x = S754_finite false m e -> 0 / x = 0.
Proof.
  intros E. apply Prim2SF_inj. rewrite div_spec, E. reflexivity.
Qed.

(** *** Sums that differ in the sign of a zero *)

Definition is_zero (x : float) : Prop := exists s, Prim2SF x = S754_zero s.

Definition zsim (x y : float) : Prop := x = y \/ (is_zero x /\ is_zero y).

Lemma zsim_add x y v : zsim x y -> zsim (x + v) (y + v).
Proof.
  intros [->|[[sx Ex] [sy Ey]]]; [left; reflexivity|].
  destruct (Prim2SF v) as [sv|sv| |sv mv ev] eqn:Ev.
  - right. split; [exists (if Bool.eqb sx sv then sx else false)
                  |exists (if Bool.eqb sy sv then sy else false)];
      rewrite add_spec, ?Ex, ?Ey, Ev; [destruct sx, sv|destruct sy, sv]; reflexivity.
  - left. apply Prim2SF_inj. rewrite !add_spec, Ex, Ey, Ev. reflexivity.
  - left. apply Prim2SF_inj. rewrite !add_spec, Ex, Ey, Ev. reflexivity.
  - left. apply Prim2SF_inj. rewrite !add_spec, Ex, Ey, Ev. reflexivity.
Qed.

Lemma zsim_zero_add x : zsim (0 + x) x.
Proof.
  destruct (Prim2SF x) as [s|s| |s m e] eqn:E.
  - right. split; [|exists s; assumption].
    exists false. rewrite add_spec, E. destruct s; reflexivity.
  - left. apply Prim2SF_inj. rewrite add_spec, E. reflexivity.
  - left. apply Prim2SF_inj. rewrite add_spec, E. reflexivity.
  - left. apply Prim2SF_inj. rewrite add_spec, E. reflexivity.
Qed.

Lemma zsim_trans x y z : zsim x y -> zsim y z -> zsim x z.
Proof.
  intros [->|[Hx Hy]] [->|[Hy' Hz]]; try (left; reflexivity);
    right; split; assumption.
Qed.

Lemma zsim_fold l : forall x y,
  zsim x y -> zsim (fold_left PrimFloat.add l x) (fold_left PrimFloat.add l y).
Proof.
  induction l as [|v l IH]; intros x y H; simpl; [assumption|].
  apply IH, zsim_add, H.
Qed.

Lemma finite_nonzero_cases t :
  finite t -> (t =? 0) = false -> exists s m e, Prim2SF t = S754_finite s m e.
Proof.
  unfold finite. rewrite ltb_spec, abs_spec, eqb_spec.
  change (Prim2SF infinity) with (S754_infinity false).
  change (Prim2SF 0) with (S754_zero false).
  destruct (Prim2SF t) as [s|s| |s m e]; cbn; try discriminate; eauto.
Qed.

Lemma zsim_eq x y :
  zsim x y -> (x =? 0) = false -> x = y.
Proof.
  intros [->|[[s E] _]]; [reflexivity|].
  rewrite eqb_spec, E. discriminate.
Qed.

(** A quotient by zero stays a NaN or an infinity when a number is
    subtracted from it. *)
Lemma sub_div_zero X c s :
  SFltb (SFabs (SF64sub (SF64div X (S754_zero s)) c)) (S754_infinity false) = false.
Proof.
  destruct X as [sx|sx| |sx mx ex'], c as [sc|sc| |sc mc ec]; cbn;
    repeat match goal with b : bool |- _ => destruct b end; reflexivity.
Qed.

(** *** [np.cumsum] and [np.sum] *)

Lemma last_cumsum_from l : forall acc d,
  last (acc :: Np.cumsum_from acc l) d = fold_left PrimFloat.add l acc.
Proof.
  induction l as [|v l IH]; intros acc d; [reflexivity|].
  change (last (acc :: Np.cumsum_from acc (v :: l)) d)
    with (last ((acc + v) :: Np.cumsum_from (acc + v) l) d).
  apply IH.
Qed.

Lemma length_cumsum_from l : forall acc, length (Np.cumsum_from acc l) = length l.
Proof. induction l; intros; simpl; [reflexivity|]. now rewrite IHl. Qed.

Lemma length_cumsum l : length (Np.cumsum l) = length l.
Proof. destruct l; simpl; [reflexivity|]. now rewrite length_cumsum_from. Qed.

(** Below eight elements [np.sum] adds from left to right, as [np.cumsum]
    does: the two totals differ at most in the sign of a zero. *)
Lemma sum_last_cumsum x l d :
  (length (x :: l) < 8)%nat ->
  zsim (Np.sum (x :: l)) (last (Np.cumsum (x :: l)) d).
Proof.
  intros Hlen. unfold Np.sum.
  assert (Np.pairwise_sum (length (x :: l)) (x :: l) = Np.seq_sum 0 (x :: l)) as ->.
  { destruct (length (x :: l)) as [|k] eqn:E; [discriminate|].
    cbn [Np.pairwise_sum]. rewrite E.
    destruct (Nat.ltb_spec (S k) 8); [reflexivity|lia]. }
  cbn [Np.cumsum]. rewrite last_cumsum_from.
  apply zsim_trans with (1 := zsim_zero_add _).
  unfold Np.seq_sum. cbn [fold_left]. apply zsim_fold, zsim_zero_add.
Qed.

(** The running totals of non-negative balances, each divided by a
    positive total, do not decrease. *)
Lemma shares_sorted t l : forall acc,
  pos_fin t -> nonneg acc -> Forall nonneg l ->
  Sorted le (map (fun c => c / t) (acc :: Np.cumsum_from acc l)).
Proof.
  induction l as [|v l IH]; intros acc Ht Hacc Hl.
  - repeat constructor.
  - inversion Hl as [|? ? Hv Hl']; subst.
    change (Sorted le (acc / t :: map (fun c => c / t)
                         ((acc + v) :: Np.cumsum_from (acc + v) l))).
    constructor.
    + apply IH; [assumption|apply add_nonneg; assumption|assumption].
    + constructor. apply div_mono_num; try assumption.
      * apply add_nonneg; assumption.
      * apply add_le; assumption.
Qed.

Lemma last_map {A B} (f : A -> B) l : forall a d d',
  last (map f (a :: l)) d = f (last (a :: l) d').
Proof.
  induction l as [|b l IH]; intros a d d'; [reflexivity|].
  change (last (map f (b :: l)) d = f (last (b :: l) d')). apply IH.
Qed.

End WealthFacts.

(** *** The weights of a roll *)

Module RollWeights.

Import FloatOrder.
Local Open Scope float_scope.

Lemma pos_fin_one : pos_fin 1.
Proof. split; reflexivity. Qed.

Lemma pos_fin_half : pos_fin 0.5.
Proof. split; reflexivity. Qed.

Lemma pos_fin_max : pos_fin max_float.
Proof. split; reflexivity. Qed.

(** The two weights for a finite non-negative bias. *)
Lemma weights_of_bias b :
  nonneg b -> (b <? infinity) = true ->
  let w0 := (0.5 + b) / (1 + b) in
  let w1 := 0.5 / (1 + b) in
  (0 <? w0) = true /\ (w0 <=? 1) = true /\
  (0 <? w1) = true /\ (w1 <=? 0.5) = true /\
  (0 <? 0 + w0 + w1) = true /\ (0 + w0 + w1 <? infinity) = true.
Proof.
  intros Hn Hf.
  destruct (nonneg_fin_cases b Hn Hf) as [[s Hz]|Hb].
  { destruct (zero_cases b s Hz) as [->| ->]; repeat split; reflexivity. }
  cbv zeta.
  pose proof pos_fin_one as P1. pose proof pos_fin_half as Ph.
  pose proof pos_fin_max as Pm.
  set (y := 1 + b). set (x := 0.5 + b).
  assert (Hy1 : (1 <=? y) = true) by (apply add_le; [reflexivity|assumption]).
  assert (Hym : (y <=? max_float) = true).
  { change max_float with (1 + max_float) at 1.
    apply add_mono_pos; try assumption; [reflexivity|].
    apply le_max_float; assumption. }
  assert (Py : pos_fin y).
  { apply (pos_fin_bounds 1 max_float); try assumption; reflexivity. }
  assert (Hx : (0.5 <=? x) = true) by (apply add_le; [reflexivity|assumption]).
  assert (Hxy : (x <=? y) = true).
  { apply add_mono_pos; try assumption; [reflexivity|].
    apply pos_fin_leb_refl; assumption. }
  assert (Px : pos_fin x).
  { apply (pos_fin_bounds 0.5 y); try assumption; [reflexivity|apply Py]. }
  assert (Hyy : (y <=? y) = true) by (apply pos_fin_leb_refl; assumption).
  assert (W1u : (0.5 / y <=? 0.5) = true).
  { change 0.5 with (0.5 / 1) at 2. apply div_mono_pos; try assumption. reflexivity. }
  assert (W1l : (0.5 / max_float <=? 0.5 / y) = true).
  { apply div_mono_pos; try assumption. reflexivity. }
  assert (W1p : (0 <? 0.5 / y) = true).
  { apply (pos_le (0.5 / max_float)); [reflexivity|assumption]. }
  assert (W01 : (0.5 / y <=? x / y) = true).
  { apply div_mono_pos; assumption. }
  assert (W0p : (0 <? x / y) = true) by (apply (pos_le (0.5 / y)); assumption).
  assert (W0u : (x / y <=? 1) = true).
  { destruct (pos_fin_cases y Py) as (m & e & E & _).
    rewrite <- (div_self y _ _ _ E). apply div_mono_pos; assumption. }
  assert (Pw0 : pos_fin (x / y)).
  { split; [assumption|]. apply (le_fin _ 1); [assumption|reflexivity]. }
  assert (Pw1 : pos_fin (0.5 / y)).
  { split; [assumption|]. apply (le_fin _ 0.5); [assumption|reflexivity]. }
  rewrite (zero_add _ Pw0).
  repeat split; try assumption.
  - apply (pos_le (x / y)); [assumption|].
    apply add_le; apply pos_fin_nonneg; assumption.
  - apply (le_fin _ (1 + 0.5)); [|reflexivity].
    apply add_mono_pos; assumption.
Qed.

End RollWeights.

(** C10, amended.  For every pair and every [zeta >= 0] whose bias
    [zeta * |wealth difference|] is finite, the two weights of the roll
    are strictly positive, the first at most 1 and the second at most
    0.5, and their total, as [random.choices] accumulates it, is
    strictly positive and finite: the weighted draw is well-defined.
    (The weights sum to 1 only up to rounding.) *)
Theorem roll_weights_positive (zeta : float) (k0 k1 : person) (v0 v1 : float) :
  (0 <=? zeta) = true ->
  (zeta * abs (v0 - v1) <? infinity) = true ->
  exists w0 w1,
    ExtendedYardSale.weights zeta [(k0, v0); (k1, v1)] = Ok [w0; w1]
    /\ (0 <? w0) = true /\ (w0 <=? 1) = true
    /\ (0 <? w1) = true /\ (w1 <=? 0.5) = true
    /\ (0 <? fold_left PrimFloat.add [w0; w1] 0) = true
    /\ (fold_left PrimFloat.add [w0; w1] 0 <? infinity) = true.
Proof.
  intros Hz Hf.
  pose proof (FloatOrder.mul_abs_nonneg zeta (v0 - v1) Hz Hf) as Hn.
  exists ((0.5 + zeta * abs (v0 - v1)) / (1 + zeta * abs (v0 - v1))),
         (0.5 / (1 + zeta * abs (v0 - v1))).
  split; [reflexivity|].
  exact (RollWeights.weights_of_bias _ Hn Hf).
Qed.

(** *** The Lorenz curve and the Gini coefficient *)

(** C9, amended.  For a wealth mapping of at least one agent, the
    x-coordinates of the Lorenz curve start at 0 and end at 1, and the
    y-coordinates are 0 followed by the running totals of the
    ascending-sorted balances, each divided by [np.sum] of the balances.
    When no balance is negative and the total is positive and finite, the
    y-coordinates do not decrease.  With fewer than 8 agents and a finite
    total other than zero the curve ends at [y = 1] exactly. *)
Theorem lorenz_curve_shape (w : dict) :
  let total := Np.sum (Wealth.sort_wealth w) in
  let xs := fst (Wealth.plot_lorenz_curve w) in
  let ys := snd (Wealth.plot_lorenz_curve w) in
  (0 < length w)%nat -> (Z.of_nat (length w) < 2 ^ 63)%Z ->
  ys = 0 :: map (fun c => c / total) (Np.cumsum (Wealth.sort_wealth w))
  /\ length xs = S (length w) /\ length ys = S (length w)
  /\ nth 0 xs nan = 0 /\ nth 0 ys nan = 0
  /\ last xs nan = 1
  /\ (Forall (fun v => (0 <=? v) = true) (values w) ->
      (0 <? total) = true -> (total <? infinity) = true ->
      Sorted (fun a b => (a <=? b) = true) ys)
  /\ ((length w < 8)%nat ->
      (abs total <? infinity) = true -> (total =? 0) = false ->
      last ys nan = 1).
Proof.
  intros total xs ys Hlen Hbig.
  assert (Hperm : Permutation (Wealth.sort_wealth w) (values w))
    by apply WealthFacts.sort_perm.
  assert (Hn : length (Wealth.sort_wealth w) = length w).
  { rewrite (Permutation_length Hperm). unfold values. apply length_map. }
  assert (Hys : ys = 0 :: map (fun c => c / total) (Np.cumsum (Wealth.sort_wealth w)))
    by reflexivity.
  assert (Hly : length ys = S (length w)).
  { rewrite Hys. cbn [length]. rewrite length_map, WealthFacts.length_cumsum, Hn.
    reflexivity. }
  assert (Hxs : xs = map (fun i => Np.of_nat i / Np.of_nat (length w))
                       (seq 0 (S (length w)))).
  { unfold xs, Wealth.plot_lorenz_curve. cbn [fst].
    fold total. rewrite <- Hys, Hly.
    replace (S (length w) - 1)%nat with (length w) by lia. reflexivity. }
  destruct (WealthFacts.of_nat_finite (length w) Hlen Hbig) as (m & e & En).
  split; [assumption|]. split.
  { rewrite Hxs, length_map, length_seq. reflexivity. }
  split; [assumption|]. split.
  { rewrite Hxs. cbn [seq map nth].
    change (Np.of_nat 0) with 0. exact (WealthFacts.zero_div _ _ _ En). }
  split; [rewrite Hys; reflexivity|]. split.
  { rewrite Hxs, seq_S, map_app. cbn [map]. rewrite last_last.
    exact (FloatOrder.div_self _ _ _ _ En). }
  destruct (Wealth.sort_wealth w) as [|s1 rest] eqn:Es;
    [cbn [length] in Hn; lia|].
  split.
  - intros Hpos Ht0 Htf.
    assert (Pt : FloatOrder.pos_fin total) by (split; assumption).
    assert (Hs : Forall FloatOrder.nonneg (s1 :: rest)).
    { exact (Permutation_Forall (Permutation_sym Hperm) Hpos). }
    inversion Hs as [|? ? H1 Hr]; subst.
    rewrite Hys. cbn [Np.cumsum].
    constructor.
    + apply (WealthFacts.shares_sorted total rest s1); assumption.
    + constructor. cbn [map].
      exact (FloatOrder.div_nonneg _ _ H1 Pt).
  - intros H8 Hfin Hnz.
    destruct (WealthFacts.finite_nonzero_cases total Hfin Hnz) as (s & mt & et & Et).
    rewrite Hys.
    change (last (0 :: map (fun c => c / total) (Np.cumsum (s1 :: rest))) nan)
      with (last (map (fun c => c / total) (Np.cumsum (s1 :: rest))) nan).
    cbn [Np.cumsum]. rewrite (WealthFacts.last_map _ _ _ nan nan).
    change (s1 :: Np.cumsum_from s1 rest) with (Np.cumsum (s1 :: rest)).
    assert (Hz : WealthFacts.zsim total (last (Np.cumsum (s1 :: rest)) nan)).
    { apply WealthFacts.sum_last_cumsum. rewrite Hn. assumption. }
    rewrite <- (WealthFacts.zsim_eq _ _ Hz Hnz).
    exact (FloatOrder.div_self _ _ _ _ Et).
Qed.

(** C8, amended.  [calc_gini] sorts the balances in ascending order and,
    for a mapping with at least one agent, returns
    [(2/n) * sum (i * y_i) / np.sum y - (n+1)/n] over them, evaluated in
    binary64 arithmetic; it raises nothing when the total wealth is zero
    (the result is then a NaN or an infinity), and raises
    [ZeroDivisionError] only for the empty mapping.  For identical
    balances the result need not be 0; it is for four balances of 100. *)
Theorem calc_gini_result :
  (forall w : dict,
     let y := Wealth.sort_wealth w in
     let n := Np.of_nat (length w) in
     Permutation y (values w)
     /\ (Forall (fun v => Np.is_nan v = false) (values w) ->
         Sorted (fun a b => (a <=? b) = true) y)
     /\ (w = [] -> Wealth.calc_gini w = Raise ZeroDivisionError)
     /\ (w <> [] ->
         exists g, Wealth.calc_gini w = Ok g
           /\ g = 2 / n
                  * py_sum (map (fun iy => Np.of_nat (fst iy + 1) * snd iy)
                              (Wealth.enumerate y))
                  / Np.sum y
                  - (n + 1) / n
           /\ ((Np.sum y =? 0) = true -> (abs g <? infinity) = false)))
  /\ Wealth.calc_gini [("A", 100); ("B", 100); ("C", 100); ("D", 100)]%string = Ok 0.
Proof.
  split; [|vm_compute; reflexivity].
  intros w y n. split; [apply WealthFacts.sort_perm|].
  split; [apply WealthFacts.sort_sorted|].
  split; [intros ->; reflexivity|].
  intros Hw. unfold Wealth.calc_gini.
  assert (Hk : length (keys w) = length w) by (unfold keys; apply length_map).
  rewrite Hk. destruct (Nat.eqb_spec (length w) 0) as [E0|_].
  { destruct w; [congruence|discriminate]. }
  eexists. split; [reflexivity|]. split; [reflexivity|].
  fold y. fold n.
  set (X := 2 / n * _). set (c := (n + 1) / n).
  rewrite eqb_spec, ltb_spec, abs_spec, sub_spec, div_spec.
  change (Prim2SF 0) with (S754_zero false).
  change (Prim2SF infinity) with (S754_infinity false).
  destruct (Prim2SF (Np.sum y)) as [s|s| |s m e]; cbn; try discriminate.
  - intros _. apply WealthFacts.sub_div_zero.
  - destruct s; discriminate.
  - destruct s; discriminate.
Qed.

(** ** Further properties of the roll weights and the analytics *)

Module RollBias.

Import FloatOrder.
Local Open Scope float_scope.

Lemma nonneg_le a b : nonneg a -> (a <=? b) = true -> nonneg b.
Proof.
  unfold nonneg. rewrite !leb_spec. change (Prim2SF 0) with (S754_zero false).
  destruct (Prim2SF a) as [sa|sa| |sa ma ea], (Prim2SF b) as [sb|sb| |sb mb eb];
    cbn; try discriminate; try reflexivity;
    destruct sa; try discriminate; destruct sb; try discriminate; reflexivity.
Qed.

(** The numerator and the denominator of the weights, for a positive
    finite bias. *)
Lemma bias_sums b :
  pos_fin b ->
  pos_fin (1 + b) /\ pos_fin (0.5 + b)
  /\ (1 <=? 1 + b) = true /\ (0.5 <=? 0.5 + b) = true
  /\ (0.5 + b <=? 1 + b) = true.
Proof.
  intros Hb. pose proof (pos_fin_nonneg b Hb) as Hn.
  assert (P1 : pos_fin 1) by (split; reflexivity).
  assert (Ph : pos_fin 0.5) by (split; reflexivity).
  assert (Pm : pos_fin max_float) by (split; reflexivity).
  assert (Hy1 : (1 <=? 1 + b) = true) by (apply add_le; [reflexivity|assumption]).
  assert (Hym : (1 + b <=? max_float) = true).
  { change max_float with (1 + max_float) at 1.
    apply add_mono_pos; try assumption; [reflexivity|].
    apply le_max_float; assumption. }
  assert (Py : pos_fin (1 + b)).
  { apply (pos_fin_bounds 1 max_float); try assumption; reflexivity. }
  assert (Hx : (0.5 <=? 0.5 + b) = true) by (apply add_le; [reflexivity|assumption]).
  assert (Hxy : (0.5 + b <=? 1 + b) = true).
  { apply add_mono_pos; try assumption; [reflexivity|].
    apply pos_fin_leb_refl; assumption. }
  assert (Px : pos_fin (0.5 + b)).
  { apply (pos_fin_bounds 0.5 (1 + b)); try assumption; [reflexivity|apply Py]. }
  repeat split; try assumption; try apply Py; apply Px.
Qed.

Lemma poorer_le_richer b :
  nonneg b -> (b <? infinity) = true ->
  (0.5 / (1 + b) <=? (0.5 + b) / (1 + b)) = true.
Proof.
  intros Hn Hf.
  destruct (nonneg_fin_cases b Hn Hf) as [[s Hz]|Hb].
  { destruct (zero_cases b s Hz) as [->| ->]; reflexivity. }
  destruct (bias_sums b Hb) as (Py & Px & _ & Hx & _).
  apply div_mono_pos; try assumption; [split; reflexivity|].
  apply pos_fin_leb_refl; assumption.
Qed.

Lemma one_plus_mono b b' :
  nonneg b -> (b <=? b') = true -> (b' <? infinity) = true ->
  pos_fin (1 + b) /\ pos_fin (1 + b') /\ (1 + b <=? 1 + b') = true.
Proof.
  intros Hn Hle Hf'.
  pose proof (nonneg_le b b' Hn Hle) as Hn'.
  pose proof (le_fin b b' Hle Hf') as Hf.
  assert (P1 : pos_fin 1) by (split; reflexivity).
  destruct (nonneg_fin_cases b' Hn' Hf') as [[s' Hz']|Hb'].
  - (* both are zeros *)
    assert (exists s, Prim2SF b = S754_zero s) as [s Hz].
    { destruct (nonneg_fin_cases b Hn Hf) as [Z|Hb]; [assumption|].
      destruct (pos_fin_cases b Hb) as (m & e & E & _).
      rewrite leb_spec, E, Hz' in Hle. discriminate. }
    destruct (zero_cases b s Hz) as [->| ->], (zero_cases b' s' Hz') as [->| ->];
      repeat split; reflexivity.
  - destruct (bias_sums b' Hb') as (Py' & _ & Hy1' & _).
    destruct (nonneg_fin_cases b Hn Hf) as [[s Hz]|Hb].
    + destruct (zero_cases b s Hz) as [->| ->];
        (split; [split; reflexivity|]; split; [assumption|]; exact Hy1').
    + destruct (bias_sums b Hb) as (Py & _).
      split; [assumption|]. split; [assumption|].
      apply add_mono_pos; try assumption. reflexivity.
Qed.

End RollBias.

(** X1.  For every pair and every [zeta >= 0] with a finite bias, the
    weight of outcome 1 (the poorer wins) is never above the weight of
    outcome 0 (the richer wins). *)
Theorem roll_weights_favour_richer (zeta : float) (k0 k1 : person) (v0 v1 : float) :
  (0 <=? zeta) = true ->
  (zeta * abs (v0 - v1) <? infinity) = true ->
  exists w0 w1,
    ExtendedYardSale.weights zeta [(k0, v0); (k1, v1)] = Ok [w0; w1]
    /\ (w1 <=? w0) = true.
Proof.
  intros Hz Hf.
  pose proof (FloatOrder.mul_abs_nonneg zeta (v0 - v1) Hz Hf) as Hn.
  eexists. eexists. split; [reflexivity|].
  exact (RollBias.poorer_le_richer _ Hn Hf).
Qed.

(** X2.  With [zeta = 0] and two balances whose difference is finite the
    roll is a fair coin: both weights are exactly 0.5. *)
Theorem roll_weights_fair (k0 k1 : person) (v0 v1 : float) :
  (abs (v0 - v1) <? infinity) = true ->
  ExtendedYardSale.weights 0 [(k0, v0); (k1, v1)] = Ok [0.5; 0.5].
Proof.
  intros Hf. unfold ExtendedYardSale.weights. cbn [values map snd].
  assert (E : 0 * abs (v0 - v1) = 0).
  { apply Prim2SF_inj. rewrite mul_spec, abs_spec. revert Hf.
    rewrite ltb_spec, abs_spec.
    change (Prim2SF infinity) with (S754_infinity false).
    change (Prim2SF 0) with (S754_zero false).
    destruct (Prim2SF (v0 - v1)) as [s|s| |s m e]; cbn;
      try discriminate; reflexivity. }
  rewrite E. reflexivity.
Qed.

(** X3.  A larger bias never raises the weight of outcome 1 (the poorer
    wins): for two finite biases [b <= b'] from non-negative [zeta]s the
    second weight under [b'] is at most the second weight under [b]. *)
Theorem poorer_weight_antitone
    (zeta zeta' : float) (k0 k1 k0' k1' : person) (v0 v1 v0' v1' : float) :
  (0 <=? zeta) = true ->
  (zeta * abs (v0 - v1) <=? zeta' * abs (v0' - v1')) = true ->
  (zeta' * abs (v0' - v1') <? infinity) = true ->
  exists w0 w1 w0' w1',
    ExtendedYardSale.weights zeta [(k0, v0); (k1, v1)] = Ok [w0; w1]
    /\ ExtendedYardSale.weights zeta' [(k0', v0'); (k1', v1')] = Ok [w0'; w1']
    /\ (w1' <=? w1) = true.
Proof.
  intros Hz Hle Hf'.
  pose proof (FloatOrder.le_fin _ _ Hle Hf') as Hf.
  pose proof (FloatOrder.mul_abs_nonneg zeta (v0 - v1) Hz Hf) as Hn.
  destruct (RollBias.one_plus_mono _ _ Hn Hle Hf') as (Py & Py' & Hyy).
  do 4 eexists. split; [reflexivity|]. split; [reflexivity|].
  apply FloatOrder.div_mono_pos; try assumption; try (split; reflexivity);
    reflexivity.
Qed.

Module Analytics.

Import Rounding FloatOrder.
Local Open Scope float_scope.

(** A positive integer below [2^63] converts to the rounding of its own
    value. *)
Lemma of_nat_closed k :
  (0 < k)%nat -> (Z.of_nat k < 2 ^ 63)%Z ->
  exists e, (e <= 0)%Z
    /\ good (Z.of_nat k * 2 ^ (0 - e)) 1 e
    /\ Prim2SF (Np.of_nat k) = closed false (Z.of_nat k * 2 ^ (0 - e)) 1 e.
Proof.
  intros Hk Hlt. unfold Np.of_nat, Np.of_Z.
  destruct (Z.ltb_spec (Z.of_nat k) 0) as [|_]; [lia|].
  rewrite of_uint63_spec.
  change (Uint63Axioms.to_Z (Uint63.of_Z (Z.of_nat k)))
    with (Uint63.to_Z (Uint63.of_Z (Z.of_nat k))).
  rewrite Uint63.of_Z_spec.
  change Uint63.wB with (2 ^ 63)%Z. rewrite Z.mod_small by lia.
  destruct (Z.of_nat k) as [|p|p] eqn:E; try lia.
  cbn [binary_normalize].
  destruct (binary_round_closed false p 0) as (e & He & Hg & ->).
  exists e. repeat split; assumption.
Qed.

Lemma of_nat_le i j :
  (i <= j)%nat -> (Z.of_nat j < 2 ^ 63)%Z ->
  (Np.of_nat i <=? Np.of_nat j) = true.
Proof.
  intros Hij Hj. destruct i as [|i].
  - change (Np.of_nat 0) with 0. destruct j as [|j]; [reflexivity|].
    destruct (WealthFacts.of_nat_finite (S j) ltac:(lia) Hj) as (m & e & E).
    rewrite leb_spec, E. reflexivity.
  - destruct (of_nat_closed (S i) ltac:(lia) ltac:(lia)) as (ei & Hei & Gi & Ei).
    destruct (of_nat_closed j ltac:(lia) Hj) as (ej & Hej & Gj & Ej).
    rewrite leb_spec, Ei, Ej.
    assert (P : forall e, (e <= 0)%Z -> (0 < 2 ^ (0 - e))%Z)
      by (intros; apply Z.pow_pos_nonneg; lia).
    pose proof (P ei Hei). pose proof (P ej Hej).
    assert (0 <= Z.of_nat (S i) * 2 ^ (0 - ei))%Z by nia.
    assert (0 <= Z.of_nat j * 2 ^ (0 - ej))%Z by nia.
    apply (closed_le _ _ _ _ _ _ (Z.min ei ej)); try assumption; try lia.
    + rewrite !Z.mul_1_r, <- !Z.mul_assoc, <- !Z.pow_add_r by lia.
      replace (0 - ei + (ei - Z.min ei ej))%Z with (0 - Z.min ei ej)%Z by lia.
      replace (0 - ej + (ej - Z.min ei ej))%Z with (0 - Z.min ei ej)%Z by lia.
      apply Z.mul_le_mono_nonneg_r; [|lia].
      apply Z.pow_nonneg. lia.
Qed.

Lemma of_nat_nonneg k : (Z.of_nat k < 2 ^ 63)%Z -> nonneg (Np.of_nat k).
Proof. intros H. exact (of_nat_le 0 k ltac:(lia) H). Qed.

Lemma sorted_map_seq (f : nat -> float) k : forall a,
  (forall i, (a <= i)%nat -> (S i < a + k)%nat -> WealthFacts.le (f i) (f (S i))) ->
  Sorted WealthFacts.le (map f (seq a k)).
Proof.
  induction k as [|k IH]; intros a H; [constructor|].
  cbn [seq map]. constructor.
  - apply IH. intros i Hi Hlt. apply H; lia.
  - destruct k as [|k]; cbn [seq map]; constructor. apply H; lia.
Qed.

(** NaN is absorbing in a running sum. *)
Lemma fold_add_nan l : forall acc,
  Np.is_nan acc = true -> Np.is_nan (fold_left PrimFloat.add l acc) = true.
Proof.
  induction l as [|x l IH]; intros acc H; [assumption|].
  cbn [fold_left]. apply IH, FloatFacts.add_nan. left. assumption.
Qed.

Lemma fold_add_nan_in l : forall acc x,
  In x l -> Np.is_nan x = true ->
  Np.is_nan (fold_left PrimFloat.add l acc) = true.
Proof.
  induction l as [|y l IH]; intros acc x Hin Hx; [destruct Hin|].
  cbn [fold_left]. destruct Hin as [->|Hin].
  - apply fold_add_nan, FloatFacts.add_nan. right. assumption.
  - exact (IH _ x Hin Hx).
Qed.

Lemma combine_seq_in {A} (l : list A) y : forall a,
  In y l -> exists i, In (i, y) (combine (seq a (length l)) l).
Proof.
  induction l as [|x l IH]; intros a Hin; [destruct Hin|].
  cbn [length seq combine]. destruct Hin as [->|Hin].
  - exists a. left. reflexivity.
  - destruct (IH (S a) Hin) as [i Hi]. exists i. right. assumption.
Qed.

Definition le_nan (a b : float) : Prop := (a <=? b) = true \/ Np.is_nan b = true.

Lemma insert_sorted_nan x l :
  Sorted le_nan l -> Sorted le_nan (Np.insert x l).
Proof.
  assert (T : forall y, Np.lt x y = true -> le_nan x y).
  { intros y H. unfold Np.lt in H. apply orb_true_iff in H as [H|H].
    - left. apply WealthFacts.ltb_leb. assumption.
    - right. apply andb_true_iff in H. apply H. }
  assert (F : forall y, Np.lt x y = false -> le_nan y x).
  { intros y H. unfold Np.lt in H. apply orb_false_iff in H as [H1 H2].
    destruct (Np.is_nan x) eqn:Nx; [right; exact Nx|].
    rewrite andb_true_r in H2.
    destruct (FloatFacts.ltb_or_leb x y Nx H2) as [L|L]; [congruence|left; exact L]. }
  intros Hs. induction Hs as [|y l Hs IH Hd]; cbn [Np.insert].
  - repeat constructor.
  - destruct (Np.lt x y) eqn:E.
    + constructor; [constructor; assumption|]. constructor. apply T, E.
    + constructor; [exact IH|].
      destruct l as [|z l]; cbn [Np.insert].
      * constructor. apply F, E.
      * destruct (Np.lt x z); constructor; [apply F, E|].
        inversion Hd; assumption.
Qed.

Lemma sort_from_sorted_nan a : forall acc,
  Sorted le_nan acc ->
  Sorted le_nan (fold_left (fun l x => Np.insert x l) a acc).
Proof.
  induction a as [|x a IH]; intros acc Hs; cbn [fold_left]; [assumption|].
  apply IH, insert_sorted_nan, Hs.
Qed.

(** The order of non-negative floats is transitive. *)
Lemma nonneg_leb_trans a b c :
  nonneg a -> (a <=? b) = true -> (b <=? c) = true -> (a <=? c) = true.
Proof.
  intros Ha Hab Hbc.
  pose proof (RollBias.nonneg_le a b Ha Hab) as Hb.
  pose proof (RollBias.nonneg_le b c Hb Hbc) as Hc.
  revert Hab Hbc. rewrite !leb_spec.
  destruct (nonneg_cases a Ha) as [[sa Ea]|[(ma & ae & Ea & _)|Ea]];
    destruct (nonneg_cases b Hb) as [[sb Eb]|[(mb & be & Eb & _)|Eb]];
    destruct (nonneg_cases c Hc) as [[sc Ec]|[(mc & ce & Ec & _)|Ec]];
    rewrite Ea, Eb, Ec; try reflexivity; try discriminate;
    try (intros; discriminate).
  rewrite !SFleb_finite. intros H1 H2.
  apply orb_true_iff in H1. apply orb_true_iff in H2.
  apply orb_true_iff.
  destruct H1 as [H1|H1], H2 as [H2|H2];
    rewrite ?andb_true_iff, ?Z.ltb_lt, ?Z.eqb_eq, ?Z.leb_le in *;
    try (left; lia); right; lia.
Qed.

Lemma sorted_below_last l : forall d,
  Forall nonneg l -> Sorted WealthFacts.le l ->
  Forall (fun y => (y <=? last l d) = true) l.
Proof.
  induction l as [|x l IH]; intros d Hn Hs; [constructor|].
  inversion Hn as [|? ? Hx Hl]; subst.
  inversion Hs as [|? ? Hs' Hd]; subst.
  destruct l as [|y l].
  - constructor; [|constructor]. cbn [last].
    destruct (nonneg_cases x Hx) as [[s E]|[(m & e & E & _)|E]];
      rewrite leb_spec, E; try reflexivity.
    + apply SFleb_refl_finite.
  - specialize (IH d Hl Hs').
    change (last (x :: y :: l) d) with (last (y :: l) d).
    constructor; [|exact IH].
    inversion Hd as [|? ? Hxy]; subst.
    inversion IH as [|? ? Hy _]; subst.
    exact (nonneg_leb_trans x y _ Hx Hxy Hy).
Qed.

Lemma cumsum_from_nonneg l : forall acc,
  nonneg acc -> Forall nonneg l -> Forall nonneg (Np.cumsum_from acc l).
Proof.
  induction l as [|v l IH]; intros acc Ha Hl; [constructor|].
  inversion Hl as [|? ? Hv Hl']; subst. cbn [Np.cumsum_from].
  assert (nonneg (acc + v)) by (apply add_nonneg; assumption).
  constructor; [assumption|]. apply IH; assumption.
Qed.

End Analytics.

(** X4.  The x-coordinates of the Lorenz curve do not decrease (for a
    wealth mapping of at least one agent). *)
Theorem lorenz_x_sorted (w : dict) :
  (0 < length w)%nat -> (Z.of_nat (length w) < 2 ^ 63)%Z ->
  Sorted (fun a b => (a <=? b) = true) (fst (Wealth.plot_lorenz_curve w)).
Proof.
  intros Hlen Hbig.
  assert (Hn : length (Wealth.sort_wealth w) = length w).
  { unfold Wealth.sort_wealth.
    rewrite (Permutation_length (WealthFacts.sort_perm (values w))).
    unfold values. apply length_map. }
  unfold Wealth.plot_lorenz_curve. cbn [fst length].
  rewrite length_map, WealthFacts.length_cumsum, Hn.
  replace (S (length w) - 1)%nat with (length w) by lia.
  destruct (WealthFacts.of_nat_finite (length w) Hlen Hbig) as (m & e & En).
  pose proof (FloatOrder.pos_fin_intro _ _ _ En) as Pn.
  apply (Analytics.sorted_map_seq
           (fun i => Np.of_nat i / Np.of_nat (length w))).
  intros i _ Hi. apply FloatOrder.div_mono_num; try assumption.
  - apply Analytics.of_nat_nonneg. lia.
  - apply Analytics.of_nat_nonneg. lia.
  - apply Analytics.of_nat_le; lia.
Qed.

(** X5.  A NaN balance makes the Gini coefficient a NaN; no exception is
    raised. *)
Theorem calc_gini_nan (w : dict) (v : float) :
  In v (values w) -> Np.is_nan v = true ->
  exists g, Wealth.calc_gini w = Ok g /\ Np.is_nan g = true.
Proof.
  intros Hin Hv. unfold Wealth.calc_gini.
  assert (Hk : length (keys w) = length w) by (unfold keys; apply length_map).
  rewrite Hk. destruct (Nat.eqb_spec (length w) 0) as [E0|_].
  { destruct w; [destruct Hin|discriminate]. }
  eexists. split; [reflexivity|].
  apply FloatFacts.sub_nan. left.
  apply FloatFacts.div_nan. left.
  apply FloatFacts.mul_nan. right.
  assert (Hs : In v (Wealth.sort_wealth w)).
  { apply (Permutation_in _ (Permutation_sym (WealthFacts.sort_perm (values w)))).
    assumption. }
  destruct (Analytics.combine_seq_in _ v 0%nat Hs) as [i Hi].
  unfold py_sum.
  apply (Analytics.fold_add_nan_in _ _ (Np.of_nat (i + 1) * v)).
  - apply (in_map (fun iy => Np.of_nat (fst iy + 1) * snd iy) _ (i, v)). exact Hi.
  - apply FloatFacts.mul_nan. right. assumption.
Qed.

(** X6.  [sort_wealth] returns a permutation of the balances in which
    every balance is followed by one that is not smaller or by a NaN:
    the numbers ascend and the NaNs come last. *)
Theorem sort_wealth_nan_last (w : dict) :
  Permutation (Wealth.sort_wealth w) (values w)
  /\ Sorted (fun a b => (a <=? b) = true \/ Np.is_nan b = true)
       (Wealth.sort_wealth w).
Proof.
  split; [apply WealthFacts.sort_perm|].
  apply (Analytics.sort_from_sorted_nan (values w) []). constructor.
Qed.

(** X7.  With fewer than 8 agents, no negative balance and a positive
    finite total, every y-coordinate of the Lorenz curve lies between 0
    and 1. *)
Theorem lorenz_y_unit_interval (w : dict) :
  (0 < length w < 8)%nat ->
  Forall (fun v => (0 <=? v) = true) (values w) ->
  (0 <? Np.sum (Wealth.sort_wealth w)) = true ->
  (Np.sum (Wealth.sort_wealth w) <? infinity) = true ->
  Forall (fun y => (0 <=? y) = true /\ (y <=? 1) = true)
    (snd (Wealth.plot_lorenz_curve w)).
Proof.
  intros [Hlen H8] Hpos Ht0 Htf.
  set (total := Np.sum (Wealth.sort_wealth w)) in *.
  assert (Pt : FloatOrder.pos_fin total) by (split; assumption).
  assert (Hperm : Permutation (Wealth.sort_wealth w) (values w))
    by apply WealthFacts.sort_perm.
  assert (Hn : length (Wealth.sort_wealth w) = length w).
  { rewrite (Permutation_length Hperm). unfold values. apply length_map. }
  assert (Hs : Forall FloatOrder.nonneg (Wealth.sort_wealth w)).
  { exact (Permutation_Forall (Permutation_sym Hperm) Hpos). }
  unfold Wealth.plot_lorenz_curve. cbn [snd]. fold total.
  destruct (Wealth.sort_wealth w) as [|s1 rest] eqn:Es;
    [cbn [length] in Hn; lia|].
  inversion Hs as [|? ? H1 Hr]; subst.
  cbn [Np.cumsum].
  set (ys := map (fun c => c / total) (s1 :: Np.cumsum_from s1 rest)).
  assert (Hsorted : Sorted WealthFacts.le ys)
    by (apply WealthFacts.shares_sorted; assumption).
  assert (Hnn : Forall FloatOrder.nonneg ys).
  { unfold ys. apply Forall_map.
    assert (Hc : Forall FloatOrder.nonneg (s1 :: Np.cumsum_from s1 rest)).
    { constructor; [assumption|].
      apply Analytics.cumsum_from_nonneg; assumption. }
    revert Hc. apply Forall_impl. intros c Hc.
    apply FloatOrder.div_nonneg; assumption. }
  assert (Hlast : last ys nan = 1).
  { unfold ys. rewrite (WealthFacts.last_map _ _ _ nan nan).
    change (s1 :: Np.cumsum_from s1 rest) with (Np.cumsum (s1 :: rest)).
    assert (Hnz : (total =? 0) = false).
    { apply FloatFacts.ltb_not_eqb in Ht0. rewrite FloatFacts.eqb_sym. exact Ht0. }
    assert (Hz : WealthFacts.zsim total (last (Np.cumsum (s1 :: rest)) nan)).
    { apply WealthFacts.sum_last_cumsum. rewrite Hn. assumption. }
    rewrite <- (WealthFacts.zsim_eq _ _ Hz Hnz).
    destruct (FloatOrder.pos_fin_cases total Pt) as (m & e & E & _).
    exact (FloatOrder.div_self _ _ _ _ E). }
  pose proof (Analytics.sorted_below_last ys nan Hnn Hsorted) as Hb.
  rewrite Hlast in Hb.
  constructor; [split; reflexivity|].
  apply Forall_forall. intros y Hy.
  rewrite Forall_forall in Hnn, Hb. split; [apply Hnn|apply Hb]; assumption.
Qed.

(** ** The engine *)

Import ExtendedYardSale.

Section EngineFacts.

Variable gen : Type.
Variable random_seed : Z -> gen.
Variable sample : gen -> list person -> nat -> list person * gen.
Variable choices : gen -> list Z -> list float -> option Z * gen.

Local Abbreviation state := (ExtendedYardSale.state gen).
Local Abbreviation M := (ExtendedYardSale.M gen).
Local Abbreviation __init__ := (ExtendedYardSale.__init__ gen random_seed).
Local Abbreviation random_sample := (ExtendedYardSale.random_sample gen sample).
Local Abbreviation random_choices := (ExtendedYardSale.random_choices gen choices).
Local Abbreviation _pair_people := (ExtendedYardSale._pair_people gen sample).
Local Abbreviation _roll_dice := (ExtendedYardSale._roll_dice gen choices).
Local Abbreviation perform_sale := (ExtendedYardSale.perform_sale gen sample choices).
Local Abbreviation run_loop := (ExtendedYardSale.run_loop gen sample choices).
Local Abbreviation run_yard_sale := (ExtendedYardSale.run_yard_sale gen sample choices).
Local Abbreviation rounds := (ExtendedYardSale.rounds gen sample choices).
Local Abbreviation construct := (ExtendedYardSale.construct gen random_seed).

(** *** Which exceptions a computation can raise *)

Definition builtin (e : exn) : Prop := forall msg, e <> Exception msg.

Definition raises_builtin {A} (c : M A) : Prop :=
  forall st e st', c st = (Raise e, st') -> builtin e.

Lemma raises_builtin_bind {A B} (c : M A) (k : A -> M B) :
  raises_builtin c -> (forall a, raises_builtin (k a)) -> raises_builtin (bind c k).
Proof.
  intros Hc Hk st e st'. unfold bind.
  destruct (c st) as [[a|e0] st0] eqn:E.
  - apply Hk.
  - intros H. inversion H; subst. eapply Hc; eauto.
Qed.

Lemma raises_builtin_total {A} (c : M A) :
  (forall st, exists a st', c st = (Ok a, st')) -> raises_builtin c.
Proof.
  intros H st e st' E. destruct (H st) as (a & st0 & E'). congruence.
Qed.

Lemma raises_builtin_lift {A} (r : result A) :
  (forall e, r = Raise e -> builtin e) -> raises_builtin (lift r).
Proof.
  intros H st e st' E. unfold lift in E. inversion E; subst. now apply H.
Qed.

Ltac total := apply raises_builtin_total; intros ?; eexists; eexists; reflexivity.

Lemma get_avg_wealth_builtin : raises_builtin (@get_avg_wealth gen).
Proof.
  intros st e st'. unfold get_avg_wealth.
  destruct (_avg_wealth (self st)); intros H; inversion H; subst.
  intros msg; discriminate.
Qed.

Lemma reshape2_builtin {A} fuel (l : list A) e : reshape2 fuel l = Raise e -> builtin e.
Proof.
  revert l. induction fuel as [|f IH]; intros l H.
  - destruct l as [|a [|b l']]; simpl in H; inversion H; intros msg; discriminate.
  - destruct l as [|a [|b l']]; simpl in H; try (inversion H; intros msg; discriminate).
    destruct (reshape2 f l') eqn:E; inversion H; subst. eapply IH; eauto.
Qed.

Lemma pair_wealth_builtin w p acc e : pair_wealth w p acc = Raise e -> builtin e.
Proof.
  revert acc. induction p as [|k p IH]; simpl; intros acc H; [discriminate|].
  destruct (dget w k); [eapply IH; eauto|].
  inversion H; intros msg; discriminate.
Qed.

Lemma pair_wealths_builtin w ps e : pair_wealths w ps = Raise e -> builtin e.
Proof.
  induction ps as [|p ps IH]; simpl; intros H; [discriminate|].
  destruct (pair_wealth w p []) eqn:E1.
  - destruct (pair_wealths w ps) eqn:E2; inversion H; subst. now apply IH.
  - inversion H; subst. eapply pair_wealth_builtin; eauto.
Qed.

Lemma weights_builtin z p e : weights z p = Raise e -> builtin e.
Proof.
  unfold weights. destruct (values p) as [|v0 [|v1 l]]; intros H; inversion H;
    intros msg; discriminate.
Qed.

Lemma exchange_pair_builtin win w p roll e :
  exchange_pair win w p roll = Raise e -> builtin e.
Proof.
  unfold exchange_pair. destruct p as [|[k0 v0] [|[k1 v1] rest]];
    try (intros H; inversion H; intros msg; discriminate).
  destruct (if v0 =? v1 then _ else _) as [poor rich].
  destruct (dget _ poor); [destruct (dget _ rich)|];
    intros H; inversion H; intros msg; discriminate.
Qed.

Lemma exchange_wealth_builtin win w ps rolls e :
  exchange_wealth win w ps rolls = Raise e -> builtin e.
Proof.
  revert w rolls. induction ps as [|p ps IH]; intros w rolls; simpl; [discriminate|].
  destruct rolls as [|roll rolls]; [discriminate|].
  destruct (exchange_pair win w p roll) eqn:E.
  - apply IH.
  - intros H; inversion H; subst. eapply exchange_pair_builtin; eauto.
Qed.

Lemma random_sample_builtin pop k : raises_builtin (random_sample pop k).
Proof.
  intros st e st'. unfold ExtendedYardSale.random_sample.
  destruct (length pop <? k)%nat.
  - intros H; inversion H; intros msg; discriminate.
  - destruct (sample (random st) pop k). discriminate.
Qed.

Lemma random_choices_builtin pop ws : raises_builtin (random_choices pop ws).
Proof.
  intros st e st'. unfold ExtendedYardSale.random_choices.
  destruct (choices (random st) pop ws) as [[r|] g]; intros H; inversion H.
  intros msg; discriminate.
Qed.

Lemma roll_dice_builtin ps : raises_builtin (_roll_dice ps).
Proof.
  induction ps as [|p ps IH]; simpl.
  - total.
  - apply raises_builtin_bind; [total|intros z].
    apply raises_builtin_bind; [apply raises_builtin_lift, weights_builtin|intros ws].
    apply raises_builtin_bind; [apply random_choices_builtin|intros roll].
    apply raises_builtin_bind; [exact IH|intros rolls]. total.
Qed.

Lemma perform_sale_builtin : raises_builtin perform_sale.
Proof.
  unfold ExtendedYardSale.perform_sale.
  apply raises_builtin_bind; [|intros _].
  { unfold _update_average_wealth. apply raises_builtin_bind; [total|intros w; total]. }
  apply raises_builtin_bind; [|intros _].
  { unfold _pay_tax. apply raises_builtin_bind; [total|intros w].
    apply raises_builtin_bind; [apply get_avg_wealth_builtin|intros avg].
    apply raises_builtin_bind; [total|intros c; total]. }
  apply raises_builtin_bind; [|intros ps].
  { unfold _loan_S. apply raises_builtin_bind; [total|intros w].
    apply raises_builtin_bind; [total|intros k].
    apply raises_builtin_bind; [apply get_avg_wealth_builtin|intros avg; total]. }
  apply raises_builtin_bind; [|intros ps'].
  { unfold ExtendedYardSale._pair_people. apply raises_builtin_bind; [total|intros w].
    apply raises_builtin_bind; [total|intros k].
    apply raises_builtin_bind; [apply random_sample_builtin|intros drawn].
    apply raises_builtin_bind; [apply raises_builtin_lift, reshape2_builtin|intros ids].
    apply raises_builtin_lift, pair_wealths_builtin. }
  apply raises_builtin_bind; [apply roll_dice_builtin|intros rolls].
  apply raises_builtin_bind; [|intros _].
  { unfold _exchange_wealth. apply raises_builtin_bind; [total|intros win].
    apply raises_builtin_bind; [apply raises_builtin_lift, exchange_wealth_builtin|intros w; total]. }
  unfold _collect_S. apply raises_builtin_bind; [total|intros w].
  apply raises_builtin_bind; [total|intros k].
  apply raises_builtin_bind; [apply get_avg_wealth_builtin|intros avg; total].
Qed.

Lemma run_loop_builtin k i plot_n plot ys : raises_builtin (run_loop k i plot_n plot ys).
Proof.
  revert i ys. induction k as [|k IH]; intros i ys; simpl.
  - total.
  - apply raises_builtin_bind; [apply perform_sale_builtin|intros _].
    apply raises_builtin_bind; [|intros _].
    { destruct (plot_n =? 0)%Z; [|total].
      intros st e st' H. inversion H. intros msg; discriminate. }
    apply raises_builtin_bind; [total|intros r]. apply IH.
Qed.

Definition plot_n_error : exn := Exception "plot_n needs to be lower than n".

(** C6: [run_yard_sale] raises its exception "plot_n needs to be lower
    than n" exactly when [plot] is true and [plot_n > n]; it is raised
    before any round runs, so the whole state (the wealth mapping, the
    generator) is as it was. *)
Theorem run_yard_sale_configuration_error :
  forall (plot_n : Z) (plot : bool) (st : state),
    (fst (run_yard_sale plot_n plot st) = Raise plot_n_error
     <-> plot = true /\ (n (self st) < plot_n)%Z)
    /\ (fst (run_yard_sale plot_n plot st) = Raise plot_n_error
        -> snd (run_yard_sale plot_n plot st) = st).
Proof.
  intros plot_n plot st.
  unfold ExtendedYardSale.run_yard_sale, bind, attr.
  destruct (plot && (n (self st) <? plot_n)%Z) eqn:Hc; simpl.
  - apply andb_true_iff in Hc. destruct Hc as [Hp Hn]. apply Z.ltb_lt in Hn.
    split; [|reflexivity]. split; auto.
  - assert (Hno : ~ (plot = true /\ (n (self st) < plot_n)%Z)).
    { intros [Hp Hn]. apply Z.ltb_lt in Hn. rewrite Hp, Hn in Hc. discriminate. }
    destruct (run_loop (Z.to_nat (n (self st))) 1%Z plot_n plot [] st)
      as [[ys|e] st1] eqn:E.
    + destruct plot; simpl; split; try split; try discriminate;
        intros H; exfalso; now apply Hno.
    + simpl. apply run_loop_builtin in E.
      split; [split; [|intros H; exfalso; now apply Hno]|];
        intros H; inversion H; subst; exfalso; eapply E; reflexivity.
Qed.


(** *** The store only grows *)

Definition grows {A} (c : M A) : Prop :=
  forall st r st', c st = (r, st') -> exists ext, heap st' = heap st ++ ext.

Lemma grows_bind {A B} (c : M A) (k : A -> M B) :
  grows c -> (forall a, grows (k a)) -> grows (bind c k).
Proof.
  intros Hc Hk st r st'. unfold bind.
  destruct (c st) as [[a|e] st0] eqn:E; intros H.
  - destruct (Hc _ _ _ E) as [e1 H1]. destruct (Hk _ _ _ _ H) as [e2 H2].
    exists (e1 ++ e2). now rewrite H2, H1, app_assoc.
  - inversion H; subst. eapply Hc; eauto.
Qed.

Lemma grows_same {A} (c : M A) :
  (forall st, heap (snd (c st)) = heap st) -> grows c.
Proof.
  intros H st r st' E. exists []. rewrite app_nil_r. specialize (H st).
  now rewrite E in H.
Qed.

Lemma grows_set_wealth d : grows (@set_wealth gen d).
Proof. intros st r st' E. inversion E; subst. simpl. eauto. Qed.

Ltac same := apply grows_same; intros ?; reflexivity.

Lemma grows_get_avg_wealth : grows (@get_avg_wealth gen).
Proof.
  apply grows_same. intros st. unfold get_avg_wealth.
  destruct (_avg_wealth (self st)); reflexivity.
Qed.

Lemma grows_random_sample pop k : grows (random_sample pop k).
Proof.
  apply grows_same. intros st. unfold ExtendedYardSale.random_sample.
  destruct (length pop <? k)%nat; [reflexivity|].
  destruct (sample (random st) pop k); reflexivity.
Qed.

Lemma grows_random_choices pop ws : grows (random_choices pop ws).
Proof.
  apply grows_same. intros st. unfold ExtendedYardSale.random_choices.
  destruct (choices (random st) pop ws) as [[r|] g]; reflexivity.
Qed.

Lemma grows_roll_dice ps : grows (_roll_dice ps).
Proof.
  induction ps as [|p ps IH]; simpl; [same|].
  apply grows_bind; [same|intros z].
  apply grows_bind; [same|intros ws].
  apply grows_bind; [apply grows_random_choices|intros roll].
  apply grows_bind; [exact IH|intros rolls; same].
Qed.

Lemma grows_perform_sale : grows perform_sale.
Proof.
  unfold ExtendedYardSale.perform_sale, _update_average_wealth, _pay_tax, _loan_S,
    ExtendedYardSale._pair_people, _exchange_wealth, _collect_S.
  repeat first
    [ apply grows_set_wealth | apply grows_get_avg_wealth | apply grows_random_sample
    | apply grows_roll_dice | same
    | apply grows_bind; [|intros ?] ].
Qed.

(** After a round, [self.wealth] refers to an object of the store. *)
Definition bound (st : state) : Prop := (wealth (self st) < length (heap st))%nat.

Definition binds {A} (c : M A) : Prop :=
  forall st a st', c st = (Ok a, st') -> bound st'.

Lemma binds_bind {A B} (c : M A) (k : A -> M B) :
  (forall a, binds (k a)) -> binds (bind c k).
Proof.
  intros Hk st b st'. unfold bind.
  destruct (c st) as [[a|e] st0]; [apply Hk|discriminate].
Qed.

Lemma binds_set_wealth d : binds (@set_wealth gen d).
Proof.
  intros st a st' E. inversion E; subst. unfold bound. simpl.
  rewrite length_app. simpl. lia.
Qed.

Lemma binds_perform_sale : binds perform_sale.
Proof.
  unfold ExtendedYardSale.perform_sale, _collect_S.
  repeat (apply binds_bind; intros ?). apply binds_set_wealth.
Qed.

(** *** The snapshots of [run_yard_sale] *)

(** The round numbers [i], [i+1], ... ([k] of them). *)
Definition Zrange (i : Z) (k : nat) : list Z :=
  map (fun t => (i + Z.of_nat t)%Z) (seq 0 k).

Lemma Zrange_S i k : Zrange i (S k) = i :: Zrange (i + 1) k.
Proof.
  unfold Zrange. simpl. rewrite Z.add_0_r. f_equal.
  rewrite <- seq_shift, map_map. apply map_ext. intros t. lia.
Qed.

Lemma Zrange_ge i k j : In j (Zrange i k) -> (i <= j)%Z.
Proof.
  unfold Zrange. rewrite in_map_iff. intros (t & <- & _). lia.
Qed.

Lemma Z_eqb_eq a b : Z.eqb a b = true <-> a = b.
Proof. apply Z.eqb_eq. Qed.

Lemma run_loop_snapshots plot_n :
  forall k i ys st h st',
    run_loop k i plot_n true ys st = (Ok h, st') ->
    (forall j, In j (map fst ys) -> (j < i)%Z) ->
    exists new,
      h = ys ++ new
      /\ map fst new = filter (fun j => (j mod plot_n =? 0)%Z) (Zrange i k)
      /\ (exists ext, heap st' = heap st ++ ext)
      /\ forall j r, In (j, r) new ->
           exists st_j,
             rounds (S (Z.to_nat (j - i))) st = (Ok tt, st_j)
             /\ deref (heap st') r = current_wealth st_j.
Proof.
  induction k as [|k IH]; intros i ys st h st' E Hlt.
  - simpl in E. inversion E; subst. exists []. rewrite app_nil_r.
    repeat split; auto.
    + exists []. now rewrite app_nil_r.
    + intros j r [].
  - simpl in E. unfold bind in E.
    destruct (perform_sale st) as [[[]|e] st1] eqn:E1; [|discriminate].
    destruct (plot_n =? 0)%Z eqn:Hz; [discriminate|]. simpl in E.
    pose proof (grows_perform_sale _ _ _ E1) as [ext1 Hext1].
    pose proof (binds_perform_sale _ _ _ E1) as Hb.
    set (r1 := wealth (self st1)) in *.
    rewrite Zrange_S. simpl filter.
    destruct (i mod plot_n =? 0)%Z eqn:Hm.
    + rewrite (set_fresh Z.eqb Z_eqb_eq) in E
        by (intros Hin; apply Hlt in Hin; lia).
      apply IH in E.
      * destruct E as (new & -> & Hkeys & [ext Hext] & Hsnap).
        exists ((i, r1) :: new). repeat split.
        -- now rewrite <- app_assoc.
        -- simpl. now rewrite Hkeys.
        -- exists (ext1 ++ ext). now rewrite Hext, Hext1, app_assoc.
        -- intros j r [Heq|Hin].
           ++ inversion Heq; subst j r. exists st1. rewrite Z.sub_diag. simpl.
              rewrite E1. split; [reflexivity|].
              unfold current_wealth, deref. rewrite Hext.
              apply app_nth1. exact Hb.
           ++ assert (Hj : (i + 1 <= j)%Z).
              { apply (Zrange_ge _ k). apply (in_map fst) in Hin. simpl in Hin.
                rewrite Hkeys in Hin. now apply filter_In in Hin. }
              destruct (Hsnap _ _ Hin) as (st_j & Hr & Hd).
              exists st_j. split; [|exact Hd].
              replace (Z.to_nat (j - i)) with (S (Z.to_nat (j - (i + 1)))) by lia.
              change (rounds (S (S (Z.to_nat (j - (i + 1))))) st)
                with (match perform_sale st with
                      | (Ok _, st0) => rounds (S (Z.to_nat (j - (i + 1)))) st0
                      | r0 => r0
                      end).
              now rewrite E1.
      * intros j Hin. rewrite map_app in Hin. apply in_app_or in Hin. simpl in Hin.
        destruct Hin as [Hin|[Heq|[]]]; [apply Hlt in Hin|]; lia.
    + apply IH in E.
      * destruct E as (new & -> & Hkeys & [ext Hext] & Hsnap).
        exists new. repeat split; auto.
        -- exists (ext1 ++ ext). now rewrite Hext, Hext1, app_assoc.
        -- intros j r Hin.
           assert (Hj : (i + 1 <= j)%Z).
           { apply (Zrange_ge _ k). apply (in_map fst) in Hin. simpl in Hin.
             rewrite Hkeys in Hin. now apply filter_In in Hin. }
           destruct (Hsnap _ _ Hin) as (st_j & Hr & Hd).
           exists st_j. split; [|exact Hd].
           replace (Z.to_nat (j - i)) with (S (Z.to_nat (j - (i + 1)))) by lia.
           change (rounds (S (S (Z.to_nat (j - (i + 1))))) st)
             with (match perform_sale st with
                   | (Ok _, st0) => rounds (S (Z.to_nat (j - (i + 1)))) st0
                   | r0 => r0
                   end).
           now rewrite E1.
      * intros j Hin. apply Hlt in Hin. lia.
Qed.

(** C7, as the code has it: a successful [run_yard_sale] with [plot]
    true returns a history whose keys are exactly the round numbers
    [1..n] that are multiples of [plot_n], each once and in order, and
    the dictionary stored under round [i] is the wealth mapping as it
    stood after [i] rounds (later rounds build new dictionaries and leave
    it alone); with [plot] false it returns [None], not an empty
    history. *)
Theorem run_yard_sale_history :
  forall (plot_n : Z) (plot : bool) (st : state) h st',
    run_yard_sale plot_n plot st = (Ok h, st') ->
    if plot then
      exists ys,
        h = Some ys
        /\ map fst ys
           = filter (fun i => (i mod plot_n =? 0)%Z) (Zrange 1 (Z.to_nat (n (self st))))
        /\ forall i r, In (i, r) ys ->
             exists st_i,
               rounds (Z.to_nat i) st = (Ok tt, st_i)
               /\ deref (heap st') r = current_wealth st_i
    else h = None.
Proof.
  intros plot_n plot st h st' E.
  unfold ExtendedYardSale.run_yard_sale, bind, attr in E.
  destruct (plot && (n (self st) <? plot_n)%Z); [discriminate|]. simpl in E.
  destruct (run_loop (Z.to_nat (n (self st))) 1%Z plot_n plot [] st)
    as [[ys|e] st1] eqn:E1; [|discriminate].
  destruct plot; inversion E; subst; [|reflexivity].
  apply run_loop_snapshots in E1; [|intros j []].
  destruct E1 as (new & -> & Hkeys & _ & Hsnap). simpl.
  exists new. repeat split; auto.
  intros i r Hin.
  assert (Hi : (1 <= i)%Z).
  { apply (Zrange_ge _ (Z.to_nat (n (self st)))). apply (in_map fst) in Hin.
    simpl in Hin. rewrite Hkeys in Hin. now apply filter_In in Hin. }
  destruct (Hsnap _ _ Hin) as (st_i & Hr & Hd). exists st_i. split; [|exact Hd].
  replace (Z.to_nat i) with (S (Z.to_nat (i - 1))) by lia. exact Hr.
Qed.

(** *** Settlement of the exchanges *)

Lemma string_eqb_eq a b : String.eqb a b = true <-> a = b.
Proof. apply String.eqb_eq. Qed.

Lemma dget_dset_same d k v : dget (dset d k v) k = Some v.
Proof. apply (get_set_same String.eqb string_eqb_eq). Qed.

Lemma dget_dset_other d k k' v : k <> k' -> dget (dset d k v) k' = dget d k'.
Proof. apply (get_set_other String.eqb string_eqb_eq). Qed.

(** The two balances a pair's exchange assigns: the poor agent's and the
    rich agent's. *)
Definition poor_new (win_percentage v0 v1 : float) (roll : Z) (old : float) : float :=
  Np.round (old + Np.of_Z (2 * roll - 1) * (min2 v0 v1 * win_percentage)) 2.

Definition rich_new (win_percentage v0 v1 : float) (roll : Z) (old : float) : float :=
  Np.round (old - Np.of_Z (2 * roll - 1) * (min2 v0 v1 * win_percentage)) 2.

Lemma rich_new_code win v0 v1 roll old :
  roll = 0%Z \/ roll = 1%Z ->
  Np.round (old + Np.of_Z (1 - 2 * roll) * (min2 v0 v1 * win)) 2
  = rich_new win v0 v1 roll old.
Proof.
  unfold rich_new. intros [-> | ->]; f_equal.
  - change (Np.of_Z (1 - 2 * 0)) with (- Np.of_Z (2 * 0 - 1)).
    apply FloatFacts.add_opp_mul.
  - change (Np.of_Z (1 - 2 * 1)) with (- Np.of_Z (2 * 1 - 1)).
    apply FloatFacts.add_opp_mul.
Qed.

(** Who is poor and who is rich in a pair of two. *)
Definition poor_rich (k0 : person) (v0 : float) (k1 : person) (v1 : float)
  : person * person :=
  if v0 =? v1 then (k0, k1)
  else (if v1 <? v0 then k1 else k0, if v0 <? v1 then k1 else k0).

Lemma exchange_pair_two win w k0 v0 k1 v1 roll :
  k0 <> k1 ->
  roll = 0%Z \/ roll = 1%Z ->
  exchange_pair win w [(k0, v0); (k1, v1)] roll =
    let (poor, rich) := poor_rich k0 v0 k1 v1 in
    let old k := if String.eqb k k0 then v0 else v1 in
    Ok (dset (dset w poor (poor_new win v0 v1 roll (old poor)))
             rich (rich_new win v0 v1 roll (old rich))).
Proof.
  intros Hne Hroll. unfold exchange_pair, poor_rich. simpl argmin. simpl argmax.
  simpl min_list. fold (min2 v0 v1).
  assert (H00 : dget [(k0, v0); (k1, v1)] k0 = Some v0).
  { unfold dget. simpl. now rewrite String.eqb_refl. }
  assert (H11 : dget [(k0, v0); (k1, v1)] k1 = Some v1).
  { unfold dget. simpl. rewrite (proj2 (String.eqb_neq k1 k0)) by congruence.
    now rewrite String.eqb_refl. }
  assert (E10 : String.eqb k1 k0 = false) by (apply String.eqb_neq; congruence).
  pose proof (rich_new_code win v0 v1 roll v0 Hroll) as R0.
  pose proof (rich_new_code win v0 v1 roll v1 Hroll) as R1.
  destruct (v0 =? v1).
  - rewrite H00, H11, String.eqb_refl, E10. now rewrite R1.
  - destruct (v1 <? v0), (v0 <? v1); cbv beta iota; cbn [fst snd];
      rewrite ?H00, ?H11, ?String.eqb_refl, ?E10, ?R0, ?R1; reflexivity.
Qed.

Lemma poor_rich_in k0 v0 k1 v1 :
  (fst (poor_rich k0 v0 k1 v1) = k0 \/ fst (poor_rich k0 v0 k1 v1) = k1)
  /\ (snd (poor_rich k0 v0 k1 v1) = k0 \/ snd (poor_rich k0 v0 k1 v1) = k1).
Proof.
  unfold poor_rich. destruct (v0 =? v1), (v1 <? v0), (v0 <? v1); simpl; auto.
Qed.

Lemma poor_rich_cases k0 v0 k1 v1 :
  ((v0 <? v1) = true -> poor_rich k0 v0 k1 v1 = (k0, k1))
  /\ ((v1 <? v0) = true -> poor_rich k0 v0 k1 v1 = (k1, k0))
  /\ ((v0 =? v1) = true -> poor_rich k0 v0 k1 v1 = (k0, k1)).
Proof.
  unfold poor_rich. repeat split; intros H.
  - rewrite (FloatFacts.ltb_not_eqb _ _ H), (FloatFacts.ltb_asym _ _ H), H. reflexivity.
  - pose proof (FloatFacts.ltb_not_eqb _ _ H) as E. rewrite FloatFacts.eqb_sym in E.
    rewrite E, (FloatFacts.ltb_asym _ _ H), H. reflexivity.
  - now rewrite H.
Qed.

(** Each pair is two entries. *)
Definition two_entries (p : dict) : Prop :=
  exists k0 v0 k1 v1, p = [(k0, v0); (k1, v1)].

Lemma exchange_wealth_frame win :
  forall pairs rolls w,
    Forall two_entries pairs ->
    NoDup (concat (map keys pairs)) ->
    length rolls = length pairs ->
    Forall (fun r => r = 0%Z \/ r = 1%Z) rolls ->
    exists w',
      exchange_wealth win w pairs rolls = Ok w'
      /\ forall k, ~ In k (concat (map keys pairs)) -> dget w' k = dget w k.
Proof.
  induction pairs as [|p pairs IH]; intros rolls w Hshape Hnd Hlen Hrolls.
  - exists w. split; [reflexivity|auto].
  - destruct rolls as [|roll rolls]; [discriminate|].
    inversion Hshape as [|? ? (k0 & v0 & k1 & v1 & ->) Hshape']; subst.
    inversion Hrolls as [|? ? Hroll Hrolls']; subst.
    simpl in Hnd.
    assert (Hne : k0 <> k1).
    { inversion Hnd as [|? ? Hnot _]; subst. intros ->. apply Hnot. now left. }
    assert (Hnd' : NoDup (concat (map keys pairs))).
    { inversion Hnd as [|? ? _ H1]; subst. now inversion H1. }
    cbn [exchange_wealth]. rewrite (exchange_pair_two win w k0 v0 k1 v1 roll Hne Hroll).
    destruct (poor_rich k0 v0 k1 v1) as [poor rich] eqn:Epr.
    destruct (IH rolls (dset (dset w poor (poor_new win v0 v1 roll
                (if String.eqb poor k0 then v0 else v1)))
                rich (rich_new win v0 v1 roll (if String.eqb rich k0 then v0 else v1)))
              Hshape' Hnd') as (w' & Hw' & Hframe); [simpl in Hlen; lia|assumption|].
    exists w'. split; [exact Hw'|].
    intros k Hk. rewrite Hframe by (intros Hin; apply Hk; simpl; auto).
    pose proof (poor_rich_in k0 v0 k1 v1) as [Hp Hr]. rewrite Epr in Hp, Hr.
    simpl in Hp, Hr, Hk.
    rewrite !dget_dset_other; [reflexivity| |]; intros ->; apply Hk;
      destruct Hp, Hr; subst; auto.
Qed.

Lemma exchange_wealth_from (win_percentage : float) :
  forall (pairs : list dict) (start : dict) (rolls : list Z),
    Forall two_entries pairs ->
    NoDup (concat (map keys pairs)) ->
    length rolls = length pairs ->
    Forall (fun r => r = 0%Z \/ r = 1%Z) rolls ->
    exists wealth,
      exchange_wealth win_percentage start pairs rolls = Ok wealth
      /\ forall i k0 v0 k1 v1 roll,
           nth_error pairs i = Some [(k0, v0); (k1, v1)] ->
           nth_error rolls i = Some roll ->
           ((v0 <? v1) = true ->
            dget wealth k0 = Some (poor_new win_percentage v0 v1 roll v0)
            /\ dget wealth k1 = Some (rich_new win_percentage v0 v1 roll v1))
           /\ ((v1 <? v0) = true ->
               dget wealth k1 = Some (poor_new win_percentage v0 v1 roll v1)
               /\ dget wealth k0 = Some (rich_new win_percentage v0 v1 roll v0))
           /\ ((v0 =? v1) = true ->
               dget wealth k0 = Some (poor_new win_percentage v0 v1 roll v0)
               /\ dget wealth k1 = Some (rich_new win_percentage v0 v1 roll v1)).
Proof.
  rename win_percentage into win. intros pairs.
  induction pairs as [|p pairs IH]; intros w rolls Hshape Hnd Hlen Hrolls.
  - exists w. split; [reflexivity|]. intros [|i]; discriminate.
  - destruct rolls as [|roll rolls]; [discriminate|].
    inversion Hshape as [|? ? (k0 & v0 & k1 & v1 & ->) Hshape']; subst.
    inversion Hrolls as [|? ? Hroll Hrolls']; subst.
    simpl in Hnd.
    assert (Hne : k0 <> k1).
    { inversion Hnd as [|? ? Hnot _]; subst. intros ->. apply Hnot. now left. }
    assert (Hnd' : NoDup (concat (map keys pairs))).
    { inversion Hnd as [|? ? _ H1]; subst. now inversion H1. }
    assert (Hk0 : ~ In k0 (concat (map keys pairs))).
    { inversion Hnd as [|? ? Hnot _]; subst. intros Hin. apply Hnot. now right. }
    assert (Hk1 : ~ In k1 (concat (map keys pairs))).
    { inversion Hnd as [|? ? _ H1]; subst. now inversion H1. }
    cbn [exchange_wealth]. rewrite (exchange_pair_two win w k0 v0 k1 v1 roll Hne Hroll).
    destruct (poor_rich k0 v0 k1 v1) as [poor rich] eqn:Epr.
    cbv beta iota zeta.
    match goal with |- context [exchange_wealth win ?X pairs rolls] => set (d := X) end.
    assert (Hd :
      ((v0 <? v1) = true ->
            dget d k0 = Some (poor_new win v0 v1 roll v0)
            /\ dget d k1 = Some (rich_new win v0 v1 roll v1))
      /\ ((v1 <? v0) = true ->
            dget d k1 = Some (poor_new win v0 v1 roll v1)
            /\ dget d k0 = Some (rich_new win v0 v1 roll v0))
      /\ ((v0 =? v1) = true ->
            dget d k0 = Some (poor_new win v0 v1 roll v0)
            /\ dget d k1 = Some (rich_new win v0 v1 roll v1))).
    { assert (E10 : String.eqb k1 k0 = false) by (apply String.eqb_neq; congruence).
      pose proof (poor_rich_cases k0 v0 k1 v1) as (C01 & C10 & Ceq).
      subst d. split; [|split]; intros Hc;
        [apply C01 in Hc|apply C10 in Hc|apply Ceq in Hc];
        rewrite Epr in Hc; inversion Hc; subst poor rich;
        rewrite ?String.eqb_refl, ?E10; split;
        first [ apply dget_dset_same
              | rewrite dget_dset_other by congruence; apply dget_dset_same ]. }
    clearbody d.
    destruct (exchange_wealth_frame win pairs rolls d Hshape' Hnd')
      as (w' & Hw' & Hframe); [simpl in Hlen; lia|assumption|].
    destruct (IH d rolls Hshape' Hnd') as (w'' & Hw'' & Hrest);
      [simpl in Hlen; lia|assumption|].
    assert (w'' = w') by congruence. subst w''.
    exists w'. split; [exact Hw'|].
    intros [|i] k0' v0' k1' v1' roll' Hp Hr.
    + simpl in Hp, Hr. inversion Hp; inversion Hr; subst.
      rewrite !Hframe by assumption. exact Hd.
    + simpl in Hp, Hr. eapply Hrest; eauto.
Qed.

(** C4: in [_exchange_wealth] every pair exchanges
    [min(pair balances) * win_percentage]; with the roll [0] (the richer
    wins) or [1] (the poorer wins), the poorer agent's balance becomes
    [old + (2 roll - 1) * exchange_amount] and the richer agent's
    [old - (2 roll - 1) * exchange_amount], both rounded to two decimals;
    of two equal balances the first-listed is the poor one. *)
Theorem exchange_wealth_settlement :
  forall (win_percentage : float) (pairs : list dict) (rolls : list Z),
    Forall two_entries pairs ->
    NoDup (concat (map keys pairs)) ->
    length rolls = length pairs ->
    Forall (fun r => r = 0%Z \/ r = 1%Z) rolls ->
    exists wealth,
      exchange_wealth win_percentage [] pairs rolls = Ok wealth
      /\ forall i k0 v0 k1 v1 roll,
           nth_error pairs i = Some [(k0, v0); (k1, v1)] ->
           nth_error rolls i = Some roll ->
           ((v0 <? v1) = true ->
            dget wealth k0 = Some (poor_new win_percentage v0 v1 roll v0)
            /\ dget wealth k1 = Some (rich_new win_percentage v0 v1 roll v1))
           /\ ((v1 <? v0) = true ->
               dget wealth k1 = Some (poor_new win_percentage v0 v1 roll v1)
               /\ dget wealth k0 = Some (rich_new win_percentage v0 v1 roll v0))
           /\ ((v0 =? v1) = true ->
               dget wealth k0 = Some (poor_new win_percentage v0 v1 roll v0)
               /\ dget wealth k1 = Some (rich_new win_percentage v0 v1 roll v1)).
Proof.
  intros. now apply exchange_wealth_from.
Qed.

(** *** One round, phase by phase *)

Lemma deref_last h d : deref (h ++ [d]) (length h) = d.
Proof. unfold deref. now rewrite nth_middle. Qed.

(** The rolls [_roll_dice] returns come from [random.choices], one per
    pair, drawn with the pair's weights. *)
Inductive rolled (zeta : float) : list dict -> list Z -> Prop :=
| rolled_nil : rolled zeta [] []
| rolled_cons p ps roll rolls ws g g' :
    weights zeta p = Ok ws ->
    choices g [0%Z; 1%Z] ws = (Some roll, g') ->
    rolled zeta ps rolls ->
    rolled zeta (p :: ps) (roll :: rolls).

Lemma roll_dice_frame ps :
  forall st r st', _roll_dice ps st = (r, st') -> heap st' = heap st /\ self st' = self st.
Proof.
  induction ps as [|p ps IH]; intros st r st' E; simpl in E.
  - inversion E; subst. auto.
  - unfold bind, attr, lift in E.
    destruct (weights (zeta (self st)) p) as [ws|e]; [|inversion E; subst; auto].
    unfold ExtendedYardSale.random_choices in E.
    destruct (choices (random st) [0%Z; 1%Z] ws) as [[roll|] g]; [|inversion E; subst; auto].
    match type of E with
    | context [_roll_dice ps ?S] => destruct (_roll_dice ps S) as [[rolls|e] st1] eqn:E1
    end; inversion E; subst; apply IH in E1; simpl in E1; exact E1.
Qed.

Lemma roll_dice_rolled ps :
  forall st rolls st', _roll_dice ps st = (Ok rolls, st') -> rolled (zeta (self st)) ps rolls.
Proof.
  induction ps as [|p ps IH]; intros st rolls st' E; simpl in E.
  - inversion E; subst. constructor.
  - unfold bind, attr, lift in E.
    destruct (weights (zeta (self st)) p) as [ws|e] eqn:Ew; [|discriminate].
    unfold ExtendedYardSale.random_choices in E.
    destruct (choices (random st) [0%Z; 1%Z] ws) as [[roll|] g] eqn:Ec; [|discriminate].
    match type of E with
    | context [_roll_dice ps ?S] => destruct (_roll_dice ps S) as [[rolls'|e] st1] eqn:E1
    end; inversion E; subst.
    apply IH in E1. simpl in E1. econstructor; eauto.
Qed.

(** What a successful round computes. *)
Inductive round_trace (st st' : state) : Prop :=
| Round_trace (avg : float) (drawn : list person) (g' : gen)
    (pair_ids : list (list person)) (pairs : list dict) (rolls : list Z)
    (exchanged : dict) :
    let taxed := pay_tax (chi (self st)) avg (current_wealth st) in
    let loaned := loan_S (kappa (self st)) avg taxed in
    avg = Np.mean (values (current_wealth st)) ->
    (_n_people (self st) <= length (keys loaned))%nat ->
    sample (random st) (keys loaned) (_n_people (self st)) = (drawn, g') ->
    reshape2 (length drawn) drawn = Ok pair_ids ->
    pair_wealths loaned pair_ids = Ok pairs ->
    rolled (zeta (self st)) pairs rolls ->
    exchange_wealth (win_percentage (self st)) [] pairs rolls = Ok exchanged ->
    current_wealth st' = collect_S (kappa (self st)) avg exchanged ->
    _n_people (self st') = _n_people (self st) ->
    win_percentage (self st') = win_percentage (self st)
    /\ chi (self st') = chi (self st)
    /\ zeta (self st') = zeta (self st)
    /\ kappa (self st') = kappa (self st)
    /\ n (self st') = n (self st) ->
    round_trace st st'.

(** The state after [self.wealth = d] and after [self._avg_wealth = a]. *)
Definition push (d : dict) (st : state) : state := snd (set_wealth d st).
Definition with_avg (a : float) (st : state) : state := snd (set_avg_wealth a st).

Lemma current_wealth_push d st : current_wealth (push d st) = d.
Proof. unfold current_wealth, push. simpl. apply deref_last. Qed.

Lemma current_wealth_with_avg a st : current_wealth (with_avg a st) = current_wealth st.
Proof. reflexivity. Qed.

Lemma update_average_wealth_run st :
  _update_average_wealth st
  = (Ok tt, with_avg (Np.mean (values (current_wealth st))) st).
Proof. reflexivity. Qed.

Lemma pay_tax_run st a :
  _avg_wealth (self st) = Some a ->
  _pay_tax st = (Ok tt, push (pay_tax (chi (self st)) a (current_wealth st)) st).
Proof.
  intros H. unfold _pay_tax, bind, get_wealth, get_avg_wealth, attr. now rewrite H.
Qed.

Lemma loan_S_run st a :
  _avg_wealth (self st) = Some a ->
  _loan_S st = (Ok tt, push (loan_S (kappa (self st)) a (current_wealth st)) st).
Proof.
  intros H. unfold _loan_S, bind, get_wealth, get_avg_wealth, attr. now rewrite H.
Qed.

Lemma collect_S_run st a :
  _avg_wealth (self st) = Some a ->
  _collect_S st = (Ok tt, push (collect_S (kappa (self st)) a (current_wealth st)) st).
Proof.
  intros H. unfold _collect_S, bind, get_wealth, get_avg_wealth, attr. now rewrite H.
Qed.

Lemma bind_ok {A B} (c : M A) (k : A -> M B) st b st' :
  bind c k st = (Ok b, st') ->
  exists a st1, c st = (Ok a, st1) /\ k a st1 = (Ok b, st').
Proof.
  unfold bind. destruct (c st) as [[a|e] st1]; [eauto|discriminate].
Qed.

Lemma pair_people_ok st pairs st' :
  _pair_people st = (Ok pairs, st') ->
  exists drawn pair_ids,
    (_n_people (self st) <= length (keys (current_wealth st)))%nat
    /\ sample (random st) (keys (current_wealth st)) (_n_people (self st))
       = (drawn, random st')
    /\ reshape2 (length drawn) drawn = Ok pair_ids
    /\ pair_wealths (current_wealth st) pair_ids = Ok pairs
    /\ heap st' = heap st /\ self st' = self st.
Proof.
  unfold ExtendedYardSale._pair_people, bind, get_wealth, attr,
    ExtendedYardSale.random_sample, lift.
  fold (current_wealth st).
  destruct (length (keys (current_wealth st)) <? _n_people (self st))%nat eqn:El;
    [discriminate|].
  destruct (sample (random st) (keys (current_wealth st)) (_n_people (self st)))
    as [dr g1] eqn:Es.
  destruct (reshape2 (length dr) dr) as [ids|e] eqn:Er; [|discriminate].
  destruct (pair_wealths (current_wealth st) ids) as [ps|e] eqn:Ep; [|discriminate].
  intros H. inversion H; subst. exists dr, ids. apply Nat.ltb_ge in El. simpl.
  repeat split; auto.
Qed.

Lemma exchange_wealth_ok ps rs st st' :
  _exchange_wealth ps rs st = (Ok tt, st') ->
  exists wx,
    exchange_wealth (win_percentage (self st)) [] ps rs = Ok wx /\ st' = push wx st.
Proof.
  unfold _exchange_wealth, bind, attr, lift.
  destruct (exchange_wealth (win_percentage (self st)) [] ps rs) as [wx|e];
    [|discriminate].
  intros H. inversion H. eauto.
Qed.

Lemma perform_sale_trace st st' :
  perform_sale st = (Ok tt, st') -> round_trace st st'.
Proof.
  unfold ExtendedYardSale.perform_sale. intros H.
  apply bind_ok in H. destruct H as ([] & s1 & H1 & H).
  rewrite update_average_wealth_run in H1. inversion H1; subst s1; clear H1.
  set (a := Np.mean (values (current_wealth st))) in *.
  apply bind_ok in H. destruct H as ([] & s2 & H2 & H).
  rewrite (pay_tax_run _ a) in H2 by reflexivity. inversion H2; subst s2; clear H2.
  apply bind_ok in H. destruct H as ([] & s3 & H3 & H).
  rewrite (loan_S_run _ a) in H3 by reflexivity. inversion H3; subst s3; clear H3.
  rewrite current_wealth_push in H.
  apply bind_ok in H. destruct H as (ps & s4 & H4 & H).
  apply pair_people_ok in H4.
  destruct H4 as (dr & ids & Hen & Hs & Hr & Hp & Hh4 & Hs4).
  rewrite current_wealth_push in Hen, Hs, Hp.
  apply bind_ok in H. destruct H as (rs & s5 & H5 & H).
  pose proof (roll_dice_frame _ _ _ _ H5) as [Hh5 Hs5].
  apply roll_dice_rolled in H5. rewrite Hs4 in H5.
  apply bind_ok in H. destruct H as ([] & s6 & H6 & H).
  apply exchange_wealth_ok in H6. destruct H6 as (wx & Hx & ->).
  rewrite Hs5, Hs4 in Hx.
  rewrite (collect_S_run _ a) in H
    by (unfold push; simpl; rewrite Hs5, Hs4; reflexivity).
  inversion H; subst st'; clear H.
  rewrite current_wealth_push.
  eapply (Round_trace st _ a dr (random s4) ids ps rs wx); eauto.
  - rewrite current_wealth_push. simpl. rewrite Hs5, Hs4. reflexivity.
  - unfold push. simpl. rewrite Hs5, Hs4. reflexivity.
  - unfold push. simpl. rewrite Hs5, Hs4. simpl. repeat split; reflexivity.
Qed.

(** *** Determinism *)

(** The wealth mapping after [k] rounds of an engine, from the result of
    its construction. *)
Definition wealth_after (r : result state) (k : nat) : result dict :=
  match r with
  | Raise e => Raise e
  | Ok st =>
      match rounds k st with
      | (Ok _, st') => Ok (current_wealth st')
      | (Raise e, _) => Raise e
      end
  end.

(** Two program states whose engines are alike: the same wealth mapping,
    the same attributes, the generator in the same state.  The stores,
    and so the address of the wealth mapping, may differ. *)
Definition same_engine (s1 s2 : state) : Prop :=
  current_wealth s1 = current_wealth s2
  /\ random s1 = random s2
  /\ win_percentage (self s1) = win_percentage (self s2)
  /\ chi (self s1) = chi (self s2)
  /\ zeta (self s1) = zeta (self s2)
  /\ kappa (self s1) = kappa (self s2)
  /\ n (self s1) = n (self s2)
  /\ _n_people (self s1) = _n_people (self s2)
  /\ _avg_wealth (self s1) = _avg_wealth (self s2).

(** A computation that does the same on engines that are alike. *)
Definition agree {A} (c : M A) : Prop :=
  forall s1 s2, same_engine s1 s2 ->
    fst (c s1) = fst (c s2) /\ same_engine (snd (c s1)) (snd (c s2)).

Lemma agree_bind {A B} (c : M A) (k : A -> M B) :
  agree c -> (forall a, agree (k a)) -> agree (bind c k).
Proof.
  intros Hc Hk s1 s2 H. unfold bind.
  destruct (Hc s1 s2 H) as [Hr Hs].
  destruct (c s1) as [r1 t1], (c s2) as [r2 t2]. simpl in Hr, Hs. subst r2.
  destruct r1 as [a|e]; [now apply Hk|]. split; [reflexivity|exact Hs].
Qed.

Lemma agree_pure {A} (r : result A) : agree (lift r).
Proof. intros s1 s2 H. split; [reflexivity|exact H]. Qed.

Lemma agree_get_wealth : agree (@get_wealth gen).
Proof. intros s1 s2 H. split; [|exact H]. simpl. f_equal. apply H. Qed.

Lemma agree_set_wealth d : agree (@set_wealth gen d).
Proof.
  intros s1 s2 H. split; [reflexivity|].
  fold (push d s1). fold (push d s2).
  unfold same_engine. rewrite !current_wealth_push.
  unfold same_engine in H. unfold push. simpl. tauto.
Qed.

Lemma agree_get_avg_wealth : agree (@get_avg_wealth gen).
Proof.
  intros s1 s2 H. unfold get_avg_wealth.
  assert (E : _avg_wealth (self s1) = _avg_wealth (self s2)) by apply H.
  rewrite <- E. destruct (_avg_wealth (self s1)); split; auto.
Qed.

Lemma agree_set_avg_wealth a : agree (@set_avg_wealth gen a).
Proof.
  intros s1 s2 H. split; [reflexivity|].
  unfold same_engine in *. simpl.
  change (current_wealth s1 = current_wealth s2 /\ random s1 = random s2
          /\ win_percentage (self s1) = win_percentage (self s2)
          /\ chi (self s1) = chi (self s2)
          /\ zeta (self s1) = zeta (self s2)
          /\ kappa (self s1) = kappa (self s2)
          /\ n (self s1) = n (self s2)
          /\ _n_people (self s1) = _n_people (self s2)
          /\ Some a = Some a).
  tauto.
Qed.

(** Reading an attribute other than the reference [wealth]. *)
Definition plain_attr {A} (f : obj -> A) : Prop :=
  forall s1 s2 : state, same_engine s1 s2 -> f (self s1) = f (self s2).

Lemma agree_attr {A} (f : obj -> A) : plain_attr f -> agree (attr f).
Proof. intros Hf s1 s2 H. split; [|exact H]. simpl. f_equal. now apply Hf. Qed.

Ltac plain := apply agree_attr; intros ? ? ?; unfold same_engine in *; tauto.

Lemma agree_random_sample pop k : agree (random_sample pop k).
Proof.
  intros s1 s2 H. unfold ExtendedYardSale.random_sample.
  destruct (length pop <? k)%nat; [split; [reflexivity|exact H]|].
  assert (E : random s1 = random s2) by apply H. rewrite <- E.
  destruct (sample (random s1) pop k) as [l g]. split; [reflexivity|].
  unfold same_engine in *. simpl.
  change (current_wealth s1 = current_wealth s2 /\ g = g
          /\ win_percentage (self s1) = win_percentage (self s2)
          /\ chi (self s1) = chi (self s2)
          /\ zeta (self s1) = zeta (self s2)
          /\ kappa (self s1) = kappa (self s2)
          /\ n (self s1) = n (self s2)
          /\ _n_people (self s1) = _n_people (self s2)
          /\ _avg_wealth (self s1) = _avg_wealth (self s2)).
  tauto.
Qed.

Lemma agree_random_choices pop ws : agree (random_choices pop ws).
Proof.
  intros s1 s2 H. unfold ExtendedYardSale.random_choices.
  assert (E : random s1 = random s2) by apply H. rewrite <- E.
  destruct (choices (random s1) pop ws) as [r g].
  assert (Hs : same_engine {| heap := heap s1; random := g; self := self s1 |}
                           {| heap := heap s2; random := g; self := self s2 |}).
  { unfold same_engine in *.
    change (current_wealth s1 = current_wealth s2 /\ g = g
            /\ win_percentage (self s1) = win_percentage (self s2)
            /\ chi (self s1) = chi (self s2)
            /\ zeta (self s1) = zeta (self s2)
            /\ kappa (self s1) = kappa (self s2)
            /\ n (self s1) = n (self s2)
            /\ _n_people (self s1) = _n_people (self s2)
            /\ _avg_wealth (self s1) = _avg_wealth (self s2)).
    tauto. }
  destruct r; split; auto.
Qed.

Lemma agree_roll_dice ps : agree (_roll_dice ps).
Proof.
  induction ps as [|p ps IH]; cbn [ExtendedYardSale._roll_dice].
  - intros s1 s2 H. split; [reflexivity|exact H].
  - apply agree_bind; [plain|]. intros z.
    apply agree_bind; [apply agree_pure|]. intros ws.
    apply agree_bind; [apply agree_random_choices|]. intros roll.
    apply agree_bind; [exact IH|]. intros rolls.
    intros s1 s2 H. split; [reflexivity|exact H].
Qed.

Lemma agree_perform_sale : agree perform_sale.
Proof.
  unfold ExtendedYardSale.perform_sale.
  apply agree_bind.
  { apply agree_bind; [apply agree_get_wealth|]. intros w. apply agree_set_avg_wealth. }
  intros _. apply agree_bind.
  { apply agree_bind; [apply agree_get_wealth|]. intros w.
    apply agree_bind; [apply agree_get_avg_wealth|]. intros a.
    apply agree_bind; [plain|]. intros c. apply agree_set_wealth. }
  intros _. apply agree_bind.
  { apply agree_bind; [apply agree_get_wealth|]. intros w.
    apply agree_bind; [plain|]. intros c.
    apply agree_bind; [apply agree_get_avg_wealth|]. intros a. apply agree_set_wealth. }
  intros _. apply agree_bind.
  { apply agree_bind; [apply agree_get_wealth|]. intros w.
    apply agree_bind; [plain|]. intros c.
    apply agree_bind; [apply agree_random_sample|]. intros dr.
    apply agree_bind; apply agree_pure || (intros; apply agree_pure). }
  intros pairs. apply agree_bind; [apply agree_roll_dice|].
  intros rolls. apply agree_bind.
  { apply agree_bind; [plain|]. intros c.
    apply agree_bind; [apply agree_pure|]. intros wx. apply agree_set_wealth. }
  intros _.
  apply agree_bind; [apply agree_get_wealth|]. intros w.
  apply agree_bind; [plain|]. intros c.
  apply agree_bind; [apply agree_get_avg_wealth|]. intros a. apply agree_set_wealth.
Qed.

Lemma rounds_agree k :
  forall s1 s2, same_engine s1 s2 ->
    fst (rounds k s1) = fst (rounds k s2)
    /\ same_engine (snd (rounds k s1)) (snd (rounds k s2)).
Proof.
  induction k as [|k IH]; intros s1 s2 H; cbn [ExtendedYardSale.rounds].
  - split; [reflexivity|exact H].
  - destruct (agree_perform_sale s1 s2 H) as [Hr Hs].
    fold perform_sale.
    destruct (perform_sale s1) as [r1 t1], (perform_sale s2) as [r2 t2].
    simpl in Hr, Hs. subst r2.
    destruct r1 as [[]|e]; [now apply IH|]. split; [reflexivity|exact Hs].
Qed.

Lemma wealth_after_agree s1 s2 k :
  same_engine s1 s2 -> wealth_after (Ok s1) k = wealth_after (Ok s2) k.
Proof.
  intros H. unfold wealth_after.
  destruct (rounds_agree k s1 s2 H) as [Hr Hs].
  destruct (rounds k s1) as [r1 t1], (rounds k s2) as [r2 t2].
  simpl in Hr, Hs. subst r2. destruct r1; [|reflexivity]. f_equal. apply Hs.
Qed.

Lemma construct_same_engine g st w win chi_ zeta_ kappa_ n_ seed s1 s2 :
  __init__ g w win chi_ zeta_ kappa_ n_ seed = Ok s1 ->
  construct st w win chi_ zeta_ kappa_ n_ seed = Ok s2 ->
  same_engine s1 s2.
Proof.
  unfold ExtendedYardSale.__init__, ExtendedYardSale.construct.
  destruct (Wealth._validate_wealth w); [|discriminate].
  intros H1 H2. inversion H1; subst s1. inversion H2; subst s2.
  unfold same_engine, current_wealth. cbn [heap self wealth random].
  rewrite deref_last. repeat split.
Qed.

(** C1.  A run does not depend on what the program did before it: the
    engine constructed first in a program (whatever state [g] the global
    generator was in) and an engine constructed from the same wealth
    mapping, parameters and seed in any later program state [st]
    (whatever the store holds and whatever was drawn from the generator
    before) hold the same wealth mapping after every number [k] of
    rounds, or fail in the same round with the same exception, provided
    each engine performs its rounds with no other draw from the
    generator in between; and so do two engines constructed in any two
    program states. *)
Theorem separate_runs_agree :
  forall (g : gen) (st st' : state) (start_wealth : dict)
         (win_percentage chi zeta kappa : float) (n seed : Z) (k : nat),
    wealth_after (__init__ g start_wealth win_percentage chi zeta kappa n seed) k
    = wealth_after (construct st start_wealth win_percentage chi zeta kappa n seed) k
    /\ wealth_after (construct st start_wealth win_percentage chi zeta kappa n seed) k
       = wealth_after (construct st' start_wealth win_percentage chi zeta kappa n seed) k.
Proof.
  intros g st st' w win chi_ zeta_ kappa_ n_ seed k.
  assert (H : forall t,
             wealth_after (__init__ g w win chi_ zeta_ kappa_ n_ seed) k
             = wealth_after (construct t w win chi_ zeta_ kappa_ n_ seed) k).
  { intros t.
    destruct (__init__ g w win chi_ zeta_ kappa_ n_ seed) as [s1|e] eqn:E1.
    - destruct (construct t w win chi_ zeta_ kappa_ n_ seed) as [s2|e] eqn:E2.
      + apply wealth_after_agree. eapply construct_same_engine; eauto.
      + exfalso. revert E1 E2.
        unfold ExtendedYardSale.__init__, ExtendedYardSale.construct.
        destruct (Wealth._validate_wealth w); discriminate.
    - revert E1. unfold ExtendedYardSale.__init__, ExtendedYardSale.construct.
      destruct (Wealth._validate_wealth w); [discriminate|].
      intros E1. inversion E1. reflexivity. }
  split; [apply H|]. rewrite <- (H st), <- (H st'). reflexivity.
Qed.

(** *** The phases keep the agents *)

Lemma keys_map_values (f : person * float -> float) (d : dict) :
  keys (map (fun pw => (fst pw, f pw)) d) = keys d.
Proof. unfold keys. rewrite map_map. reflexivity. Qed.

Lemma comprehension_values (f : person * float -> float) (d : dict) :
  NoDup (keys d) ->
  of_items String.eqb (map (fun pw => (fst pw, f pw)) d) = map (fun pw => (fst pw, f pw)) d.
Proof.
  intros H. apply (of_items_nodup String.eqb string_eqb_eq).
  fold (keys (map (fun pw => (fst pw, f pw)) d)). now rewrite keys_map_values.
Qed.

Lemma NoDup_keys_filter (p : person * float -> bool) (d : dict) :
  NoDup (keys d) -> NoDup (keys (filter p d)).
Proof.
  unfold keys. induction d as [|[k v] d IH]; simpl; intros H; [constructor|].
  inversion H as [|? ? Hnot Hnd]; subst.
  destruct (p (k, v)); simpl; [|now apply IH].
  constructor; [|now apply IH].
  intros Hin. apply Hnot. apply in_map_iff in Hin. destruct Hin as ([k' v'] & <- & Hin).
  apply filter_In in Hin. apply in_map_iff. exists (k', v'). tauto.
Qed.

Lemma comprehension_filter (p : person * float -> bool) (d : dict) :
  NoDup (keys d) -> of_items String.eqb (filter p d) = filter p d.
Proof.
  intros H. apply (of_items_nodup String.eqb string_eqb_eq).
  now apply NoDup_keys_filter.
Qed.

Lemma loan_S_map kappa avg w :
  NoDup (keys w) ->
  loan_S kappa avg w = map (fun pw => (fst pw, Np.round (snd pw + kappa * avg) 2)) w.
Proof. intros H. unfold loan_S. now rewrite comprehension_values. Qed.

Lemma collect_S_map kappa avg w :
  NoDup (keys w) ->
  collect_S kappa avg w = map (fun pw => (fst pw, Np.round (snd pw - kappa * avg) 2)) w.
Proof. intros H. unfold collect_S. now rewrite comprehension_values. Qed.

(** The rich and the poor of [_pay_tax]. *)
Definition rich_of (avg : float) (w : dict) : dict := filter (fun pw => avg <? snd pw) w.
Definition poor_of (avg : float) (w : dict) : dict := filter (fun pw => snd pw <=? avg) w.

(** The tax collected, after the truncation. *)
Definition tax_of (chi avg : float) (w : dict) : float :=
  Np.floor_divide (chi * Np.sum (values (rich_of avg w))) 0.01 / 100.

Lemma rich_poor_disjoint avg w :
  NoDup (keys w) -> NoDup (keys (rich_of avg w ++ poor_of avg w)).
Proof.
  unfold keys, rich_of, poor_of. induction w as [|[k v] w IH]; simpl; intros H; [constructor|].
  inversion H as [|? ? Hnot Hnd]; subst. specialize (IH Hnd).
  assert (Hk : forall p, ~ In k (map fst (filter p w))).
  { intros p Hin. apply Hnot. apply in_map_iff in Hin.
    destruct Hin as ([k' v'] & <- & Hin). apply filter_In in Hin.
    apply in_map_iff. exists (k', v'). tauto. }
  destruct (avg <? v) eqn:Er.
  - rewrite (FloatFacts.ltb_not_leb _ _ Er). simpl. constructor; [|exact IH].
    rewrite map_app. intros Hin. apply in_app_or in Hin. destruct Hin as [Hin|Hin];
      eapply Hk; eauto.
  - destruct (v <=? avg); [|exact IH].
    rewrite map_app. apply NoDup_Add with (a := k) (l := map fst (filter (fun pw => avg <? snd pw) w)
                                   ++ map fst (filter (fun pw => snd pw <=? avg) w)).
    + apply Add_app. 
    + split; [rewrite <- map_app; exact IH|].
      intros Hin. apply in_app_or in Hin. destruct Hin as [Hin|Hin]; eapply Hk; eauto.
Qed.

Lemma if_nonempty (d x : dict) :
  (d = [] -> x = []) -> (if (0 <? length (keys d))%nat then x else d) = x.
Proof.
  destruct d; simpl; intros H; [symmetry; now apply H|reflexivity].
Qed.

Lemma pay_tax_closed chi avg w :
  NoDup (keys w) ->
  pay_tax chi avg w =
    map (fun pw => (fst pw, Np.round (snd pw - snd pw * chi) 2)) (rich_of avg w)
    ++ map (fun pw => (fst pw,
                       Np.round (snd pw + tax_of chi avg w
                                          / Np.of_nat (length (keys (poor_of avg w)))) 2))
         (poor_of avg w).
Proof.
  intros H. unfold pay_tax. cbv zeta.
  rewrite !comprehension_filter by assumption.
  fold (rich_of avg w). fold (poor_of avg w). fold (tax_of chi avg w).
  pose proof (rich_poor_disjoint avg w H) as Hd.
  assert (Hr : NoDup (keys (rich_of avg w))) by (now apply NoDup_keys_filter).
  assert (Hp : NoDup (keys (poor_of avg w))) by (now apply NoDup_keys_filter).
  rewrite !comprehension_values by assumption.
  etransitivity.
  { apply f_equal2; apply if_nonempty; intros ->; reflexivity. }
  apply (merge_disjoint String.eqb string_eqb_eq).
  fold (keys (map (fun pw => (fst pw, Np.round (snd pw - snd pw * chi) 2)) (rich_of avg w)
              ++ map (fun pw => (fst pw,
                          Np.round (snd pw + tax_of chi avg w
                                             / Np.of_nat (length (keys (poor_of avg w)))) 2))
                   (poor_of avg w))).
  unfold keys in *. rewrite map_app, !map_map. simpl. rewrite <- map_app. exact Hd.
Qed.

Lemma keys_pay_tax chi avg w :
  NoDup (keys w) ->
  keys (pay_tax chi avg w) = keys (rich_of avg w ++ poor_of avg w).
Proof.
  intros H. rewrite pay_tax_closed by assumption.
  unfold keys. rewrite !map_app, !map_map. reflexivity.
Qed.

Lemma rich_poor_length avg w :
  (length (rich_of avg w ++ poor_of avg w) <= length w)%nat.
Proof.
  unfold rich_of, poor_of. rewrite length_app.
  induction w as [|[k v] w IH]; simpl; [lia|].
  destruct (avg <? v) eqn:Er.
  - rewrite (FloatFacts.ltb_not_leb _ _ Er). simpl. lia.
  - destruct (v <=? avg); simpl; lia.
Qed.

Lemma rich_poor_all avg w :
  (length w <= length (rich_of avg w ++ poor_of avg w))%nat ->
  Permutation (rich_of avg w ++ poor_of avg w) w.
Proof.
  unfold rich_of, poor_of.
  induction w as [|[k v] w IH]; simpl; intros H; [constructor|].
  pose proof (rich_poor_length avg w) as Hle. unfold rich_of, poor_of in Hle.
  destruct (avg <? v) eqn:Er.
  - rewrite (FloatFacts.ltb_not_leb _ _ Er) in *. simpl in *.
    constructor. apply IH. lia.
  - destruct (v <=? avg).
    + apply Permutation_sym, Permutation_cons_app, Permutation_sym, IH.
      rewrite length_app in *. simpl in H. lia.
    + exfalso. lia.
Qed.

(** *** Pairing *)

Lemma reshape2_rows {A} :
  forall fuel (l : list A) rows,
    reshape2 fuel l = Ok rows ->
    concat rows = l /\ Forall (fun row => exists a b, row = [a; b]) rows.
Proof.
  induction fuel as [|f IH]; intros l rows H.
  - destruct l as [|a [|b l']]; simpl in H; try discriminate.
    inversion H; subst. split; [reflexivity|constructor].
  - destruct l as [|a [|b l']]; simpl in H; try discriminate.
    { inversion H; subst. split; [reflexivity|constructor]. }
    destruct (reshape2 f l') as [rows'|e] eqn:E; inversion H; subst.
    apply IH in E. destruct E as [Hc Hf]. split.
    + simpl. now rewrite Hc.
    + constructor; eauto.
Qed.

Lemma reshape2_even {A} :
  forall fuel (l : list A),
    (length l <= 2 * fuel)%nat -> Nat.Even (length l) ->
    exists rows, reshape2 fuel l = Ok rows.
Proof.
  induction fuel as [|f IH]; intros l Hf He.
  - destruct l; simpl in Hf; [|lia]. exists []. reflexivity.
  - destruct l as [|a [|b l']].
    + exists []. reflexivity.
    + exfalso. destruct He as [m Hm]. simpl in Hm. lia.
    + simpl. destruct (IH l') as [rows ->].
      * simpl in Hf. lia.
      * destruct He as [m Hm]. simpl in Hm. exists (m - 1)%nat. lia.
      * eauto.
Qed.

Lemma dget_in w k v : dget w k = Some v -> In (k, v) w.
Proof.
  unfold dget. induction w as [|[k' v'] w IH]; simpl; [discriminate|].
  destruct (String.eqb k k') eqn:E.
  - apply String.eqb_eq in E. intros H. inversion H; subst. now left.
  - intros H. right. now apply IH.
Qed.

Lemma dget_some w k : In k (keys w) -> exists v, dget w k = Some v.
Proof.
  unfold dget, keys. induction w as [|[k' v'] w IH]; simpl; [intros []|].
  destruct (String.eqb k k') eqn:E; [eauto|].
  intros [H|H]; [|now apply IH].
  apply String.eqb_neq in E. congruence.
Qed.

Lemma pair_wealths_rows w :
  forall ids pairs,
    pair_wealths w ids = Ok pairs ->
    Forall (fun row => exists a b, row = [a; b]) ids ->
    NoDup (concat ids) ->
    Forall two_entries pairs
    /\ map keys pairs = ids
    /\ forall p k v, In p pairs -> In (k, v) p -> In (k, v) w.
Proof.
  induction ids as [|row ids IH]; intros pairs H Hrows Hnd; simpl in H.
  - inversion H; subst. repeat split; [constructor|]. intros p k v [].
  - inversion Hrows as [|? ? (a & b & ->) Hrows']; subst.
    cbn [pair_wealths pair_wealth] in H.
    destruct (dget w a) as [va|] eqn:Ea; [|discriminate].
    destruct (dget w b) as [vb|] eqn:Eb; [|discriminate].
    destruct (pair_wealths w ids) as [ps|e] eqn:E; [|discriminate].
    inversion H; subst; clear H.
    simpl in Hnd.
    assert (Hab : a <> b).
    { inversion Hnd as [|? ? Hnot _]; subst. intros ->. apply Hnot. now left. }
    assert (Hnd' : NoDup (concat ids)).
    { inversion Hnd as [|? ? _ H1]; subst. now inversion H1. }
    destruct (IH ps eq_refl Hrows' Hnd') as (Ht & Hk & Hv).
    rewrite (proj2 (String.eqb_neq b a)) by congruence. repeat split.
    + constructor; [|exact Ht]. exists a, va, b, vb. reflexivity.
    + simpl. now rewrite Hk.
    + intros p k v [<-|Hin] Hkv; [|eapply Hv; eauto].
      destruct Hkv as [Hkv|[Hkv|[]]]; inversion Hkv; subst; now apply dget_in.
Qed.

Lemma pair_wealths_total w :
  forall ids,
    Forall (fun row => exists a b, row = [a; b]) ids ->
    (forall k, In k (concat ids) -> In k (keys w)) ->
    exists pairs, pair_wealths w ids = Ok pairs.
Proof.
  induction ids as [|row ids IH]; intros Hrows Hin; [eexists; reflexivity|].
  inversion Hrows as [|? ? (a & b & ->) Hrows']; subst. cbn [pair_wealths pair_wealth].
  destruct (dget_some w a) as [va ->]; [apply Hin; simpl; auto|].
  destruct (dget_some w b) as [vb ->]; [apply Hin; simpl; auto|].
  destruct (IH Hrows') as [ps ->]; [intros k Hk; apply Hin; simpl; auto|].
  eauto.
Qed.

(** *** The library's contract *)

(** [random.sample(population, len(population))] is a rearrangement of
    the population; [random.choices] returns a member of the population,
    and raises [ValueError] when a weight is not a number (the total of
    the weights is then not finite). *)
Hypothesis sample_perm :
  forall g population, Permutation (fst (sample g population (length population))) population.
Hypothesis choices_in :
  forall g population ws r g', choices g population ws = (Some r, g') -> In r population.
Hypothesis choices_nan :
  forall g population ws r g',
    choices g population ws = (Some r, g') -> Forall (fun w => Np.is_nan w = false) ws.

Lemma rolled_zero_one zeta pairs rolls :
  rolled zeta pairs rolls ->
  length rolls = length pairs /\ Forall (fun r => r = 0%Z \/ r = 1%Z) rolls.
Proof.
  induction 1 as [|p ps roll rolls ws g g' Hw Hc _ [IHl IHf]]; [split; constructor|].
  split; [simpl; now rewrite IHl|]. constructor; [|exact IHf].
  apply choices_in in Hc. simpl in Hc.
  destruct Hc as [Hc|[Hc|[]]]; [left|right]; now symmetry.
Qed.

(** A pair that was rolled for holds two numbers. *)
Definition numbers (p : dict) : Prop := Forall (fun v => Np.is_nan v = false) (values p).

Lemma weights_numbers zeta k0 v0 k1 v1 ws :
  weights zeta [(k0, v0); (k1, v1)] = Ok ws ->
  Forall (fun w => Np.is_nan w = false) ws ->
  numbers [(k0, v0); (k1, v1)].
Proof.
  unfold weights. simpl. intros H Hf. inversion H; subst; clear H.
  inversion Hf as [|? ? Hw _]; subst.
  assert (Hd : Np.is_nan (v0 - v1) = false).
  { destruct (Np.is_nan (v0 - v1)) eqn:E; [|reflexivity].
    rewrite FloatFacts.div_nan in Hw; [discriminate|]. left.
    apply FloatFacts.add_nan. right. apply FloatFacts.mul_nan. right.
    now apply FloatFacts.abs_nan. }
  unfold numbers. simpl.
  constructor; [|constructor; [|constructor]].
  - destruct (Np.is_nan v0) eqn:E; [|reflexivity].
    rewrite FloatFacts.sub_nan in Hd; auto.
  - destruct (Np.is_nan v1) eqn:E; [|reflexivity].
    rewrite FloatFacts.sub_nan in Hd; auto.
Qed.

Lemma rolled_numbers zeta pairs rolls :
  rolled zeta pairs rolls -> Forall two_entries pairs -> Forall numbers pairs.
Proof.
  induction 1 as [|p ps roll rolls ws g g' Hw Hc _ IH]; intros Ht; [constructor|].
  inversion Ht as [|? ? (k0 & v0 & k1 & v1 & ->) Ht']; subst.
  constructor; [|now apply IH].
  eapply weights_numbers; eauto.
Qed.

Lemma poor_rich_numbers k0 v0 k1 v1 :
  numbers [(k0, v0); (k1, v1)] ->
  poor_rich k0 v0 k1 v1 = (k0, k1) \/ poor_rich k0 v0 k1 v1 = (k1, k0).
Proof.
  unfold numbers. simpl. intros H.
  inversion H as [|? ? H0 H']; subst. inversion H' as [|? ? H1 _]; subst.
  pose proof (poor_rich_cases k0 v0 k1 v1) as (C01 & C10 & Ceq).
  destruct (FloatFacts.trichotomy v0 v1 H0 H1) as [E|[E|E]]; auto.
Qed.

Lemma dset_fresh d k v : ~ In k (keys d) -> dset d k v = d ++ [(k, v)].
Proof. apply (set_fresh String.eqb string_eqb_eq). Qed.

(** The keys of the exchanged wealth: every pair's two agents. *)
Lemma exchange_wealth_keys win :
  forall pairs rolls acc wx,
    exchange_wealth win acc pairs rolls = Ok wx ->
    Forall two_entries pairs ->
    Forall numbers pairs ->
    NoDup (keys acc ++ concat (map keys pairs)) ->
    length rolls = length pairs ->
    Forall (fun r => r = 0%Z \/ r = 1%Z) rolls ->
    Permutation (keys wx) (keys acc ++ concat (map keys pairs)).
Proof.
  induction pairs as [|p pairs IH]; intros rolls acc wx H Ht Hn Hnd Hlen Hr.
  - simpl in H. inversion H; subst. simpl. now rewrite app_nil_r.
  - destruct rolls as [|roll rolls]; [discriminate|].
    inversion Ht as [|? ? (k0 & v0 & k1 & v1 & ->) Ht']; subst.
    inversion Hn as [|? ? Hn0 Hn']; subst.
    inversion Hr as [|? ? Hroll Hr']; subst.
    simpl in Hnd.
    assert (Hne : k0 <> k1).
    { apply NoDup_app_remove_l in Hnd. inversion Hnd as [|? ? Hnot _]; subst.
      intros ->. apply Hnot. now left. }
    cbn [exchange_wealth] in H.
    rewrite (exchange_pair_two win acc k0 v0 k1 v1 roll Hne Hroll) in H.
    assert (Hk0 : ~ In k0 (keys acc)).
    { intros Hin. apply NoDup_remove_2 in Hnd. apply Hnd. apply in_or_app. now left. }
    assert (Hk1 : ~ In k1 (keys acc)).
    { intros Hin.
      change (keys acc ++ k0 :: k1 :: concat (map keys pairs))
        with (keys acc ++ [k0] ++ k1 :: concat (map keys pairs)) in Hnd.
      rewrite app_assoc in Hnd. apply NoDup_remove_2 in Hnd. apply Hnd.
      apply in_or_app. left. apply in_or_app. now left. }
    set (old := fun k => if String.eqb k k0 then v0 else v1) in H.
    assert (Hkeys : forall a b x y, a <> b -> ~ In a (keys acc) -> ~ In b (keys acc) ->
              keys (dset (dset acc a x) b y) = keys acc ++ [a; b]).
    { intros a b x y Hab Ha Hb.
      rewrite (dset_fresh acc a x Ha).
      rewrite dset_fresh.
      - unfold keys. rewrite !map_app. simpl. now rewrite <- app_assoc.
      - unfold keys. rewrite map_app. simpl. intros Hin. apply in_app_or in Hin.
        destruct Hin as [Hin|[Hin|[]]]; [now apply Hb|congruence]. }
    destruct (poor_rich_numbers k0 v0 k1 v1 Hn0) as [E|E]; rewrite E in H;
      cbv beta iota zeta in H.
    + eapply IH in H; eauto.
      * rewrite H, Hkeys by assumption. rewrite <- app_assoc. reflexivity.
      * rewrite Hkeys by assumption. rewrite <- app_assoc. exact Hnd.
    + eapply IH in H; eauto.
      * rewrite H, Hkeys by (assumption || congruence). rewrite <- app_assoc.
        apply Permutation_app_head. simpl. apply perm_swap.
      * rewrite Hkeys by (assumption || congruence). rewrite <- app_assoc.
        eapply Permutation_NoDup; [|exact Hnd].
        apply Permutation_app_head. simpl. apply perm_swap.
Qed.

(** *** The agents of an engine *)

(** The invariant of an engine: the keys of its wealth mapping are the
    agents, each once, and [_n_people] counts them. *)
Definition agents_ok (st : state) : Prop :=
  NoDup (keys (current_wealth st))
  /\ _n_people (self st) = length (keys (current_wealth st)).

Lemma pair_people_matching st :
  agents_ok st ->
  Nat.Even (_n_people (self st)) ->
  exists pairs st',
    _pair_people st = (Ok pairs, st')
    /\ Forall two_entries pairs
    /\ Permutation (concat (map keys pairs)) (keys (current_wealth st))
    /\ forall p k v, In p pairs -> In (k, v) p -> In (k, v) (current_wealth st).
Proof.
  intros [Hnd Hn] He.
  unfold ExtendedYardSale._pair_people, bind, get_wealth, attr,
    ExtendedYardSale.random_sample, lift.
  fold (current_wealth st). set (w := current_wealth st) in *.
  replace (length (keys w) <? _n_people (self st))%nat with false
    by (symmetry; apply Nat.ltb_ge; lia).
  destruct (sample (random st) (keys w) (_n_people (self st))) as [dr g1] eqn:Es.
  assert (Hp : Permutation dr (keys w)).
  { pose proof (sample_perm (random st) (keys w)) as H. rewrite <- Hn, Es in H. exact H. }
  assert (Hlen : length dr = _n_people (self st)).
  { rewrite Hn. now apply Permutation_length. }
  destruct (reshape2_even (length dr) dr) as [ids Hids]; [lia|now rewrite Hlen|].
  rewrite Hids. cbn [heap random self].
  pose proof (reshape2_rows _ _ _ Hids) as [Hc Hrows].
  destruct (pair_wealths_total w ids Hrows) as [ps Hps].
  { intros k Hk. rewrite Hc in Hk. eapply Permutation_in; eauto. }
  rewrite Hps.
  destruct (pair_wealths_rows w ids ps Hps Hrows) as (Ht & Hk & Hv).
  { rewrite Hc. eapply Permutation_NoDup; [apply Permutation_sym; exact Hp|exact Hnd]. }
  eexists. eexists. split; [reflexivity|]. repeat split; auto.
  rewrite Hk, Hc. exact Hp.
Qed.

Lemma perform_sale_agents st st' :
  agents_ok st ->
  perform_sale st = (Ok tt, st') ->
  Permutation (keys (current_wealth st')) (keys (current_wealth st)) /\ agents_ok st'.
Proof.
  intros [Hnd Hn] H. apply perform_sale_trace in H.
  destruct H as [a dr g1 ids ps rs wx taxed loaned Ha Hen Hs Hr Hp Hro Hx Hw Hn' _].
  set (w := current_wealth st) in *.
  assert (Htk : keys taxed = keys (rich_of a w ++ poor_of a w))
    by (subst taxed; now apply keys_pay_tax).
  assert (Htnd : NoDup (keys taxed))
    by (rewrite Htk; now apply rich_poor_disjoint).
  assert (Hlk : keys loaned = keys taxed).
  { subst loaned. rewrite loan_S_map by assumption. apply keys_map_values. }
  assert (Hall : Permutation (rich_of a w ++ poor_of a w) w).
  { apply rich_poor_all. rewrite Hlk, Htk in Hen. unfold keys in Hen, Hn.
    rewrite length_map in Hen, Hn. lia. }
  assert (Hkl : Permutation (keys loaned) (keys w)).
  { rewrite Hlk, Htk. unfold keys. now apply Permutation_map. }
  assert (Hcount : _n_people (self st) = length (keys loaned)).
  { rewrite Hn. symmetry. now apply Permutation_length. }
  assert (Hdr : Permutation dr (keys loaned)).
  { pose proof (sample_perm (random st) (keys loaned)) as H.
    rewrite <- Hcount, Hs in H. exact H. }
  pose proof (reshape2_rows _ _ _ Hr) as [Hc Hrows].
  assert (Hdnd : NoDup (concat ids)).
  { rewrite Hc. eapply Permutation_NoDup; [apply Permutation_sym; exact Hdr|].
    now rewrite Hlk. }
  destruct (pair_wealths_rows loaned ids ps Hp Hrows Hdnd) as (Ht & Hk & _).
  pose proof (rolled_zero_one _ _ _ Hro) as [Hlen H01].
  pose proof (rolled_numbers _ _ _ Hro Ht) as Hnum.
  assert (Hwx : Permutation (keys wx) (concat (map keys ps))).
  { apply (exchange_wealth_keys _ ps rs [] wx Hx Ht Hnum); auto.
    simpl. now rewrite Hk. }
  rewrite Hk, Hc in Hwx.
  assert (Hxnd : NoDup (keys wx)).
  { eapply Permutation_NoDup; [apply Permutation_sym; exact Hwx|].
    now rewrite <- Hc. }
  assert (Hfinal : Permutation (keys (current_wealth st')) (keys w)).
  { rewrite Hw, collect_S_map by assumption. rewrite keys_map_values.
    now rewrite Hwx, Hdr. }
  split; [exact Hfinal|]. split.
  - eapply Permutation_NoDup; [apply Permutation_sym; exact Hfinal|exact Hnd].
  - rewrite Hn', Hn. symmetry. now apply Permutation_length.
Qed.

Lemma rounds_agents :
  forall k st st',
    agents_ok st ->
    rounds k st = (Ok tt, st') ->
    Permutation (keys (current_wealth st')) (keys (current_wealth st)) /\ agents_ok st'.
Proof.
  induction k as [|k IH]; intros st st' Hok H; simpl in H.
  - inversion H; subst. split; [reflexivity|exact Hok].
  - destruct (perform_sale st) as [[[]|e] st1] eqn:E; [|discriminate].
    destruct (perform_sale_agents _ _ Hok E) as [Hp1 Hok1].
    destruct (IH _ _ Hok1 H) as [Hp Hok']. split; [|exact Hok'].
    now rewrite Hp.
Qed.

(** The state of a round when the agents are paired: after the average,
    the tax and the loan. *)
Definition before_pairing (st : state) : state :=
  snd (bind _update_average_wealth (fun _ => bind _pay_tax (fun _ => _loan_S)) st).

Lemma perform_sale_pairs st st' :
  agents_ok st ->
  perform_sale st = (Ok tt, st') ->
  exists pairs st_p,
    _pair_people (before_pairing st) = (Ok pairs, st_p)
    /\ Forall two_entries pairs
    /\ Permutation (concat (map keys pairs)) (keys (current_wealth st)).
Proof.
  intros [Hnd Hn] H.
  pose proof (perform_sale_trace _ _ H) as T.
  destruct T as [a dr g1 ids ps rs wx taxed loaned Ha Hen Hs Hr Hp Hro Hx Hw Hn' _].
  unfold ExtendedYardSale.perform_sale in H.
  apply bind_ok in H. destruct H as ([] & s1 & H1 & H).
  rewrite update_average_wealth_run in H1. inversion H1; subst s1; clear H1.
  apply bind_ok in H. destruct H as ([] & s2 & H2 & H).
  rewrite (pay_tax_run _ (Np.mean (values (current_wealth st)))) in H2 by reflexivity.
  inversion H2; subst s2; clear H2.
  apply bind_ok in H. destruct H as ([] & s3 & H3 & H).
  rewrite (loan_S_run _ (Np.mean (values (current_wealth st)))) in H3 by reflexivity.
  inversion H3; subst s3; clear H3.
  apply bind_ok in H. destruct H as (ps' & s4 & H4 & _).
  assert (Hb : before_pairing st
               = push (loan_S (kappa (self st)) (Np.mean (values (current_wealth st)))
                         (pay_tax (chi (self st)) (Np.mean (values (current_wealth st)))
                            (current_wealth st)))
                   (push (pay_tax (chi (self st)) (Np.mean (values (current_wealth st)))
                            (current_wealth st))
                      (with_avg (Np.mean (values (current_wealth st))) st))).
  { unfold before_pairing, bind. rewrite update_average_wealth_run.
    rewrite (pay_tax_run _ (Np.mean (values (current_wealth st)))) by reflexivity.
    rewrite (loan_S_run _ (Np.mean (values (current_wealth st)))) by reflexivity.
    cbn [snd]. rewrite !current_wealth_push, !current_wealth_with_avg. reflexivity. }
  rewrite Hb. rewrite !current_wealth_push, !current_wealth_with_avg in H4.
  exists ps', s4. split; [exact H4|].
  apply pair_people_ok in H4.
  destruct H4 as (dr' & ids' & _ & Hs' & Hr' & Hp' & _).
  rewrite current_wealth_push in Hs', Hp'.
  subst a. fold taxed in Hs', Hp'. fold loaned in Hs', Hp'.
  change (_n_people (self (push loaned (push taxed
            (with_avg (Np.mean (values (current_wealth st))) st)))))
    with (_n_people (self st)) in Hs'.
  change (random (push loaned (push taxed
            (with_avg (Np.mean (values (current_wealth st))) st))))
    with (random st) in Hs'.
  set (w := current_wealth st) in *.
  set (a := Np.mean (values w)) in *.
  assert (Htk : keys taxed = keys (rich_of a w ++ poor_of a w))
    by (subst taxed; now apply keys_pay_tax).
  assert (Htnd : NoDup (keys taxed))
    by (rewrite Htk; now apply rich_poor_disjoint).
  assert (Hlk : keys loaned = keys taxed).
  { subst loaned. rewrite loan_S_map by assumption. apply keys_map_values. }
  assert (Hall : Permutation (rich_of a w ++ poor_of a w) w).
  { apply rich_poor_all. rewrite Hlk, Htk in Hen. unfold keys in Hen, Hn.
    rewrite length_map in Hen, Hn. lia. }
  assert (Hkl : Permutation (keys loaned) (keys w)).
  { rewrite Hlk, Htk. unfold keys. now apply Permutation_map. }
  assert (Hcount : _n_people (self st) = length (keys loaned)).
  { rewrite Hn. symmetry. now apply Permutation_length. }
  assert (Hdr : Permutation dr' (keys loaned)).
  { pose proof (sample_perm (random st) (keys loaned)) as H0.
    rewrite <- Hcount, Hs' in H0. exact H0. }
  pose proof (reshape2_rows _ _ _ Hr') as [Hc Hrows].
  assert (Hdnd : NoDup (concat ids')).
  { rewrite Hc. eapply Permutation_NoDup; [apply Permutation_sym; exact Hdr|].
    now rewrite Hlk. }
  destruct (pair_wealths_rows loaned ids' ps' Hp' Hrows Hdnd) as (Ht & Hk & _).
  split; [exact Ht|]. rewrite Hk, Hc. now rewrite Hdr.
Qed.

(** *** When a round completes *)

Lemma before_pairing_eq st :
  let a := Np.mean (values (current_wealth st)) in
  let taxed := pay_tax (chi (self st)) a (current_wealth st) in
  let loaned := loan_S (kappa (self st)) a taxed in
  before_pairing st = push loaned (push taxed (with_avg a st)).
Proof.
  intros a taxed loaned. unfold before_pairing, bind.
  rewrite update_average_wealth_run.
  rewrite (pay_tax_run _ a) by reflexivity.
  rewrite (loan_S_run _ a) by reflexivity.
  cbn [snd]. rewrite !current_wealth_push, !current_wealth_with_avg. reflexivity.
Qed.

Lemma pair_people_frame st r st' :
  _pair_people st = (r, st') -> heap st' = heap st /\ self st' = self st.
Proof.
  unfold ExtendedYardSale._pair_people, bind, get_wealth, attr,
    ExtendedYardSale.random_sample, lift.
  destruct (length (keys (deref (heap st) (wealth (self st)))) <? _n_people (self st))%nat.
  { intros H; inversion H; subst; auto. }
  destruct (sample _ _ _) as [dr g1].
  destruct (reshape2 (length dr) dr); [|intros H; inversion H; subst; auto].
  destruct (pair_wealths _ _); intros H; inversion H; subst; auto.
Qed.

Lemma exchange_wealth_run ps rs st wx :
  exchange_wealth (win_percentage (self st)) [] ps rs = Ok wx ->
  _exchange_wealth ps rs st = (Ok tt, push wx st).
Proof.
  intros H. unfold _exchange_wealth, bind, attr, lift. now rewrite H.
Qed.

Lemma perform_sale_complete st pairs s4 rolls s5 wx :
  _pair_people (before_pairing st) = (Ok pairs, s4) ->
  _roll_dice pairs s4 = (Ok rolls, s5) ->
  exchange_wealth (win_percentage (self st)) [] pairs rolls = Ok wx ->
  exists st', perform_sale st = (Ok tt, st').
Proof.
  intros H4 H5 Hx.
  pose proof (before_pairing_eq st) as Hb. cbv zeta in Hb.
  set (a := Np.mean (values (current_wealth st))) in *.
  pose proof (pair_people_frame _ _ _ H4) as [Hh4 Hs4].
  pose proof (roll_dice_frame _ _ _ _ H5) as [Hh5 Hs5].
  unfold ExtendedYardSale.perform_sale.
  unfold bind at 1. rewrite update_average_wealth_run.
  unfold bind at 1. rewrite (pay_tax_run _ a) by reflexivity.
  unfold bind at 1. rewrite (loan_S_run _ a) by reflexivity.
  match goal with
  | |- context [bind _pair_people _ ?S] =>
      replace S with (before_pairing st)
        by (rewrite Hb, !current_wealth_push, !current_wealth_with_avg; reflexivity)
  end.
  unfold bind at 1. rewrite H4.
  unfold bind at 1. rewrite H5.
  assert (Hself : self s5 = self (before_pairing st)) by congruence.
  assert (Hwin : win_percentage (self s5) = win_percentage (self st)).
  { rewrite Hself, Hb. reflexivity. }
  unfold bind at 1. rewrite (exchange_wealth_run _ _ _ wx) by (rewrite Hwin; exact Hx).
  rewrite (collect_S_run _ a); [eauto|].
  unfold push. cbn [set_wealth snd self _avg_wealth]. rewrite Hself, Hb. reflexivity.
Qed.

(** [random.choices] does return when the weights are numbers whose
    total is positive and finite. *)
Hypothesis choices_some :
  forall g population ws,
    population <> [] ->
    Forall (fun w => Np.is_nan w = false) ws ->
    (0 <? fold_left PrimFloat.add ws 0) = true ->
    (fold_left PrimFloat.add ws 0 <? infinity) = true ->
    exists r g', choices g population ws = (Some r, g').


(** *** Four agents at 100 *)






(** *** The agents of a round, whether it completes or not *)

Lemma rich_poor_numbers avg (w : dict) :
  Np.is_nan avg = false ->
  Forall (fun v => Np.is_nan v = false) (values w) ->
  (length w <= length (rich_of avg w ++ poor_of avg w))%nat.
Proof.
  intros Ha Hw. rewrite length_app. unfold rich_of, poor_of.
  induction w as [|[k v] w IH]; [apply Nat.le_refl|].
  cbn [values map snd] in Hw. inversion Hw as [|? ? Hv Hw']; subst.
  specialize (IH Hw'). cbn [filter snd length].
  destruct (FloatFacts.ltb_or_leb avg v Ha Hv) as [L|L]; rewrite L.
  - destruct (v <=? avg); cbn [length]; lia.
  - destruct (avg <? v); cbn [length]; lia.
Qed.

Lemma roll_dice_value_error ps :
  Forall two_entries ps ->
  forall st e st', _roll_dice ps st = (Raise e, st') -> e = ValueError.
Proof.
  induction ps as [|p ps IH]; intros Hf st e st' H; [discriminate|].
  inversion Hf as [|? ? (k0 & v0 & k1 & v1 & ->) Hf']; subst.
  cbn [ExtendedYardSale._roll_dice] in H.
  unfold bind at 1, attr in H. unfold bind at 1, lift in H.
  cbn [weights values map snd] in H.
  unfold bind at 1, ExtendedYardSale.random_choices in H.
  destruct (choices (random st) [0%Z; 1%Z] _) as [[r|] g1].
  - unfold bind at 1 in H.
    destruct (_roll_dice ps _) as [[rolls|e'] s2] eqn:E.
    + discriminate.
    + inversion H; subst. exact (IH Hf' _ _ _ E).
  - inversion H. reflexivity.
Qed.

Lemma before_pairing_keys st :
  NoDup (keys (current_wealth st)) ->
  NoDup (keys (current_wealth (before_pairing st)))
  /\ (length (keys (current_wealth (before_pairing st)))
      <= length (keys (current_wealth st)))%nat
  /\ _n_people (self (before_pairing st)) = _n_people (self st).
Proof.
  intros Hnd. pose proof (before_pairing_eq st) as Hb. cbv zeta in Hb.
  rewrite Hb, current_wealth_push.
  set (a := Np.mean (values (current_wealth st))).
  set (w := current_wealth st) in *.
  assert (Htk : keys (pay_tax (chi (self st)) a w) = keys (rich_of a w ++ poor_of a w))
    by now apply keys_pay_tax.
  assert (Htnd : NoDup (keys (pay_tax (chi (self st)) a w)))
    by (rewrite Htk; now apply rich_poor_disjoint).
  rewrite loan_S_map by assumption. rewrite keys_map_values, Htk.
  split; [now apply rich_poor_disjoint|]. split; [|reflexivity].
  unfold keys. rewrite !length_map. apply rich_poor_length.
Qed.

(** A round that fails on an engine with distinct agents, as many as it
    counts, an even number: it fails with [ValueError] (from
    [random.sample] or [random.choices]) and leaves the wealth as the tax
    and the loan made it. *)
Lemma perform_sale_raise (st : state) (e : exn) (st' : state) :
  agents_ok st -> Nat.Even (_n_people (self st)) ->
  perform_sale st = (Raise e, st') ->
  let a := Np.mean (values (current_wealth st)) in
  e = ValueError
  /\ current_wealth st'
     = loan_S (kappa (self st)) a (pay_tax (chi (self st)) a (current_wealth st)).
Proof.
  intros [Hnd Hn] He H a.
  pose proof H as H0.
  pose proof (before_pairing_eq st) as Hb. cbv zeta in Hb. fold a in Hb.
  destruct (before_pairing_keys st Hnd) as (HndB & HlenB & HnB).
  assert (HwB : current_wealth (before_pairing st)
                = loan_S (kappa (self st)) a (pay_tax (chi (self st)) a (current_wealth st)))
    by (rewrite Hb; apply current_wealth_push).
  assert (Hframe : forall s : state, heap s = heap (before_pairing st) ->
                             self s = self (before_pairing st) ->
                             current_wealth s = current_wealth (before_pairing st)).
  { intros s Hh Hs. unfold ExtendedYardSale.current_wealth. now rewrite Hh, Hs. }
  unfold ExtendedYardSale.perform_sale in H.
  unfold bind at 1 in H. rewrite update_average_wealth_run in H.
  unfold bind at 1 in H. rewrite (pay_tax_run _ a) in H by reflexivity.
  unfold bind at 1 in H. rewrite (loan_S_run _ a) in H by reflexivity.
  match type of H with
  | context [bind _pair_people _ ?S] =>
      replace S with (before_pairing st) in H
        by (rewrite Hb, !current_wealth_push, !current_wealth_with_avg; reflexivity)
  end.
  unfold bind at 1 in H.
  destruct (Nat.eq_dec (length (keys (current_wealth (before_pairing st))))
                       (_n_people (self st))) as [Heq|Hneq].
  - assert (HokB : agents_ok (before_pairing st)) by (split; [assumption|lia]).
    destruct (pair_people_matching _ HokB ltac:(rewrite HnB; exact He))
      as (pairs & s4 & H4 & Ht & Hperm & _).
    rewrite H4 in H.
    destruct (pair_people_frame _ _ _ H4) as [Hh4 Hs4].
    unfold bind at 1 in H.
    destruct (_roll_dice pairs s4) as [[rolls|e2] s5] eqn:H5.
    + exfalso.
      destruct (rolled_zero_one _ _ _ (roll_dice_rolled _ _ _ _ H5)) as [Hl Hf].
      destruct (exchange_wealth_frame (win_percentage (self st)) pairs rolls [] Ht)
        as (wx & Hx & _); try assumption.
      { eapply Permutation_NoDup; [apply Permutation_sym; exact Hperm|exact HndB]. }
      destruct (perform_sale_complete _ _ _ _ _ _ H4 H5 Hx) as [st'' Hc].
      rewrite Hc in H0. discriminate.
    + inversion H; subst.
      destruct (roll_dice_frame _ _ _ _ H5) as [Hh5 Hs5].
      split; [exact (roll_dice_value_error _ Ht _ _ _ H5)|].
      rewrite <- HwB. apply Hframe; congruence.
  - assert (Hp : _pair_people (before_pairing st)
                 = (Raise ValueError, before_pairing st)).
    { unfold ExtendedYardSale._pair_people, bind, get_wealth, attr,
        ExtendedYardSale.random_sample.
      fold (current_wealth (before_pairing st)).
      replace (length (keys (current_wealth (before_pairing st)))
               <? _n_people (self (before_pairing st)))%nat with true;
        [reflexivity|].
      symmetry. apply Nat.ltb_lt. lia. }
    rewrite Hp in H. inversion H; subst. split; [reflexivity|exact HwB].
Qed.


(** When the average and all balances are numbers, the tax phase and
    the loan keep every agent. *)
Lemma before_pairing_agents st :
  agents_ok st ->
  numbers (current_wealth st) ->
  Np.is_nan (Np.mean (values (current_wealth st))) = false ->
  agents_ok (before_pairing st)
  /\ Permutation (keys (current_wealth (before_pairing st))) (keys (current_wealth st)).
Proof.
  intros [Hnd Hn] Hnum Ha.
  destruct (before_pairing_keys st Hnd) as (HndB & _ & HnB).
  assert (Hp : Permutation (keys (current_wealth (before_pairing st)))
                 (keys (current_wealth st))).
  { pose proof (before_pairing_eq st) as Hb. cbv zeta in Hb.
    rewrite Hb, current_wealth_push.
    set (a := Np.mean (values (current_wealth st))) in *.
    set (w := current_wealth st) in *.
    assert (Htk : keys (pay_tax (chi (self st)) a w) = keys (rich_of a w ++ poor_of a w))
      by now apply keys_pay_tax.
    assert (Htnd : NoDup (keys (pay_tax (chi (self st)) a w)))
      by (rewrite Htk; now apply rich_poor_disjoint).
    rewrite loan_S_map by assumption. rewrite keys_map_values, Htk.
    unfold keys. apply Permutation_map. apply rich_poor_all.
    now apply rich_poor_numbers. }
  split; [|exact Hp]. split; [exact HndB|].
  rewrite HnB, Hn. symmetry. now apply Permutation_length.
Qed.

(** C5: on an engine whose wealth mapping has each agent once and
    [_n_people] of them, (1) when that count is even, [_pair_people]
    returns pairs of two agents whose keys together are a rearrangement
    of all the agents: every agent is in exactly one pair, none is left
    over, and each pair carries its agents' balances; (2) after any
    number of rounds that complete the keys of the wealth mapping are
    the same agents (a rearrangement of the keys before) and the engine
    is of the same kind again; (3) the pairing of every round that
    completes is such a perfect matching of all the agents; (4) when no
    balance is a NaN and their average is not a NaN, and the count is
    even, the pairing of the round is such a perfect matching and the
    keys after [perform_sale] are the same agents whether the round
    completes or raises. *)
Theorem pairing_and_agents :
  forall st : state,
    agents_ok st ->
    (Nat.Even (_n_people (self st)) ->
     exists pairs st',
       _pair_people st = (Ok pairs, st')
       /\ Forall two_entries pairs
       /\ Permutation (concat (map keys pairs)) (keys (current_wealth st))
       /\ forall p k v, In p pairs -> In (k, v) p -> In (k, v) (current_wealth st))
    /\ (forall k st',
          rounds k st = (Ok tt, st') ->
          Permutation (keys (current_wealth st')) (keys (current_wealth st))
          /\ agents_ok st')
    /\ (forall st',
          perform_sale st = (Ok tt, st') ->
          exists pairs st_p,
            _pair_people (before_pairing st) = (Ok pairs, st_p)
            /\ Forall two_entries pairs
            /\ Permutation (concat (map keys pairs)) (keys (current_wealth st)))
    /\ (numbers (current_wealth st) ->
        Np.is_nan (Np.mean (values (current_wealth st))) = false ->
        Nat.Even (_n_people (self st)) ->
        (exists pairs st_p,
           _pair_people (before_pairing st) = (Ok pairs, st_p)
           /\ Forall two_entries pairs
           /\ Permutation (concat (map keys pairs)) (keys (current_wealth st)))
        /\ forall r st',
             perform_sale st = (r, st') ->
             Permutation (keys (current_wealth st')) (keys (current_wealth st))).
Proof.
  intros st Hok. split; [|split; [|split]].
  - now apply pair_people_matching.
  - intros k st'. now apply rounds_agents.
  - intros st'. now apply perform_sale_pairs.
  - intros Hnum Ha He.
    destruct (before_pairing_agents st Hok Hnum Ha) as [HokB HpB].
    destruct (before_pairing_keys st (proj1 Hok)) as (_ & _ & HnB).
    split.
    + destruct (pair_people_matching _ HokB ltac:(rewrite HnB; exact He))
        as (pairs & s4 & H4 & Ht & Hperm & _).
      exists pairs, s4. split; [exact H4|]. split; [exact Ht|].
      now rewrite Hperm.
    + intros [[]|e] st' H.
      * now apply perform_sale_agents.
      * destruct (perform_sale_raise st e st' Hok He H) as [_ Hw].
        rewrite Hw.
        pose proof (before_pairing_eq st) as Hb. cbv zeta in Hb.
        rewrite Hb, current_wealth_push in HpB. exact HpB.
Qed.


(** *** Further properties of the engine *)

Lemma even_mod2 k : Nat.Even k <-> (k mod 2 =? 0)%nat = true.
Proof.
  rewrite Nat.eqb_eq. split.
  - intros [m ->]. rewrite Nat.mul_comm. apply Nat.Div0.mod_mul.
  - intros H. exists (k / 2)%nat. pose proof (Nat.div_mod_eq k 2). lia.
Qed.

(** X8.  Construction succeeds exactly on a wealth mapping with a
    positive even number of agents: the engine then refers to the
    mapping it was given, counts its agents and has seeded the global
    generator with [seed]; otherwise it raises
    [Exception('start_wealth needs an even number of people')]. *)
Theorem init_validation (g : gen) (w : dict) (win chi_ zeta_ kappa_ : float) (n_ seed : Z) :
  ((0 < length w)%nat /\ Nat.Even (length w) ->
   exists st,
     __init__ g w win chi_ zeta_ kappa_ n_ seed = Ok st
     /\ current_wealth st = w
     /\ random st = random_seed seed
     /\ _n_people (self st) = length w
     /\ n (self st) = n_)
  /\ (~ ((0 < length w)%nat /\ Nat.Even (length w)) ->
      __init__ g w win chi_ zeta_ kappa_ n_ seed
      = Raise (Exception "start_wealth needs an even number of people")).
Proof.
  unfold ExtendedYardSale.__init__, Wealth._validate_wealth.
  assert (Hk : length (keys w) = length w) by (unfold keys; apply length_map).
  rewrite Hk.
  destruct (length w mod 2 =? 0)%nat eqn:Em; destruct (length w =? 0)%nat eqn:E0;
    cbn [negb orb]; split; intros H.
  - apply Nat.eqb_eq in E0. lia.
  - reflexivity.
  - eexists. split; [reflexivity|]. repeat split.
  - exfalso. apply H. apply Nat.eqb_neq in E0. split; [lia|].
    apply even_mod2. exact Em.
  - apply Nat.eqb_eq in E0. lia.
  - reflexivity.
  - destruct H as [_ He]. apply even_mod2 in He. congruence.
  - reflexivity.
Qed.

(** X10.  [_roll_dice] returns one roll per pair, each 0 or 1; it draws
    from the generator and changes neither the wealth nor any other
    attribute. *)
Theorem roll_dice_outcomes (pairs : list dict) (st : state) (rolls : list Z) (st' : state) :
  _roll_dice pairs st = (Ok rolls, st') ->
  length rolls = length pairs
  /\ Forall (fun r => r = 0%Z \/ r = 1%Z) rolls
  /\ heap st' = heap st /\ self st' = self st.
Proof.
  intros H.
  destruct (rolled_zero_one _ _ _ (roll_dice_rolled _ _ _ _ H)) as [Hl Hf].
  destruct (roll_dice_frame _ _ _ _ H) as [Hh Hs]. auto.
Qed.

(** X11.  A round that fails after at least one round has completed
    (every balance is then a numpy [float64], the value [.round(2)]
    returned) fails with [ValueError] (from [random.sample] or
    [random.choices]) and is not undone: the wealth is left as the tax
    and the loan made it, the loan not collected. *)
Theorem perform_sale_failure (k : nat) (st0 st : state) (e : exn) (st' : state) :
  agents_ok st0 -> Nat.Even (_n_people (self st0)) ->
  rounds (S k) st0 = (Ok tt, st) ->
  perform_sale st = (Raise e, st') ->
  let a := Np.mean (values (current_wealth st)) in
  e = ValueError
  /\ current_wealth st'
     = loan_S (kappa (self st)) a (pay_tax (chi (self st)) a (current_wealth st)).
Proof.
  intros Hok0 He0 Hr H.
  destruct (rounds_agents _ _ _ Hok0 Hr) as [Hp Hok].
  apply (perform_sale_raise st e st' Hok); [|exact H].
  destruct Hok0 as [_ Hn0]. destruct Hok as [_ Hn].
  rewrite Hn, (Permutation_length Hp), <- Hn0. exact He0.
Qed.

(** X12.  [run_yard_sale] with [plot_n = 0] on an engine of at least one
    round performs the first round and then raises
    [ZeroDivisionError], whether [plot] is set or not. *)
Theorem run_yard_sale_zero_plot_n (plot : bool) (st st1 : state) :
  (1 <= n (self st))%Z ->
  perform_sale st = (Ok tt, st1) ->
  run_yard_sale 0 plot st = (Raise ZeroDivisionError, st1).
Proof.
  intros Hn H. unfold ExtendedYardSale.run_yard_sale.
  unfold bind at 1, attr.
  replace (plot && (n (self st) <? 0)%Z) with false
    by (symmetry; apply andb_false_iff; right; apply Z.ltb_ge; lia).
  unfold bind at 1, ret.
  destruct (Z.to_nat (n (self st))) as [|k] eqn:E; [lia|].
  cbn [ExtendedYardSale.run_loop]. unfold bind at 1.
  unfold bind at 1. fold perform_sale. rewrite H. reflexivity.
Qed.

(** X13.  With [n <= 0] [run_yard_sale] performs no round and leaves
    the engine as it was: it raises the [plot_n] exception when [plot]
    is set and [plot_n > n], and otherwise returns an empty history (or
    [None] without [plot]). *)
Theorem run_yard_sale_no_rounds (plot_n : Z) (plot : bool) (st : state) :
  (n (self st) <= 0)%Z ->
  run_yard_sale plot_n plot st =
    if plot && (n (self st) <? plot_n)%Z then (Raise plot_n_error, st)
    else (Ok (if plot then Some [] else None), st).
Proof.
  intros Hn. unfold ExtendedYardSale.run_yard_sale, bind, attr.
  destruct (plot && (n (self st) <? plot_n)%Z); [reflexivity|].
  replace (Z.to_nat (n (self st))) with 0%nat by lia.
  destruct plot; reflexivity.
Qed.

Lemma div_succ (k p : Z) :
  (0 <= k)%Z -> (0 < p)%Z ->
  ((k + 1) / p = k / p + (if (k + 1) mod p =? 0 then 1 else 0))%Z.
Proof.
  intros Hk Hp.
  pose proof (Z.div_mod k p ltac:(lia)) as E.
  pose proof (Z.mod_pos_bound k p Hp) as B.
  destruct (Z.eq_dec (k mod p + 1) p) as [Hr|Hr].
  - assert (Hq : (k + 1 = p * (k / p + 1) + 0)%Z) by lia.
    assert (Hb : (0 <= 0 < p)%Z) by lia.
    rewrite <- (Z.mod_unique_pos _ _ _ _ Hb Hq).
    rewrite <- (Z.div_unique_pos _ _ _ _ Hb Hq). reflexivity.
  - assert (Hq : (k + 1 = p * (k / p) + (k mod p + 1))%Z) by lia.
    assert (Hb : (0 <= k mod p + 1 < p)%Z) by lia.
    rewrite <- (Z.mod_unique_pos _ _ _ _ Hb Hq).
    rewrite <- (Z.div_unique_pos _ _ _ _ Hb Hq).
    destruct (Z.eqb_spec (k mod p + 1) 0); lia.
Qed.

(** The multiples of [p] among [1 .. k]. *)
Lemma multiples_count (p : Z) (k : nat) :
  (0 < p)%Z ->
  Z.of_nat (length (filter (fun j => (j mod p =? 0)%Z) (Zrange 1 k)))
  = (Z.of_nat k / p)%Z.
Proof.
  intros Hp. induction k as [|k IH].
  - simpl. rewrite Z.div_0_l; lia.
  - unfold Zrange in *. rewrite seq_S, map_app, filter_app, length_app.
    rewrite Nat2Z.inj_add, IH. cbn [map filter Nat.add].
    rewrite Nat2Z.inj_succ, <- Z.add_1_r.
    rewrite (div_succ (Z.of_nat k) p) by lia.
    replace (1 + Z.of_nat k)%Z with (Z.of_nat k + 1)%Z by lia.
    destruct ((Z.of_nat k + 1) mod p =? 0)%Z; reflexivity.
Qed.

(** X14.  A successful [run_yard_sale] with [plot] set and a positive
    [plot_n] returns [n // plot_n] snapshots. *)
Theorem history_length (plot_n : Z) (st : state) (ys : list (Z * nat)) (st' : state) :
  (0 < plot_n)%Z ->
  run_yard_sale plot_n true st = (Ok (Some ys), st') ->
  Z.of_nat (length ys) = (n (self st) / plot_n)%Z.
Proof.
  intros Hp E.
  unfold ExtendedYardSale.run_yard_sale, bind, attr in E.
  destruct (true && (n (self st) <? plot_n)%Z) eqn:Hc; [discriminate|].
  cbn [andb] in Hc. apply Z.ltb_ge in Hc. simpl in E.
  destruct (run_loop (Z.to_nat (n (self st))) 1%Z plot_n true [] st)
    as [[h|e] st1] eqn:E1; [|discriminate].
  inversion E; subst.
  apply run_loop_snapshots in E1; [|intros j []].
  destruct E1 as (new & -> & Hkeys & _). cbn [app].
  rewrite <- (length_map fst), Hkeys, multiples_count by assumption.
  rewrite Z2Nat.id by lia. reflexivity.
Qed.

Lemma grows_run_loop k : forall i plot_n plot ys, grows (run_loop k i plot_n plot ys).
Proof.
  induction k as [|k IH]; intros i plot_n plot ys; cbn [ExtendedYardSale.run_loop];
    [same|].
  apply grows_bind; [apply grows_perform_sale|intros _].
  apply grows_bind; [destruct (plot_n =? 0)%Z; same|intros _].
  apply grows_bind; [same|intros r]. apply IH.
Qed.

Lemma grows_run_yard_sale plot_n plot : grows (run_yard_sale plot_n plot).
Proof.
  unfold ExtendedYardSale.run_yard_sale.
  apply grows_bind; [same|intros n0].
  apply grows_bind; [destruct (plot && (n0 <? plot_n)%Z); same|intros _].
  apply grows_bind; [apply grows_run_loop|intros ys].
  destruct plot; same.
Qed.

Lemma grows_rounds k : forall st r st',
  rounds k st = (r, st') -> exists ext, heap st' = heap st ++ ext.
Proof.
  induction k as [|k IH]; intros st r st' H; cbn [ExtendedYardSale.rounds] in H.
  - inversion H; subst. exists []. now rewrite app_nil_r.
  - fold perform_sale in H.
    destruct (perform_sale st) as [[[]|e] st1] eqn:E.
    + destruct (grows_perform_sale _ _ _ E) as [x1 H1].
      destruct (IH _ _ _ H) as [x2 H2].
      exists (x1 ++ x2). now rewrite H2, H1, app_assoc.
    + inversion H; subst. exact (grows_perform_sale _ _ _ E).
Qed.

(** X15.  The engine never writes into the dictionary it was given:
    whatever the rounds do, and also when they fail, the dictionary
    object passed to [__init__] holds the start wealth. *)
Theorem start_wealth_kept (g : gen) (w : dict) (win chi_ zeta_ kappa_ : float)
    (n_ seed : Z) (st : state) :
  __init__ g w win chi_ zeta_ kappa_ n_ seed = Ok st ->
  (forall k r st', rounds k st = (r, st') -> deref (heap st') 0 = w)
  /\ (forall plot_n plot r st',
        run_yard_sale plot_n plot st = (r, st') -> deref (heap st') 0 = w).
Proof.
  unfold ExtendedYardSale.__init__.
  destruct (Wealth._validate_wealth w); [|discriminate].
  intros H. inversion H; subst. clear H. split.
  - intros k r st' H. destruct (grows_rounds _ _ _ _ H) as [ext ->]. reflexivity.
  - intros plot_n plot r st' H.
    destruct (grows_run_yard_sale _ _ _ _ _ H) as [ext ->]. reflexivity.
Qed.

Lemma keys_unique (w : dict) k v v' :
  NoDup (keys w) -> In (k, v) w -> In (k, v') w -> v = v'.
Proof.
  induction w as [|[k1 v1] w IH]; intros Hnd H1 H2; [destruct H1|].
  cbn [keys map fst] in Hnd. inversion Hnd as [|? ? Hnot Hnd']; subst.
  destruct H1 as [H1|H1], H2 as [H2|H2].
  - congruence.
  - inversion H1; subst. exfalso. apply Hnot.
    apply (in_map fst) in H2. exact H2.
  - inversion H2; subst. exfalso. apply Hnot.
    apply (in_map fst) in H1. exact H1.
  - exact (IH Hnd' H1 H2).
Qed.

(** X16.  [_pay_tax] keeps exactly the agents whose balance compares
    with the average: an agent whose balance is a NaN is dropped from
    the wealth mapping; when the average and all balances are numbers,
    every agent is kept. *)
Theorem pay_tax_agents (chi_ avg : float) (w : dict) :
  NoDup (keys w) ->
  (forall k v, In (k, v) w ->
     (In k (keys (pay_tax chi_ avg w)) <-> (avg <? v) = true \/ (v <=? avg) = true))
  /\ (forall k v, In (k, v) w -> Np.is_nan v = true ->
        ~ In k (keys (pay_tax chi_ avg w)))
  /\ (Np.is_nan avg = false ->
      Forall (fun v => Np.is_nan v = false) (values w) ->
      Permutation (keys (pay_tax chi_ avg w)) (keys w)).
Proof.
  intros Hnd. rewrite (keys_pay_tax chi_ avg w Hnd).
  assert (H1 : forall k v, In (k, v) w ->
             (In k (keys (rich_of avg w ++ poor_of avg w))
              <-> (avg <? v) = true \/ (v <=? avg) = true)).
  { intros k v Hin. unfold keys. rewrite map_app, in_app_iff, !in_map_iff.
    unfold rich_of, poor_of. split.
    - intros [[[k' v'] [Hk Hf]]|[[k' v'] [Hk Hf]]];
        apply filter_In in Hf as [Hf Hb]; cbn [fst snd] in *; subst k';
        rewrite (keys_unique w k v v' Hnd Hin Hf); auto.
    - intros [Hb|Hb]; [left|right]; exists (k, v);
        (split; [reflexivity|]); apply filter_In; auto. }
  split; [exact H1|]. split.
  - intros k v Hin Hv Hk. apply (H1 k v Hin) in Hk.
    destruct Hk as [Hk|Hk].
    + rewrite FloatFacts.ltb_nan_r in Hk by assumption. discriminate.
    + rewrite FloatFacts.leb_nan_l in Hk by assumption. discriminate.
  - intros Ha Hw. unfold keys. apply Permutation_map.
    apply rich_poor_all. apply rich_poor_numbers; assumption.
Qed.

Lemma dset_in (d : dict) k v kv : In kv (dset d k v) -> kv = (k, v) \/ In kv d.
Proof.
  unfold dset. induction d as [|[k' v'] d IH]; cbn [set]; intros H.
  - destruct H as [H|[]]. left. now symmetry.
  - destruct (String.eqb k k') eqn:E.
    + apply String.eqb_eq in E. subst k'.
      destruct H as [H|H]; [left; now symmetry|right; right; exact H].
    + destruct H as [H|H]; [right; left; exact H|].
      destruct (IH H) as [Hk|Hd]; [left; exact Hk|right; right; exact Hd].
Qed.

Lemma of_items_in (items : dict) kv :
  In kv (of_items String.eqb items) -> In kv items.
Proof.
  unfold of_items.
  assert (G : forall acc : dict,
             In kv (fold_left (fun d x => set String.eqb d (fst x) (snd x)) items acc) ->
             In kv acc \/ In kv items).
  { induction items as [|[k v] items IH]; intros acc H; cbn [fold_left] in H.
    - left. exact H.
    - destruct (IH _ H) as [Ha|Hi]; [|right; right; exact Hi].
      cbn [fst snd] in Ha. destruct (dset_in acc k v kv Ha) as [->|Hacc].
      + right. left. reflexivity.
      + left. exact Hacc. }
  intros H. destruct (G [] H) as [[]|Hi]. exact Hi.
Qed.

(** X17.  After a round that succeeds every balance is the result of a
    rounding to 2 decimals. *)
Theorem balances_rounded (st st' : state) :
  perform_sale st = (Ok tt, st') ->
  Forall (fun v => exists x, v = Np.round x 2) (values (current_wealth st')).
Proof.
  intros H. apply perform_sale_trace in H.
  destruct H as [a dr g1 ids ps rs wx taxed loaned Ha Hen Hs Hr Hp Hro Hx Hw Hn' _].
  rewrite Hw. apply Forall_forall. intros v Hv.
  unfold values in Hv. apply in_map_iff in Hv as [[k v'] [Ev Hin]].
  cbn [snd] in Ev. subst v'.
  unfold collect_S in Hin. apply of_items_in in Hin.
  apply in_map_iff in Hin as [[k0 v0] [E _]]. inversion E; subst.
  eexists. reflexivity.
Qed.

Lemma run_loop_rounds k : forall i plot_n plot ys st h st',
  run_loop k i plot_n plot ys st = (Ok h, st') -> rounds k st = (Ok tt, st').
Proof.
  induction k as [|k IH]; intros i plot_n plot ys st h st' H;
    cbn [ExtendedYardSale.run_loop ExtendedYardSale.rounds] in *.
  - inversion H; subst. reflexivity.
  - unfold bind at 1 in H. fold perform_sale in H |- *.
    destruct (perform_sale st) as [[[]|e] st1]; [|discriminate].
    unfold bind at 1 in H.
    destruct (plot_n =? 0)%Z; [discriminate|].
    unfold ret at 1 in H. unfold bind at 1, attr in H.
    exact (IH _ _ _ _ _ _ _ H).
Qed.

(** X18.  A run that succeeds ends in the state that [n] calls of
    [perform_sale] lead to, whatever [plot_n] and [plot] are: taking
    snapshots does not interfere with the rounds. *)
Theorem run_is_rounds (plot_n : Z) (plot : bool) (st : state)
    (h : option (list (Z * nat))) (st' : state) :
  run_yard_sale plot_n plot st = (Ok h, st') ->
  rounds (Z.to_nat (n (self st))) st = (Ok tt, st').
Proof.
  intros E.
  unfold ExtendedYardSale.run_yard_sale, bind, attr in E.
  destruct (plot && (n (self st) <? plot_n)%Z); [discriminate|]. simpl in E.
  destruct (run_loop (Z.to_nat (n (self st))) 1%Z plot_n plot [] st)
    as [[ys|e] st1] eqn:E1; [|discriminate].
  apply run_loop_rounds in E1.
  destruct plot; inversion E; subst; exact E1.
Qed.

Lemma Zrange_in j k : forall i, In j (Zrange i k) <-> (i <= j < i + Z.of_nat k)%Z.
Proof.
  induction k as [|k IH]; intros i.
  - simpl. lia.
  - rewrite Zrange_S. cbn [In]. rewrite IH. lia.
Qed.

Lemma zget_in {V} (h : list (Z * V)) i d : get Z.eqb h i = Some d -> In (i, d) h.
Proof.
  induction h as [|[j v] h IH]; cbn [get]; [discriminate|].
  destruct (Z.eqb_spec i j) as [->|_].
  - intros H. inversion H. left. reflexivity.
  - intros H. right. exact (IH H).
Qed.

Lemma zget_none {V} (h : list (Z * V)) i : ~ In i (map fst h) -> get Z.eqb h i = None.
Proof.
  induction h as [|[j v] h IH]; cbn [get map fst In]; [reflexivity|].
  intros H. destruct (Z.eqb_spec i j) as [->|_].
  - exfalso. apply H. left. reflexivity.
  - apply IH. intros Hin. apply H. right. exact Hin.
Qed.

Lemma zget_some {V} (h : list (Z * V)) i :
  In i (map fst h) -> exists d, get Z.eqb h i = Some d.
Proof.
  induction h as [|[j v] h IH]; cbn [get map fst In]; [intros []|].
  intros H. destruct (Z.eqb_spec i j) as [->|Hn]; [eauto|].
  destruct H as [H|H]; [congruence|exact (IH H)].
Qed.

(** X19.  [plot_wealth] on the history a run returned: for a round that
    is a multiple of [plot_n] (from 1 to [n]) it plots the agents and
    the balances as they stood after that round, the agents being those
    of the start; for any other round it raises [KeyError]. *)
Theorem plot_wealth_of_history (plot_n : Z) (st : state) (ys : list (Z * nat))
    (st' : state) (i : Z) :
  agents_ok st ->
  run_yard_sale plot_n true st = (Ok (Some ys), st') ->
  let history := map (fun ir => (fst ir, deref (heap st') (snd ir))) ys in
  ((1 <= i <= n (self st))%Z /\ (i mod plot_n = 0)%Z ->
   exists st_i,
     rounds (Z.to_nat i) st = (Ok tt, st_i)
     /\ plot_wealth history i
        = Ok (keys (current_wealth st_i), values (current_wealth st_i))
     /\ Permutation (keys (current_wealth st_i)) (keys (current_wealth st)))
  /\ (~ ((1 <= i <= n (self st))%Z /\ (i mod plot_n = 0)%Z) ->
      plot_wealth history i = Raise KeyError).
Proof.
  intros Hok E history.
  unfold ExtendedYardSale.run_yard_sale, bind, attr in E.
  destruct (true && (n (self st) <? plot_n)%Z); [discriminate|]. simpl in E.
  destruct (run_loop (Z.to_nat (n (self st))) 1%Z plot_n true [] st)
    as [[h|e] st1] eqn:E1; [|discriminate].
  inversion E; subst. clear E.
  apply run_loop_snapshots in E1; [|intros j []].
  destruct E1 as (new & -> & Hkeys & _ & Hsnap). cbn [app] in *.
  assert (Hfst : map fst history = map fst new).
  { unfold history. rewrite map_map. reflexivity. }
  assert (Hin : In i (map fst history)
                <-> (1 <= i <= n (self st))%Z /\ (i mod plot_n = 0)%Z).
  { rewrite Hfst, Hkeys, filter_In, Zrange_in, Z.eqb_eq. lia. }
  split.
  - intros Hi. apply Hin in Hi.
    destruct (zget_some history i Hi) as [d Hd].
    pose proof (zget_in history i d Hd) as Hid.
    unfold history in Hid. apply in_map_iff in Hid as [[j r] [Ejr Hjr]].
    cbn [fst snd] in Ejr. injection Ejr as Ej Ed. subst j d.
    destruct (Hsnap _ _ Hjr) as (st_i & Hr & Hderef).
    assert (Hi1 : (1 <= i)%Z).
    { apply (Zrange_ge _ (Z.to_nat (n (self st)))). apply (in_map fst) in Hjr.
      cbn [fst] in Hjr. rewrite Hkeys in Hjr. now apply filter_In in Hjr. }
    replace (S (Z.to_nat (i - 1))) with (Z.to_nat i) in Hr by lia.
    exists st_i. split; [exact Hr|]. split.
    + unfold plot_wealth. rewrite Hd, Hderef. reflexivity.
    + exact (proj1 (rounds_agents _ _ _ Hok Hr)).
  - intros Hno. unfold plot_wealth. rewrite zget_none; [reflexivity|].
    intros Hi. apply Hno, Hin, Hi.
Qed.

End EngineFacts.

(** ** The concrete generator keeps the library's contract *)

Module LcgFacts.

Lemma sample_perm g population :
  Permutation (fst (Lcg.sample g population (length population))) population.
Proof.
  unfold Lcg.sample. simpl.
  set (r := Z.to_nat (g mod Z.of_nat (length population))).
  rewrite firstn_all2.
  - rewrite Permutation_app_comm. now rewrite firstn_skipn.
  - apply Nat.eq_le_incl.
    rewrite <- (firstn_skipn r population) at 3. rewrite !length_app. lia.
Qed.

Lemma choices_in g population ws r g' :
  Lcg.choices g population ws = (Some r, g') -> In r population.
Proof.
  unfold Lcg.choices.
  destruct (forallb _ ws && _ && _); [|discriminate].
  intros H. inversion H as [[Hn Hg]]. now apply nth_error_In in Hn.
Qed.

Lemma choices_nan g population ws r g' :
  Lcg.choices g population ws = (Some r, g') ->
  Forall (fun w => Np.is_nan w = false) ws.
Proof.
  unfold Lcg.choices.
  destruct (forallb (fun w => negb (Np.is_nan w)) ws) eqn:E; [|discriminate].
  intros _. rewrite forallb_forall in E. apply Forall_forall. intros w Hw.
  specialize (E w Hw). now destruct (Np.is_nan w).
Qed.


End LcgFacts.

(** ** Concrete engines *)

Local Open Scope string_scope.

Definition lcg_state := ExtendedYardSale.state Lcg.gen.

(** The engine [ExtendedYardSale(start_wealth, win_percentage, chi, zeta,
    kappa, n, seed)] as [__init__] leaves it on the concrete generator. *)
Definition engine (start_wealth : dict) (win_percentage chi zeta kappa : float)
    (n seed : Z) : lcg_state :=
  {| heap := [start_wealth];
     random := Lcg.random_seed seed;
     self := {| wealth := 0;
                win_percentage := win_percentage;
                chi := chi;
                zeta := zeta;
                kappa := kappa;
                n := n;
                _n_people := length (keys start_wealth);
                _avg_wealth := None |} |}.

Lemma engine_init g start_wealth win_percentage chi zeta kappa n seed :
  Wealth._validate_wealth start_wealth = Ok tt ->
  ExtendedYardSale.__init__ Lcg.gen Lcg.random_seed g start_wealth
    win_percentage chi zeta kappa n seed
  = Ok (engine start_wealth win_percentage chi zeta kappa n seed).
Proof.
  intros H. unfold ExtendedYardSale.__init__. now rewrite H.
Qed.

Abbreviation lcg_perform_sale :=
  (ExtendedYardSale.perform_sale Lcg.gen Lcg.sample Lcg.choices).
Abbreviation lcg_run_yard_sale :=
  (ExtendedYardSale.run_yard_sale Lcg.gen Lcg.sample Lcg.choices).
Abbreviation lcg_rounds := (ExtendedYardSale.rounds Lcg.gen Lcg.sample Lcg.choices).

(** Two agents, equal start. *)
Definition two_equal : dict := [("A", 100); ("B", 100)].

(** *** Runs of the theorems above *)

(** A run of [run_yard_sale_history]: three rounds, a snapshot every
    round. *)
Lemma run_yard_sale_history_run :
  let st := engine two_equal 0.5 0 0 0 3 1 in
  exists h st',
    lcg_run_yard_sale 1 true st = (Ok h, st')
    /\ exists ys,
         h = Some ys
         /\ map fst ys
            = filter (fun i => (i mod 1 =? 0)%Z) (Zrange 1 (Z.to_nat (n (self st))))
         /\ forall i r, In (i, r) ys ->
              exists st_i,
                lcg_rounds (Z.to_nat i) st = (Ok tt, st_i)
                /\ deref (heap st') r = current_wealth st_i.
Proof.
  intros st.
  destruct (lcg_run_yard_sale 1 true st) as [r st'] eqn:E.
  assert (exists h, r = Ok h) as [h ->].
  { assert (Hr : r = fst (lcg_run_yard_sale 1 true st)) by now rewrite E.
    vm_compute in Hr. eexists. exact Hr. }
  exists h, st'. split; [reflexivity|].
  apply (run_yard_sale_history Lcg.gen Lcg.sample Lcg.choices 1 true st h st' E).
Defined.

(** A run of [exchange_wealth_settlement]: one pair, the poorer wins. *)
Lemma exchange_wealth_settlement_run :
  exists wealth,
    exchange_wealth 0.5 [] [[("A", 100); ("B", 150)]] [1%Z] = Ok wealth
    /\ forall i k0 v0 k1 v1 roll,
         nth_error [[("A", 100); ("B", 150)]] i = Some [(k0, v0); (k1, v1)] ->
         nth_error [1%Z] i = Some roll ->
         ((v0 <? v1)%float = true ->
          dget wealth k0 = Some (poor_new 0.5 v0 v1 roll v0)
          /\ dget wealth k1 = Some (rich_new 0.5 v0 v1 roll v1))
         /\ ((v1 <? v0)%float = true ->
             dget wealth k1 = Some (poor_new 0.5 v0 v1 roll v1)
             /\ dget wealth k0 = Some (rich_new 0.5 v0 v1 roll v0))
         /\ ((v0 =? v1)%float = true ->
             dget wealth k0 = Some (poor_new 0.5 v0 v1 roll v0)
             /\ dget wealth k1 = Some (rich_new 0.5 v0 v1 roll v1)).
Proof.
  apply (exchange_wealth_settlement 0.5 [[("A", 100); ("B", 150)]] [1%Z]).
  - constructor; [|constructor]. exists "A", 100%float, "B", 150%float. reflexivity.
  - simpl. constructor; [|constructor; [|constructor]].
    + simpl. intros [H|[]]. discriminate H.
    + simpl. intros [].
  - reflexivity.
  - constructor; [|constructor]. right. reflexivity.
Defined.

Lemma two_equal_agents_ok (st := engine two_equal 0.5 0 0 0 3 1) :
  agents_ok Lcg.gen st.
Proof.
  split; [|reflexivity].
  change (NoDup ["A"; "B"]). constructor; [|constructor; [|constructor]].
  - simpl. intros [H|[]]. discriminate H.
  - simpl. intros [].
Defined.

(** Four agents, unequal start, every parameter set. *)
Definition four_unequal : dict := [("A", 100); ("B", 250); ("C", 40); ("D", 10)].

Lemma four_unequal_agents_ok (st := engine four_unequal 0.2 0.1 0.01 0.5 3 7) :
  agents_ok Lcg.gen st.
Proof.
  split; [|reflexivity].
  change (NoDup ["A"; "B"; "C"; "D"]).
  repeat (constructor; [simpl; intuition discriminate|]). constructor.
Defined.

(** A run of [pairing_and_agents] on the concrete generator: four
    agents with tax, bias and loan; the balances and their average (100)
    are numbers. *)
Lemma pairing_and_agents_run :
  let st := engine four_unequal 0.2 0.1 0.01 0.5 3 7 in
  (Nat.Even (_n_people (self st)) ->
   exists pairs st',
     ExtendedYardSale._pair_people Lcg.gen Lcg.sample st = (Ok pairs, st')
     /\ Forall two_entries pairs
     /\ Permutation (concat (map keys pairs)) (keys (current_wealth st))
     /\ forall p k v, In p pairs -> In (k, v) p -> In (k, v) (current_wealth st))
  /\ (forall k st',
        lcg_rounds k st = (Ok tt, st') ->
        Permutation (keys (current_wealth st')) (keys (current_wealth st))
        /\ agents_ok Lcg.gen st')
  /\ (forall st',
        lcg_perform_sale st = (Ok tt, st') ->
        exists pairs st_p,
          ExtendedYardSale._pair_people Lcg.gen Lcg.sample (before_pairing Lcg.gen st)
          = (Ok pairs, st_p)
          /\ Forall two_entries pairs
          /\ Permutation (concat (map keys pairs)) (keys (current_wealth st)))
  /\ (exists pairs st_p,
        ExtendedYardSale._pair_people Lcg.gen Lcg.sample (before_pairing Lcg.gen st)
        = (Ok pairs, st_p)
        /\ Forall two_entries pairs
        /\ Permutation (concat (map keys pairs)) (keys (current_wealth st)))
  /\ (forall r st',
        lcg_perform_sale st = (r, st') ->
        Permutation (keys (current_wealth st')) (keys (current_wealth st))).
Proof.
  intros st.
  destruct (pairing_and_agents Lcg.gen Lcg.sample Lcg.choices
              LcgFacts.sample_perm LcgFacts.choices_in LcgFacts.choices_nan st
              four_unequal_agents_ok) as (H1 & H2 & H3 & H4).
  split; [exact H1|]. split; [exact H2|]. split; [exact H3|].
  apply H4.
  - repeat constructor.
  - reflexivity.
  - exists 2%nat. reflexivity.
Defined.


Local Open Scope float_scope.

(** A run of [roll_weights_positive]: [zeta = 1], balances 0.3 and 1.5. *)
Lemma roll_weights_positive_run :
  ((0 <=? 1) = true /\ (1 * abs (0.3 - 1.5) <? infinity) = true)
  /\ exists w0 w1,
       weights 1 [("A", 0.3); ("B", 1.5)] = Ok [w0; w1]
       /\ (0 <? w0) = true /\ (w0 <=? 1) = true
       /\ (0 <? w1) = true /\ (w1 <=? 0.5) = true
       /\ (0 <? fold_left PrimFloat.add [w0; w1] 0) = true
       /\ (fold_left PrimFloat.add [w0; w1] 0 <? infinity) = true.
Proof.
  split; [split; reflexivity|].
  apply (roll_weights_positive 1 "A" "B" 0.3 1.5); reflexivity.
Defined.

(** A run of [lorenz_curve_shape]: three agents. *)
Lemma lorenz_curve_shape_run :
  let w : dict := [("A", 3); ("B", 1); ("C", 2)] in
  let total := Np.sum (Wealth.sort_wealth w) in
  let xs := fst (Wealth.plot_lorenz_curve w) in
  let ys := snd (Wealth.plot_lorenz_curve w) in
  ((0 < length w)%nat /\ (Z.of_nat (length w) < 2 ^ 63)%Z)
  /\ ys = 0 :: map (fun c => c / total) (Np.cumsum (Wealth.sort_wealth w))
  /\ length xs = S (length w) /\ length ys = S (length w)
  /\ nth 0 xs nan = 0 /\ nth 0 ys nan = 0
  /\ last xs nan = 1
  /\ (Forall (fun v => (0 <=? v) = true) (values w) ->
      (0 <? total) = true -> (total <? infinity) = true ->
      Sorted (fun a b => (a <=? b) = true) ys)
  /\ ((length w < 8)%nat ->
      (abs total <? infinity) = true -> (total =? 0) = false ->
      last ys nan = 1).
Proof.
  cbv zeta. split; [split; [repeat constructor|reflexivity]|].
  apply (lorenz_curve_shape [("A", 3); ("B", 1); ("C", 2)]);
    [repeat constructor|reflexivity].
Defined.

(** *** Where the code departs from the specification *)

(** C1 does not hold as stated: the generator is the module's, not the
    engine's.  Two engines are constructed one after the other from the
    same wealth mapping, parameters and seed, and then each performs one
    round, the first engine first: the second engine draws what the
    first left in the generator, and the two engines end their first
    round with different wealth mappings. *)
Lemma shared_generator_counterexample :
  let w : dict := [("A", 100); ("B", 200)] in
  exists s1 s2 s3 s4 : lcg_state,
    ExtendedYardSale.__init__ Lcg.gen Lcg.random_seed 0%Z w 0.5 0 0 0 1 0 = Ok s1
    /\ ExtendedYardSale.construct Lcg.gen Lcg.random_seed s1 w 0.5 0 0 0 1 0 = Ok s2
    /\ call lcg_perform_sale (self s1) s2 = (Ok tt, s3)
    /\ call lcg_perform_sale (self s2) s3 = (Ok tt, s4)
    /\ deref (heap s4) (wealth (self s3)) = [("A", 50); ("B", 250)]%float
    /\ deref (heap s4) (wealth (self s4)) = [("A", 150); ("B", 150)]%float
    /\ deref (heap s4) (wealth (self s3)) <> deref (heap s4) (wealth (self s4)).
Proof.
  intros w. do 4 eexists.
  split; [reflexivity|]. split; [reflexivity|].
  split; [vm_compute; reflexivity|]. split; [vm_compute; reflexivity|].
  split; [vm_compute; reflexivity|]. split; [vm_compute; reflexivity|].
  intros H.
  apply (f_equal (fun d : dict => match d with
                                  | (_, v) :: _ => (v =? 50)%float
                                  | [] => false
                                  end)) in H.
  vm_compute in H. discriminate H.
Qed.

(** Eight finite balances whose numpy sum is a NaN: the pairwise
    addition meets [inf + -inf]. *)
Definition eight_large : dict :=
  [("A", 1.7e308); ("B", 1.7e308); ("C", -1.7e308); ("D", -1.7e308);
   ("E", 1.7e308); ("F", 1.7e308); ("G", -1.7e308); ("H", -1.7e308)]%float.

(** C5 does not hold as stated: a round can lose agents.  On
    [eight_large] the average is a NaN, no balance compares with it,
    [_pay_tax] keeps no agent, [random.sample] raises [ValueError] and
    [perform_sale] leaves the wealth mapping empty. *)
Lemma agents_dropped_counterexample :
  let st := engine eight_large 0.5 0 0 0 1 1 in
  agents_ok Lcg.gen st
  /\ Nat.Even (_n_people (self st))
  /\ Forall (fun v => (abs v <? infinity)%float = true) (values (current_wealth st))
  /\ Np.is_nan (Np.mean (values (current_wealth st))) = true
  /\ fst (ExtendedYardSale._pair_people Lcg.gen Lcg.sample (before_pairing Lcg.gen st))
     = Raise ValueError
  /\ exists st',
       lcg_perform_sale st = (Raise ValueError, st')
       /\ keys (current_wealth st') = [].
Proof.
  intros st. split; [|split; [|split; [|split; [|split]]]].
  - split; [|reflexivity].
    change (NoDup ["A"; "B"; "C"; "D"; "E"; "F"; "G"; "H"]).
    repeat (constructor; [simpl; intuition discriminate|]). constructor.
  - exists 4%nat. reflexivity.
  - repeat constructor.
  - vm_compute. reflexivity.
  - vm_compute. reflexivity.
  - eexists. split; vm_compute; reflexivity.
Qed.


(** C3 fails on the specification's own example: with the start
    [{A: 50, B: 150}] and [chi = 0.1] the tax [0.1 * 150 = 15.0] becomes
    [15.0 // 0.01 = 1499.0], that is 14.99, and [A] ends at 64.99 while [B]
    pays 15.00. *)
Theorem pay_tax_spec_example :
  Np.mean [50; 150] = 100%float
  /\ (0.1 * Np.sum [150])%float = 15%float
  /\ Np.floor_divide 15 0.01 = 1499%float
  /\ pay_tax 0.1 100 [("A", 50); ("B", 150)] = [("B", 135); ("A", 64.99)]%float.
Proof. repeat split; vm_compute; reflexivity. Qed.

(** C7 does not hold as stated: with [plot] false [run_yard_sale]
    returns [None], not an empty history. *)
Lemma no_plot_returns_none :
  fst (lcg_run_yard_sale 1 false (engine two_equal 0.5 0 0 0 3 1)) = Ok None
  /\ fst (lcg_run_yard_sale 1 false (engine two_equal 0.5 0 0 0 3 1)) <> Ok (Some []).
Proof.
  assert (H : fst (lcg_run_yard_sale 1 false (engine two_equal 0.5 0 0 0 3 1)) = Ok None)
    by (vm_compute; reflexivity).
  split; [exact H|]. rewrite H. discriminate.
Qed.

(** C8 does not hold as stated: two equal balances of 0.1 have a Gini
    coefficient of [2^-52], not 0; and a total wealth of zero produces a
    NaN, not an exception. *)
Lemma gini_counterexample :
  Wealth.calc_gini [("A", 0.1); ("B", 0.1)] = Ok 0x1p-52%float
  /\ (0x1p-52 =? 0)%float = false
  /\ Wealth.calc_gini [("A", 0); ("B", 0)] = Ok nan.
Proof. repeat split; vm_compute; reflexivity. Qed.

(** C9 does not hold as stated: with a negative balance the curve
    dips below its start; with eight balances of 0.1 it ends below 1. *)
Lemma lorenz_counterexample :
  snd (Wealth.plot_lorenz_curve [("A", 3); ("B", -1)]) = [0; -0.5; 1]%float
  /\ (-0.5 <? 0)%float = true
  /\ last (snd (Wealth.plot_lorenz_curve
                  (map (fun k => (k, 0.1%float)) ["A"; "B"; "C"; "D"; "E"; "F"; "G"; "H"])))
          0%float
     = 0.99999999999999989%float.
Proof. repeat split; vm_compute; reflexivity. Qed.

(** C10 does not hold as stated: for [zeta = 1] and the balances 0.3
    and 1.5 the two weights do not sum to 1; and a bias that overflows
    ([zeta = 1e200], balances 1e200 and 0) makes the first weight a NaN
    and the second 0. *)
Lemma weights_counterexample :
  (exists w0 w1,
    weights 1 [("A", 0.3); ("B", 1.5)] = Ok [w0; w1]
    /\ ((w0 + w1 =? 1)%float = false)
    /\ (w0 + w1)%float = 0.99999999999999989%float)
  /\ (0 <=? 1e200)%float = true
  /\ weights 1e200 [("A", 1e200); ("B", 0)] = Ok [nan; 0]%float.
Proof.
  split; [eexists; eexists|]; repeat split; vm_compute; reflexivity.
Qed.

(** *** Runs of the further properties *)

Lemma nodup_two (a b : person) : a <> b -> NoDup [a; b].
Proof.
  intros H. constructor; [|constructor; [|constructor]].
  - intros [E|[]]. apply H. symmetry. exact E.
  - intros [].
Defined.

(** A run of [roll_weights_favour_richer]. *)
Lemma roll_weights_favour_richer_run :
  ((0 <=? 1) = true /\ (1 * abs (0.3 - 1.5) <? infinity) = true)
  /\ exists w0 w1,
       weights 1 [("A", 0.3); ("B", 1.5)] = Ok [w0; w1] /\ (w1 <=? w0) = true.
Proof.
  split; [split; reflexivity|].
  apply (roll_weights_favour_richer 1 "A" "B" 0.3 1.5); reflexivity.
Defined.

(** A run of [roll_weights_fair]. *)
Lemma roll_weights_fair_run :
  (abs (0.3 - 1.5) <? infinity) = true
  /\ weights 0 [("A", 0.3); ("B", 1.5)] = Ok [0.5; 0.5].
Proof.
  split; [reflexivity|].
  apply (roll_weights_fair "A" "B" 0.3 1.5). reflexivity.
Defined.

(** A run of [poorer_weight_antitone]: the same pair under [zeta = 1]
    and [zeta = 2]. *)
Lemma poorer_weight_antitone_run :
  ((0 <=? 1) = true
   /\ (1 * abs (0.3 - 1.5) <=? 2 * abs (0.3 - 1.5)) = true
   /\ (2 * abs (0.3 - 1.5) <? infinity) = true)
  /\ exists w0 w1 w0' w1',
       weights 1 [("A", 0.3); ("B", 1.5)] = Ok [w0; w1]
       /\ weights 2 [("A", 0.3); ("B", 1.5)] = Ok [w0'; w1']
       /\ (w1' <=? w1) = true.
Proof.
  split; [repeat split; reflexivity|].
  apply (poorer_weight_antitone 1 2 "A" "B" "A" "B" 0.3 1.5 0.3 1.5); reflexivity.
Defined.

(** A run of [lorenz_x_sorted]. *)
Lemma lorenz_x_sorted_run :
  let w : dict := [("A", 3); ("B", 1); ("C", 2)] in
  ((0 < length w)%nat /\ (Z.of_nat (length w) < 2 ^ 63)%Z)
  /\ Sorted (fun a b => (a <=? b) = true) (fst (Wealth.plot_lorenz_curve w)).
Proof.
  cbv zeta. split; [split; [repeat constructor|reflexivity]|].
  apply (lorenz_x_sorted [("A", 3); ("B", 1); ("C", 2)]);
    [repeat constructor|reflexivity].
Defined.

(** A run of [calc_gini_nan]. *)
Lemma calc_gini_nan_run :
  (In nan (values [("A", nan); ("B", 1)]) /\ Np.is_nan nan = true)
  /\ exists g, Wealth.calc_gini [("A", nan); ("B", 1)] = Ok g /\ Np.is_nan g = true.
Proof.
  split; [split; [left; reflexivity|reflexivity]|].
  apply (calc_gini_nan [("A", nan); ("B", 1)] nan); [left; reflexivity|reflexivity].
Defined.

(** A run of [lorenz_y_unit_interval]. *)
Lemma lorenz_y_unit_interval_run :
  let w : dict := [("A", 3); ("B", 1); ("C", 2)] in
  ((0 < length w < 8)%nat
   /\ Forall (fun v => (0 <=? v) = true) (values w)
   /\ (0 <? Np.sum (Wealth.sort_wealth w)) = true
   /\ (Np.sum (Wealth.sort_wealth w) <? infinity) = true)
  /\ Forall (fun y => (0 <=? y) = true /\ (y <=? 1) = true)
       (snd (Wealth.plot_lorenz_curve w)).
Proof.
  cbv zeta.
  assert (H1 : (0 < length [("A", 3); ("B", 1); ("C", 2)] < 8)%nat)
    by (split; repeat constructor).
  assert (H2 : Forall (fun v => (0 <=? v) = true)
                 (values [("A", 3); ("B", 1); ("C", 2)]))
    by (repeat constructor).
  split; [split; [exact H1|split; [exact H2|split; reflexivity]]|].
  apply (lorenz_y_unit_interval [("A", 3); ("B", 1); ("C", 2)] H1 H2); reflexivity.
Defined.

(** A run of [roll_dice_outcomes]. *)
Lemma roll_dice_outcomes_run :
  let st := engine two_equal 0.5 0 0 0 3 1 in
  exists rolls st',
    ExtendedYardSale._roll_dice Lcg.gen Lcg.choices [two_equal] st = (Ok rolls, st')
    /\ length rolls = length [two_equal]
    /\ Forall (fun r => r = 0%Z \/ r = 1%Z) rolls
    /\ heap st' = heap st /\ self st' = self st.
Proof.
  intros st.
  destruct (ExtendedYardSale._roll_dice Lcg.gen Lcg.choices [two_equal] st)
    as [r st'] eqn:E.
  assert (exists rolls, r = Ok rolls) as [rolls ->].
  { assert (Hr : r = fst (ExtendedYardSale._roll_dice Lcg.gen Lcg.choices [two_equal] st))
      by now rewrite E.
    vm_compute in Hr. eexists. exact Hr. }
  exists rolls, st'. split; [reflexivity|].
  apply (roll_dice_outcomes Lcg.gen Lcg.choices LcgFacts.choices_in
           [two_equal] st rolls st' E).
Defined.

(** Two agents at 100 each under a large [zeta]: the first round has no
    bias; after it the balances differ and the bias overflows. *)
Definition biased_engine : lcg_state := engine two_equal 0.5 0 1e307 0 3 1.

Lemma biased_engine_agents_ok : agents_ok Lcg.gen biased_engine.
Proof.
  split; [|reflexivity]. change (NoDup ["A"; "B"]). apply nodup_two. discriminate.
Defined.

(** A run of [perform_sale_failure]: the first round completes, the
    second fails in [random.choices] on weights that are not numbers,
    and leaves the balances 50 and 150 as taxed and loaned. *)
Lemma perform_sale_failure_run :
  exists st e st',
    lcg_rounds 1 biased_engine = (Ok tt, st)
    /\ lcg_perform_sale st = (Raise e, st')
    /\ let a := Np.mean (values (current_wealth st)) in
       e = ValueError
       /\ current_wealth st'
          = loan_S (kappa (self st)) a (pay_tax (chi (self st)) a (current_wealth st)).
Proof.
  destruct (lcg_rounds 1 biased_engine) as [r st] eqn:E.
  assert (Hst : st = snd (lcg_rounds 1 biased_engine)) by now rewrite E.
  assert (r = Ok tt) as ->.
  { assert (Hr : r = fst (lcg_rounds 1 biased_engine)) by now rewrite E.
    vm_compute in Hr. exact Hr. }
  destruct (lcg_perform_sale st) as [r' st'] eqn:E'.
  assert (exists e, r' = Raise e) as [e ->].
  { assert (Hr : r' = fst (lcg_perform_sale st)) by now rewrite E'.
    rewrite Hst in Hr. vm_compute in Hr. eexists. exact Hr. }
  exists st, e, st'. split; [reflexivity|]. split; [exact E'|].
  apply (perform_sale_failure Lcg.gen Lcg.sample Lcg.choices
           LcgFacts.sample_perm LcgFacts.choices_in LcgFacts.choices_nan
           0%nat biased_engine st e st' biased_engine_agents_ok).
  - exists 1%nat. reflexivity.
  - exact E.
  - exact E'.
Defined.

(** A run of [run_yard_sale_zero_plot_n]. *)
Lemma run_yard_sale_zero_plot_n_run :
  let st := engine two_equal 0.5 0 0 0 3 1 in
  exists st1,
    ((1 <= n (self st))%Z /\ lcg_perform_sale st = (Ok tt, st1))
    /\ lcg_run_yard_sale 0 false st = (Raise ZeroDivisionError, st1).
Proof.
  intros st.
  destruct (lcg_perform_sale st) as [r st1] eqn:E.
  assert (r = Ok tt) as ->.
  { assert (Hr : r = fst (lcg_perform_sale st)) by now rewrite E.
    vm_compute in Hr. exact Hr. }
  assert (Hn : (1 <= n (self st))%Z) by discriminate.
  exists st1. split; [split; [exact Hn|reflexivity]|].
  apply (run_yard_sale_zero_plot_n Lcg.gen Lcg.sample Lcg.choices false st st1 Hn E).
Defined.

(** A run of [run_yard_sale_no_rounds]: an engine of no round. *)
Lemma run_yard_sale_no_rounds_run :
  let st := engine two_equal 0.5 0 0 0 0 1 in
  (n (self st) <= 0)%Z
  /\ lcg_run_yard_sale 0 true st =
       if true && (n (self st) <? 0)%Z then (Raise plot_n_error, st)
       else (Ok (if true then Some [] else None), st).
Proof.
  intros st.
  assert (Hn : (n (self st) <= 0)%Z) by discriminate.
  split; [exact Hn|].
  apply (run_yard_sale_no_rounds Lcg.gen Lcg.sample Lcg.choices 0%Z true st Hn).
Defined.

(** A run of [history_length]: three rounds, a snapshot every second
    round. *)
Lemma history_length_run :
  let st := engine two_equal 0.5 0 0 0 3 1 in
  exists ys st',
    ((0 < 2)%Z /\ lcg_run_yard_sale 2 true st = (Ok (Some ys), st'))
    /\ Z.of_nat (length ys) = (n (self st) / 2)%Z.
Proof.
  intros st.
  destruct (lcg_run_yard_sale 2 true st) as [r st'] eqn:E.
  assert (exists ys, r = Ok (Some ys)) as [ys ->].
  { assert (Hr : r = fst (lcg_run_yard_sale 2 true st)) by now rewrite E.
    vm_compute in Hr. eexists. exact Hr. }
  exists ys, st'. split; [split; reflexivity|].
  apply (history_length Lcg.gen Lcg.sample Lcg.choices 2%Z st ys st'); [reflexivity|exact E].
Defined.

(** A run of [start_wealth_kept]. *)
Lemma start_wealth_kept_run :
  let st := engine two_equal 0.5 0 0 0 3 1 in
  ExtendedYardSale.__init__ Lcg.gen Lcg.random_seed 0%Z two_equal 0.5 0 0 0 3 1 = Ok st
  /\ (forall k r st', lcg_rounds k st = (r, st') -> deref (heap st') 0 = two_equal)
  /\ (forall plot_n plot r st',
        lcg_run_yard_sale plot_n plot st = (r, st') -> deref (heap st') 0 = two_equal).
Proof.
  intros st. split; [reflexivity|].
  apply (start_wealth_kept Lcg.gen Lcg.random_seed Lcg.sample Lcg.choices
           0%Z two_equal 0.5 0 0 0 3%Z 1%Z st).
  reflexivity.
Defined.

(** A run of [pay_tax_agents]: the specification's two agents. *)
Lemma pay_tax_agents_run :
  let w : dict := [("A", 50); ("B", 150)] in
  NoDup (keys w)
  /\ (forall k v, In (k, v) w ->
        (In k (keys (pay_tax 0.1 100 w)) <-> (100 <? v) = true \/ (v <=? 100) = true))
  /\ (forall k v, In (k, v) w -> Np.is_nan v = true ->
        ~ In k (keys (pay_tax 0.1 100 w)))
  /\ (Np.is_nan 100 = false ->
      Forall (fun v => Np.is_nan v = false) (values w) ->
      Permutation (keys (pay_tax 0.1 100 w)) (keys w)).
Proof.
  cbv zeta.
  assert (Hnd : NoDup (keys [("A", 50); ("B", 150)]))
    by (apply nodup_two; discriminate).
  split; [exact Hnd|].
  apply (pay_tax_agents 0.1 100 [("A", 50); ("B", 150)] Hnd).
Defined.

(** A run of [balances_rounded]. *)
Lemma balances_rounded_run :
  let st := engine two_equal 0.5 0 0 0 3 1 in
  exists st',
    lcg_perform_sale st = (Ok tt, st')
    /\ Forall (fun v => exists x, v = Np.round x 2) (values (current_wealth st')).
Proof.
  intros st.
  destruct (lcg_perform_sale st) as [r st'] eqn:E.
  assert (r = Ok tt) as ->.
  { assert (Hr : r = fst (lcg_perform_sale st)) by now rewrite E.
    vm_compute in Hr. exact Hr. }
  exists st'. split; [reflexivity|].
  apply (balances_rounded Lcg.gen Lcg.sample Lcg.choices st st' E).
Defined.

(** A run of [run_is_rounds]. *)
Lemma run_is_rounds_run :
  let st := engine two_equal 0.5 0 0 0 3 1 in
  exists h st',
    lcg_run_yard_sale 2 true st = (Ok h, st')
    /\ lcg_rounds (Z.to_nat (n (self st))) st = (Ok tt, st').
Proof.
  intros st.
  destruct (lcg_run_yard_sale 2 true st) as [r st'] eqn:E.
  assert (exists h, r = Ok h) as [h ->].
  { assert (Hr : r = fst (lcg_run_yard_sale 2 true st)) by now rewrite E.
    vm_compute in Hr. eexists. exact Hr. }
  exists h, st'. split; [reflexivity|].
  apply (run_is_rounds Lcg.gen Lcg.sample Lcg.choices 2%Z true st h st' E).
Defined.

(** A run of [plot_wealth_of_history]: the snapshot of round 2. *)
Lemma plot_wealth_of_history_run :
  let st := engine two_equal 0.5 0 0 0 3 1 in
  exists ys st',
    lcg_run_yard_sale 2 true st = (Ok (Some ys), st')
    /\ let history := map (fun ir => (fst ir, deref (heap st') (snd ir))) ys in
       ((1 <= 2 <= n (self st))%Z /\ (2 mod 2 = 0)%Z ->
        exists st_i,
          lcg_rounds (Z.to_nat 2) st = (Ok tt, st_i)
          /\ plot_wealth history 2
             = Ok (keys (current_wealth st_i), values (current_wealth st_i))
          /\ Permutation (keys (current_wealth st_i)) (keys (current_wealth st)))
       /\ (~ ((1 <= 2 <= n (self st))%Z /\ (2 mod 2 = 0)%Z) ->
           plot_wealth history 2 = Raise KeyError).
Proof.
  intros st.
  destruct (lcg_run_yard_sale 2 true st) as [r st'] eqn:E.
  assert (exists ys, r = Ok (Some ys)) as [ys ->].
  { assert (Hr : r = fst (lcg_run_yard_sale 2 true st)) by now rewrite E.
    vm_compute in Hr. eexists. exact Hr. }
  exists ys, st'. split; [reflexivity|].
  apply (plot_wealth_of_history Lcg.gen Lcg.sample Lcg.choices
           LcgFacts.sample_perm LcgFacts.choices_in LcgFacts.choices_nan
           2%Z st ys st' 2%Z two_equal_agents_ok E).
Defined.
